(** * A* path search on a maze grid (js-maze-astar)

    A shallow embedding of the path finder of the maze demo: the variant
    built on [MySet]/[MyWeakMap] (the one compiled to [build/index.js]) at
    top level, the variant built on the native [Set]/[WeakMap] in module
    [Native], and an auxiliary search over plain coordinates in module
    [Abs] that both variants are shown to follow step by step.

    JavaScript objects are references: a maze cell is a location of a
    store, the maze holds locations, and the properties [MyWeakMap]
    attaches to a cell are kept in the cell's record. Numbers are
    integers ([Z]) or [Infinity]. *)

From Stdlib Require Import Ascii.
From stdpp Require Import base option list gmap strings pretty functions.

Local Open Scope Z_scope.

(** ** JavaScript values used by the search *)

(** A number: an integer or [Infinity] (what [mapGet] answers for an
    absent key). *)
Inductive number :=
  | Fin (z : Z)
  | Infinity.

#[global] Instance number_eq_dec : EqDecision number.
Proof. solve_decision. Defined.

(** [a + b] *)
Definition num_add (a b : number) : number :=
  match a, b with
  | Fin x, Fin y => Fin (x + y)
  | _, _ => Infinity
  end.

(** [a < b] on numbers. *)
Definition num_lt (a b : number) : bool :=
  match a, b with
  | Fin x, Fin y => bool_decide (x < y)
  | Fin _, Infinity => true
  | Infinity, _ => false
  end.

(** [a >= b] on numbers. *)
Definition num_ge (a b : number) : bool :=
  match a, b with
  | Fin x, Fin y => bool_decide (y ≤ x)
  | Infinity, _ => true
  | Fin _, Infinity => false
  end.

(** [a < b] where either side may be [undefined] ([None]): a comparison
    with [undefined] is false. *)
Definition lt_undef (a b : option number) : bool :=
  match a, b with
  | Some x, Some y => num_lt x y
  | _, _ => false
  end.

(** A plain object used as a dictionary with string keys, in the order
    [Object.keys] lists them: insertion order (no key of the search is an
    array index). Assigning to an existing key keeps its place. *)
Fixpoint obj_get {A} (k : string) (o : list (string * A)) : option A :=
  match o with
  | [] => None
  | (k', v) :: o' => if decide (k = k') then Some v else obj_get k o'
  end.

Fixpoint obj_set {A} (k : string) (v : A) (o : list (string * A)) : list (string * A) :=
  match o with
  | [] => [(k, v)]
  | (k', v') :: o' =>
      if decide (k = k') then (k, v) :: o' else (k', v') :: obj_set k v o'
  end.

Definition obj_delete {A} (k : string) (o : list (string * A)) : list (string * A) :=
  filter (λ kv, kv.1 ≠ k) o.

Definition obj_keys {A} (o : list (string * A)) : list string := o.*1.

(** [arr[ix]] for a number [ix]: [undefined] out of range. *)
Definition zlookup {A} (l : list A) (ix : Z) : option A :=
  if bool_decide (0 ≤ ix) then l !! Z.to_nat ix else None.

(** ** The data model *)

(** A reference to a cell object. *)
Abbreviation loc := nat (only parsing).

Module MazeUnit.
(** [interface MazeUnit], with the properties attached at run time
    ([props], keyed by property name). *)
Record t := mk {
  x : Z;
  y : Z;
  w : Z;
  h : Z;
  i : Z;
  j : Z;
  id : string;
  isBlock : bool;
  props : gmap string number
}.

(** [obj[k] = v] for an attached property. *)
Definition set_prop (k : string) (v : number) (u : t) : t :=
  mk (x u) (y u) (w u) (h u) (i u) (j u) (id u) (isBlock u) (<[k := v]> (props u)).

(** The declared fields of a cell, without the attached properties. *)
Definition fields (u : t) : Z * Z * Z * Z * Z * Z * string * bool :=
  (x u, y u, w u, h u, i u, j u, id u, isBlock u).
End MazeUnit.

(** The store: every reference denotes an object. *)
Abbreviation Store := (loc → MazeUnit.t) (only parsing).

(** [type Maze = MazeUnit[][]], indexed [maze[i][j]]. *)
Abbreviation Maze := (list (list loc)) (only parsing).

(** Grid coordinates [(i, j)]. *)
Abbreviation pos := (Z * Z)%type (only parsing).

(** The id [generateMaze] gives the cell at [(i, j)]: [i + ":" + j]. *)
Definition mkId (a b : Z) : string := pretty a +:+ ":" +:+ pretty b.

(** No character of [s] is a colon (as in the decimal form of a number). *)
Fixpoint no_colon (s : string) : Prop :=
  match s with
  | EmptyString => True
  | String c s' => c ≠ ":"%char ∧ no_colon s'
  end.

(** [generateMaze], with the outcome of [Math.random() < block] for each
    cell given by [rnd]; the cell at [(i, j)] is allocated at location
    [i * yUnitCount + j]. [width] and [height] are integers here, and
    [unitSize] a non-zero one. *)
Definition generateMaze_cell (unitSize : Z) (rnd : Z → Z → bool) (a b : Z) : MazeUnit.t :=
  MazeUnit.mk (a * unitSize) (b * unitSize) unitSize unitSize a b (mkId a b) (rnd a b) ∅.

Definition generateMaze (width height unitSize : Z) (rnd : Z → Z → bool) : (loc → MazeUnit.t) * list (list loc) :=
  let xUnitCount := Z.to_nat (width `div` unitSize) in
  let yUnitCount := Z.to_nat (height `div` unitSize) in
  (λ l, generateMaze_cell unitSize rnd (Z.of_nat (l `div` yUnitCount)%nat) (Z.of_nat (l `mod` yUnitCount)%nat),
   (λ a, (λ b, (a * yUnitCount + b)%nat) <$> seq 0 yUnitCount) <$> seq 0 xUnitCount).

(** ** The search built on [MySet] and [MyWeakMap] *)

(** [class MyWeakMap]: the map is the name of the property it attaches to
    its keys. *)
Record MyWeakMap := { wm_id : string }.

(** The property name of the [n]-th instance: ["weakmap" + n]. *)
Definition wm_key (n : nat) : string := "weakmap" +:+ pretty n.

(** [new MyWeakMap()], threading the static [instanceCount]. *)
Definition MyWeakMap_new (instanceCount : nat) : MyWeakMap * nat :=
  ({| wm_id := wm_key instanceCount |}, S instanceCount).

(** [set(obj, value)]: [obj[this.id] = value], an update of the object
    itself. *)
Definition MyWeakMap_set (m : MyWeakMap) (obj : loc) (value : number) (σ : loc → MazeUnit.t) : loc → MazeUnit.t :=
  <[obj := MazeUnit.set_prop (wm_id m) value (σ obj)]> σ.

(** [get(obj)]: [obj[this.id]], [None] for [undefined]. *)
Definition MyWeakMap_get (m : MyWeakMap) (σ : loc → MazeUnit.t) (obj : loc) : option number :=
  MazeUnit.props (σ obj) !! wm_id m.

(** [has(obj)]: [obj[this.id] !== undefined]. *)
Definition MyWeakMap_has (m : MyWeakMap) (σ : loc → MazeUnit.t) (obj : loc) : bool :=
  bool_decide (MyWeakMap_get m σ obj ≠ None).

(** [mapGet]: the value of the map, [Infinity] when it has none. *)
Definition mapGet (map : MyWeakMap) (σ : loc → MazeUnit.t) (obj : loc) : number :=
  if MyWeakMap_has map σ obj then default Infinity (MyWeakMap_get map σ obj) else Infinity.

(** [class MySet<MazeUnit>] with [getId = unit => unit.id]. *)
Record MySet := { record : list (string * loc); size : Z }.

Definition getId (σ : loc → MazeUnit.t) (unit : loc) : string := MazeUnit.id (σ unit).

(** The constructor, [arr] being [[]] when it is not given. *)
Definition MySet_new (σ : loc → MazeUnit.t) (arr : list loc) : MySet :=
  let record := fold_left (λ r a, obj_set (getId σ a) a r) arr [] in
  {| record := record; size := Z.of_nat (length (obj_keys record)) |}.

Definition MySet_get (σ : loc → MazeUnit.t) (s : MySet) (item : loc) : option loc :=
  obj_get (getId σ item) (record s).

Definition MySet_has (σ : loc → MazeUnit.t) (s : MySet) (item : loc) : bool :=
  bool_decide (MySet_get σ s item ≠ None).

Definition MySet_add (σ : loc → MazeUnit.t) (s : MySet) (item : loc) : MySet :=
  {| record := obj_set (getId σ item) item (record s);
     size := if MySet_has σ s item then size s else size s + 1 |}.

Definition MySet_delete (σ : loc → MazeUnit.t) (s : MySet) (item : loc) : MySet :=
  {| record := obj_delete (getId σ item) (record s);
     size := if MySet_has σ s item then size s - 1 else size s |}.

(** [values()]: [Object.keys(record).map(k => record[k])]. *)
Definition MySet_values (s : MySet) : list loc :=
  omap (λ k, obj_get k (record s)) (obj_keys (record s)).

(** [buildPath]: [fuel] bounds the iterations of its [while] loop;
    [unit] is [None] once it is [undefined]. *)
Fixpoint buildPath_loop (fuel : nat) (σ : loc → MazeUnit.t) (from : gmap string loc)
    (unit : option loc) (path : list loc) : option (list loc) :=
  match unit with
  | None => Some path
  | Some u =>
      match fuel with
      | O => None
      | S fuel' =>
          let parent := from !! MazeUnit.id (σ u) in
          let path' := match parent with Some p => path ++ [p] | None => path end in
          buildPath_loop fuel' σ from parent path'
      end
  end.

Definition buildPath (fuel : nat) (σ : loc → MazeUnit.t) (from : gmap string loc) (unit : loc) : option (list loc) :=
  buildPath_loop fuel σ from (Some unit) [unit].

(** [cost]: the Manhattan distance of the pixel origins. *)
Definition cost (σ : loc → MazeUnit.t) (a b : loc) : Z :=
  Z.abs (MazeUnit.x (σ a) - MazeUnit.x (σ b)) + Z.abs (MazeUnit.y (σ a) - MazeUnit.y (σ b)).

(** [getMazeUnit]: [maze[ix][iy]], [None] when the row or the cell is
    [undefined]. *)
Definition getMazeUnit (maze : list (list loc)) (ix iy : Z) : option loc :=
  match zlookup maze ix with
  | Some row => zlookup row iy
  | None => None
  end.

(** The state the main loop of [getPath] works on. *)
Record State := {
  store : loc → MazeUnit.t;
  closedSet : MySet;
  openSet : MySet;
  from : gmap string loc
}.

(** The [for] loop choosing [current] among [openUnits]. *)
Definition select (fScore : MyWeakMap) (σ : loc → MazeUnit.t) (openUnits : list loc) : option loc :=
  match openUnits with
  | [] => None
  | first :: _ =>
      Some (fold_left
              (λ current u,
                 if lt_undef (MyWeakMap_get fScore σ u) (MyWeakMap_get fScore σ current)
                 then u else current)
              openUnits first)
  end.

(** The four candidates around [(i, j)], mapped through [getMazeUnit] and
    filtered by [!!u && !u.isBlock]. *)
Definition neighbors (σ : loc → MazeUnit.t) (maze : list (list loc)) (i j : Z) : list loc :=
  filter (λ u, MazeUnit.isBlock (σ u) = false)
    (omap (λ p : Z * Z, getMazeUnit maze p.1 p.2)
       [(i - 1, j); (i, j - 1); (i, j + 1); (i + 1, j)]).

(** The body of [neighbors.forEach]; [None] when [gScore.get(neighbor)]
    would be [undefined] in the sum for [fScore]. *)
Definition visit (gScore fScore : MyWeakMap) (targetPoint current : loc)
    (st : State) (neighbor : loc) : option State :=
  if MySet_has (store st) (closedSet st) neighbor then Some st
  else
    let openSet' := MySet_add (store st) (openSet st) neighbor in
    let tentasiveGScore :=
      num_add (mapGet gScore (store st) current) (Fin (cost (store st) current neighbor)) in
    if num_ge tentasiveGScore (mapGet gScore (store st) neighbor)
    then Some {| store := store st; closedSet := closedSet st;
                 openSet := openSet'; from := from st |}
    else
      let from' := <[MazeUnit.id (store st neighbor) := current]> (from st) in
      let σ1 := MyWeakMap_set gScore neighbor tentasiveGScore (store st) in
      g ← MyWeakMap_get gScore σ1 neighbor;
      let σ2 := MyWeakMap_set fScore neighbor
                  (num_add g (Fin (cost σ1 neighbor targetPoint))) σ1 in
      Some {| store := σ2; closedSet := closedSet st; openSet := openSet'; from := from' |}.

(** [neighbors.forEach]. *)
Definition visit_all (gScore fScore : MyWeakMap) (targetPoint current : loc)
    (st : State) (ns : list loc) : option State :=
  foldl (λ acc n, st' ← acc; visit gScore fScore targetPoint current st' n) (Some st) ns.

(** The main [while] loop: [fuel] bounds its iterations, [bfuel] those of
    [buildPath]. [None]: a bound was reached, or [current] was
    [undefined]. *)
Fixpoint search (fuel bfuel : nat) (maze : list (list loc)) (gScore fScore : MyWeakMap)
    (targetPoint : loc) (st : State) : option ((loc → MazeUnit.t) * list loc) :=
  if bool_decide (size (openSet st) ≠ 0) then
    match fuel with
    | O => None
    | S fuel' =>
        let σ := store st in
        current ← select fScore σ (MySet_values (openSet st));
        if bool_decide (MazeUnit.i (σ current) = MazeUnit.i (σ targetPoint)
                        ∧ MazeUnit.j (σ current) = MazeUnit.j (σ targetPoint))
        then path ← buildPath bfuel σ (from st) current; Some (σ, path)
        else
          let st1 := {| store := σ;
                        closedSet := MySet_add σ (closedSet st) current;
                        openSet := MySet_delete σ (openSet st) current;
                        from := from st |} in
          st2 ← visit_all gScore fScore targetPoint current st1
                  (neighbors σ maze (MazeUnit.i (σ current)) (MazeUnit.j (σ current)));
          search fuel' bfuel maze gScore fScore targetPoint st2
    end
  else Some (store st, []).

(** [getPath]: takes the store and the static [MyWeakMap.instanceCount],
    returns them with the path. [fuel] bounds the iterations of each
    loop. *)
Definition getPath (fuel : nat) (instanceCount : nat) (σ : loc → MazeUnit.t)
    (maze : list (list loc)) (startPoint targetPoint : loc)
    : option (nat * (loc → MazeUnit.t) * list loc) :=
  let closedSet := MySet_new σ [] in
  let openSet := MySet_new σ [startPoint] in
  let from : gmap string loc := ∅ in
  let '(gScore, n1) := MyWeakMap_new instanceCount in
  let '(fScore, n2) := MyWeakMap_new n1 in
  let σ1 := MyWeakMap_set gScore startPoint (Fin 0) σ in
  let σ2 := MyWeakMap_set fScore startPoint (Fin (cost σ1 startPoint targetPoint)) σ1 in
  r ← search fuel fuel maze gScore fScore targetPoint
        {| store := σ2; closedSet := closedSet; openSet := openSet; from := from |};
  Some (n2, r.1, r.2).

(** ** The search built on the native [Set], [Map] and [WeakMap] *)

Module Native.

(** A native [Set<MazeUnit>]: keyed by object identity, iterated in
    insertion order. *)
Definition Set_has (s : list loc) (item : loc) : bool := bool_decide (item ∈ s).

Definition Set_add (s : list loc) (item : loc) : list loc :=
  if Set_has s item then s else s ++ [item].

Definition Set_delete (s : list loc) (item : loc) : list loc :=
  filter (λ l, l ≠ item) s.

(** [getId] of this variant: [unit.x + ":" + unit.y]. *)
Definition getId (σ : loc → MazeUnit.t) (unit : loc) : string :=
  pretty (MazeUnit.x (σ unit)) +:+ ":" +:+ pretty (MazeUnit.y (σ unit)).

(** [mapGet] on a [WeakMap<MazeUnit, number>]. *)
Definition mapGet (map : gmap loc number) (obj : loc) : number :=
  if bool_decide (map !! obj ≠ None) then default Infinity (map !! obj) else Infinity.

Definition cost (σ : loc → MazeUnit.t) (a b : loc) : Z :=
  Z.abs (MazeUnit.x (σ a) - MazeUnit.x (σ b)) + Z.abs (MazeUnit.y (σ a) - MazeUnit.y (σ b)).

Fixpoint buildPath_loop (fuel : nat) (σ : loc → MazeUnit.t) (from : gmap string loc)
    (unit : option loc) (path : list loc) : option (list loc) :=
  match unit with
  | None => Some path
  | Some u =>
      match fuel with
      | O => None
      | S fuel' =>
          let parent := from !! getId σ u in
          let path' := match parent with Some p => path ++ [p] | None => path end in
          buildPath_loop fuel' σ from parent path'
      end
  end.

Definition buildPath (fuel : nat) (σ : loc → MazeUnit.t) (from : gmap string loc) (unit : loc) : option (list loc) :=
  buildPath_loop fuel σ from (Some unit) [unit].

Record State := {
  closedSet : list loc;
  openSet : list loc;
  from : gmap string loc;
  gScore : gmap loc number;
  fScore : gmap loc number
}.

Definition select (fScore : gmap loc number) (openUnits : list loc) : option loc :=
  match openUnits with
  | [] => None
  | first :: _ =>
      Some (fold_left
              (λ current u, if lt_undef (fScore !! u) (fScore !! current) then u else current)
              openUnits first)
  end.

Definition visit (σ : loc → MazeUnit.t) (targetPoint current : loc)
    (st : State) (neighbor : loc) : option State :=
  if Set_has (closedSet st) neighbor then Some st
  else
    let openSet' := Set_add (openSet st) neighbor in
    let tentasiveGScore :=
      num_add (mapGet (gScore st) current) (Fin (cost σ current neighbor)) in
    if num_ge tentasiveGScore (mapGet (gScore st) neighbor)
    then Some {| closedSet := closedSet st; openSet := openSet'; from := from st;
                 gScore := gScore st; fScore := fScore st |}
    else
      let from' := <[getId σ neighbor := current]> (from st) in
      let gScore' := <[neighbor := tentasiveGScore]> (gScore st) in
      g ← gScore' !! neighbor;
      let fScore' := <[neighbor := num_add g (Fin (cost σ neighbor targetPoint))]> (fScore st) in
      Some {| closedSet := closedSet st; openSet := openSet'; from := from';
              gScore := gScore'; fScore := fScore' |}.

Definition visit_all (σ : loc → MazeUnit.t) (targetPoint current : loc)
    (st : State) (ns : list loc) : option State :=
  foldl (λ acc n, st' ← acc; visit σ targetPoint current st' n) (Some st) ns.

Fixpoint search (fuel bfuel : nat) (σ : loc → MazeUnit.t) (maze : list (list loc))
    (targetPoint : loc) (st : State) : option (list loc) :=
  if bool_decide (length (openSet st) ≠ 0%nat) then
    match fuel with
    | O => None
    | S fuel' =>
        current ← select (fScore st) (openSet st);
        if bool_decide (MazeUnit.i (σ current) = MazeUnit.i (σ targetPoint)
                        ∧ MazeUnit.j (σ current) = MazeUnit.j (σ targetPoint))
        then buildPath bfuel σ (from st) current
        else
          let st1 := {| closedSet := Set_add (closedSet st) current;
                        openSet := Set_delete (openSet st) current;
                        from := from st; gScore := gScore st; fScore := fScore st |} in
          st2 ← visit_all σ targetPoint current st1
                  (neighbors σ maze (MazeUnit.i (σ current)) (MazeUnit.j (σ current)));
          search fuel' bfuel σ maze targetPoint st2
    end
  else Some [].

Definition getPath (fuel : nat) (σ : loc → MazeUnit.t) (maze : list (list loc))
    (startPoint targetPoint : loc) : option (list loc) :=
  search fuel fuel σ maze targetPoint
    {| closedSet := []; openSet := [startPoint]; from := ∅;
       gScore := {[startPoint := Fin 0]};
       fScore := {[startPoint := Fin (cost σ startPoint targetPoint)]} |}.

End Native.

(** ** Well-formed grids *)

(** The attached properties of [u] are those of [MyWeakMap] instances
    created so far. *)
Definition fresh_props (count : nat) (u : MazeUnit.t) : bool :=
  bool_decide (map_Forall (λ k _, k ∈ wm_key <$> seq 0 count) (MazeUnit.props u)).

(** The cell at [(a, b)] is as [generateMaze] builds it. *)
Definition cell_ok (unitSize : Z) (count : nat) (a b : Z) (u : MazeUnit.t) : bool :=
  bool_decide (MazeUnit.x u = a * unitSize ∧ MazeUnit.y u = b * unitSize
               ∧ MazeUnit.i u = a ∧ MazeUnit.j u = b ∧ MazeUnit.id u = mkId a b)
  && fresh_props count u.

Definition row_ok (unitSize : Z) (count : nat) (σ : loc → MazeUnit.t) (a : nat) (row : list loc) : list bool :=
  imap (λ b l, cell_ok unitSize count (Z.of_nat a) (Z.of_nat b) (σ l)) row.

(** A grid as the data model has it: a rectangular matrix whose cells
    carry their own position, with a positive cell size. *)
Definition wf (unitSize : Z) (count : nat) (σ : loc → MazeUnit.t) (maze : list (list loc)) : bool :=
  bool_decide (0 < unitSize)
  && forallb (λ row, bool_decide (length row = length (hd [] maze))) maze
  && forallb id (concat (imap (row_ok unitSize count σ) maze)).

(** The number of cells of the grid. *)
Definition cell_count (maze : list (list loc)) : nat := length (concat maze).

(** No cell of the grid is blocked. *)
Definition no_blocks (σ : loc → MazeUnit.t) (maze : list (list loc)) : bool :=
  forallb (λ l, negb (MazeUnit.isBlock (σ l))) (concat maze).

(** The cells of the grid have the same flags in both stores. *)
Definition same_flags (σ1 σ2 : loc → MazeUnit.t) (maze : list (list loc)) : bool :=
  forallb (λ l, bool_decide (MazeUnit.isBlock (σ2 l) = MazeUnit.isBlock (σ1 l))) (concat maze).

(** ** Paths on the grid *)

Definition coords (σ : loc → MazeUnit.t) (l : loc) : Z * Z :=
  (MazeUnit.i (σ l), MazeUnit.j (σ l)).

(** 4-adjacency: one unit apart in exactly one axis. *)
Definition adjacent (p q : Z * Z) : Prop :=
  Z.abs (p.1 - q.1) + Z.abs (p.2 - q.2) = 1.

#[global] Instance adjacent_dec p q : Decision (adjacent p q).
Proof. unfold adjacent. apply _. Defined.

(** An unblocked cell of the maze at [p]. *)
Definition open_cell (σ : loc → MazeUnit.t) (maze : list (list loc)) (p : Z * Z) : Prop :=
  ∃ l, getMazeUnit maze p.1 p.2 = Some l ∧ MazeUnit.isBlock (σ l) = false.

(** [route σ maze t s ps]: [ps] leads from [s] to [t] by steps to
    4-adjacent unblocked cells of the maze ([s] itself is where the walk
    stands at first, whatever its flag). *)
Inductive route (σ : loc → MazeUnit.t) (maze : list (list loc)) (t : Z * Z) : Z * Z → list (Z * Z) → Prop :=
  | route_end : route σ maze t t [t]
  | route_step p q ps :
      adjacent p q → open_cell σ maze q → route σ maze t q ps →
      route σ maze t p (p :: ps).

(** One step of a route on a concrete grid, to the cell [q]. *)
Ltac route_via q :=
  apply (route_step _ _ _ _ q); [reflexivity | eexists; split; reflexivity |].

(** The cost of a sequence of cells: one [unitSize] per step. *)
Definition path_cost {A} (unitSize : Z) (ps : list A) : Z :=
  unitSize * (Z.of_nat (length ps) - 1).

(** ** The search over coordinates *)

Module Abs.

Record Grid := {
  cols : Z;
  rows : Z;
  unitSize : Z;
  blocked : Z * Z → bool
}.

Definition ingrid (G : Grid) (p : Z * Z) : Prop :=
  0 ≤ p.1 < cols G ∧ 0 ≤ p.2 < rows G.

Definition cost (G : Grid) (a b : Z * Z) : Z :=
  Z.abs (a.1 * unitSize G - b.1 * unitSize G) + Z.abs (a.2 * unitSize G - b.2 * unitSize G).

Record state := {
  open : list (Z * Z);
  closed : list (Z * Z);
  from : gmap (Z * Z) (Z * Z);
  g : gmap (Z * Z) Z;
  f : gmap (Z * Z) Z
}.

Definition lt_opt (a b : option Z) : bool :=
  match a, b with
  | Some x, Some y => bool_decide (x < y)
  | _, _ => false
  end.

Definition select (f : gmap (Z * Z) Z) (l : list (Z * Z)) : option (Z * Z) :=
  match l with
  | [] => None
  | first :: _ =>
      Some (fold_left (λ cur u, if lt_opt (f !! u) (f !! cur) then u else cur) l first)
  end.

Definition candidates (c : Z * Z) : list (Z * Z) :=
  [(c.1 - 1, c.2); (c.1, c.2 - 1); (c.1, c.2 + 1); (c.1 + 1, c.2)].

Definition neighbors (G : Grid) (c : Z * Z) : list (Z * Z) :=
  filter (λ p, ingrid G p ∧ blocked G p = false) (candidates c).

Definition add (l : list (Z * Z)) (p : Z * Z) : list (Z * Z) :=
  if bool_decide (p ∈ l) then l else l ++ [p].

Definition visit (G : Grid) (target cur : Z * Z) (st : state) (n : Z * Z) : state :=
  if bool_decide (n ∈ closed st) then st
  else
    let open' := add (open st) n in
    let skip := {| open := open'; closed := closed st; from := from st;
                   g := g st; f := f st |} in
    match g st !! cur with
    | None => skip
    | Some gc =>
        let tent := gc + cost G cur n in
        if match g st !! n with Some gn => bool_decide (gn ≤ tent) | None => false end
        then skip
        else {| open := open'; closed := closed st;
                from := <[n := cur]> (from st);
                g := <[n := tent]> (g st);
                f := <[n := tent + cost G n target]> (f st) |}
    end.

Fixpoint buildPath_loop (fuel : nat) (from : gmap (Z * Z) (Z * Z))
    (unit : option (Z * Z)) (path : list (Z * Z)) : option (list (Z * Z)) :=
  match unit with
  | None => Some path
  | Some u =>
      match fuel with
      | O => None
      | S fuel' =>
          let parent := from !! u in
          let path' := match parent with Some p => path ++ [p] | None => path end in
          buildPath_loop fuel' from parent path'
      end
  end.

Definition buildPath (fuel : nat) (from : gmap (Z * Z) (Z * Z)) (unit : Z * Z) : option (list (Z * Z)) :=
  buildPath_loop fuel from (Some unit) [unit].

Definition pop (cur : Z * Z) (st : state) : state :=
  {| open := filter (λ p, p ≠ cur) (open st); closed := add (closed st) cur;
     from := from st; g := g st; f := f st |}.

Fixpoint search (fuel bfuel : nat) (G : Grid) (target : Z * Z) (st : state) : option (list (Z * Z)) :=
  if bool_decide (open st ≠ []) then
    match fuel with
    | O => None
    | S fuel' =>
        cur ← select (f st) (open st);
        if bool_decide (cur = target) then buildPath bfuel (from st) cur
        else search fuel' bfuel G target
               (foldl (visit G target cur) (pop cur st) (neighbors G cur))
    end
  else Some [].

Definition init (G : Grid) (start target : Z * Z) : state :=
  {| open := [start]; closed := []; from := ∅;
     g := {[start := 0]}; f := {[start := cost G start target]} |}.

Definition getPath (fuel : nat) (G : Grid) (start target : Z * Z) : option (list (Z * Z)) :=
  search fuel fuel G target (init G start target).

(** [walk G s p k]: [p] is reached from [s] in [k] steps, each to an
    unblocked neighbour inside the grid. *)
Inductive walk (G : Grid) (s : Z * Z) : Z * Z → nat → Prop :=
  | walk_O : walk G s s 0
  | walk_S p q k : walk G s p k → q ∈ neighbors G p → walk G s q (S k).

(** [back G s p l]: [l] starts at [p], ends at [s], and each cell but the
    last is an unblocked neighbour of the next one. *)
Inductive back (G : Grid) (s : Z * Z) : Z * Z → list (Z * Z) → Prop :=
  | back_start : back G s s [s]
  | back_step p c l : p ∈ neighbors G c → back G s c l → back G s p (p :: l).

(** [chain from p l]: [l] follows the links of [from] from [p] until a cell
    without a link. *)
Inductive chain (from : gmap (Z * Z) (Z * Z)) : Z * Z → list (Z * Z) → Prop :=
  | chain_end p : from !! p = None → chain from p [p]
  | chain_step p c l : from !! p = Some c → chain from c l → chain from p (p :: l).

(** Manhattan distance, in steps. *)
Definition manh (a b : Z * Z) : Z := Z.abs (a.1 - b.1) + Z.abs (a.2 - b.2).

(** The number of cells of the grid. *)
Definition size (G : Grid) : nat := (Z.to_nat (cols G) * Z.to_nat (rows G))%nat.

Definition seen (st : state) (p : Z * Z) : Prop := p ∈ open st ∨ p ∈ closed st.

(** What holds of [n] once it has been visited from [cur]. *)
Definition visited (G : Grid) (cur : Z * Z) (st : state) (n : Z * Z) : Prop :=
  seen st n ∧ ∃ gc gn, g st !! cur = Some gc ∧ g st !! n = Some gn ∧ gn ≤ gc + unitSize G.

(** The invariant of the main loop; [ex] is the cell being expanded, whose
    neighbours are not all visited yet. *)
Record inv (G : Grid) (s t : Z * Z) (ex : option (Z * Z)) (st : state) : Prop := {
  inv_nodup_open : NoDup (open st);
  inv_nodup_closed : NoDup (closed st);
  inv_disjoint : ∀ p, p ∈ open st → p ∉ closed st;
  inv_start : seen st s;
  inv_start_g : g st !! s = Some 0;
  inv_start_from : from st !! s = None;
  inv_ingrid : ∀ p, seen st p → ingrid G p;
  inv_gdom : ∀ p, is_Some (g st !! p) → seen st p;
  inv_f : ∀ p x, g st !! p = Some x → f st !! p = Some (x + cost G p t);
  inv_link : ∀ p, seen st p → p ≠ s →
    ∃ c k, from st !! p = Some c ∧ c ∈ closed st ∧ p ∈ neighbors G c
           ∧ g st !! c = Some (unitSize G * Z.of_nat k)
           ∧ g st !! p = Some (unitSize G * Z.of_nat (S k));
  inv_reach : ∀ p, seen st p →
    ∃ k, walk G s p k ∧ g st !! p = Some (unitSize G * Z.of_nat k);
  inv_opt : ∀ c k k', c ∈ closed st → walk G s c k →
    g st !! c = Some (unitSize G * Z.of_nat k') → (k' ≤ k)%nat;
  inv_closure : ∀ c n, c ∈ closed st → Some c ≠ ex → n ∈ neighbors G c → visited G c st n;
  inv_target : t ∉ closed st
}.

(** Every cell the state mentions lies in the grid, and no cell is open
    twice. *)
Record scoped (G : Grid) (st : state) : Prop := {
  scoped_nodup : NoDup (open st);
  scoped_open : ∀ p, p ∈ open st → ingrid G p;
  scoped_closed : ∀ p, p ∈ closed st → ingrid G p;
  scoped_from : ∀ p q, from st !! p = Some q → ingrid G q
}.

(** What the search answers: nothing when no walk reaches the target, or
    else a shortest way back from the target to the start. *)
Definition outcome (G : Grid) (s t : Z * Z) (r : list (Z * Z)) : Prop :=
  (r = [] ∧ ∀ k, ¬ walk G s t k)
  ∨ (∃ k, back G s t r ∧ length r = S k ∧ walk G s t k
          ∧ ∀ k', walk G s t k' → (k ≤ k')%nat).

End Abs.

(** The grid of coordinates a maze and its store stand for. *)
Definition loc_at (maze : list (list loc)) (p : Z * Z) : loc :=
  default 0%nat (getMazeUnit maze p.1 p.2).

Definition grid_of (unitSize : Z) (σ : loc → MazeUnit.t) (maze : list (list loc)) : Abs.Grid :=
  {| Abs.cols := Z.of_nat (length maze);
     Abs.rows := Z.of_nat (length (hd [] maze));
     Abs.unitSize := unitSize;
     Abs.blocked := λ p, MazeUnit.isBlock (σ (loc_at maze p)) |}.

(** [G] describes [maze] in the store [σ]: the cells of the maze are the
    positions of [G], each carrying its own position, pixel origin, id and
    flag. *)
Record grid_ok (G : Abs.Grid) (σ : loc → MazeUnit.t) (maze : list (list loc)) : Prop := {
  ok_unit : 0 < Abs.unitSize G;
  ok_in : ∀ p, Abs.ingrid G p → is_Some (getMazeUnit maze p.1 p.2);
  ok_out : ∀ p, ¬ Abs.ingrid G p → getMazeUnit maze p.1 p.2 = None;
  ok_cell : ∀ p, Abs.ingrid G p →
    MazeUnit.x (σ (loc_at maze p)) = p.1 * Abs.unitSize G
    ∧ MazeUnit.y (σ (loc_at maze p)) = p.2 * Abs.unitSize G
    ∧ MazeUnit.i (σ (loc_at maze p)) = p.1
    ∧ MazeUnit.j (σ (loc_at maze p)) = p.2
    ∧ MazeUnit.id (σ (loc_at maze p)) = mkId p.1 p.2
    ∧ MazeUnit.isBlock (σ (loc_at maze p)) = Abs.blocked G p
}.

(** What a search leaves of the store [σ0]: the declared fields of every
    object, and every attached property but those named [gk] and [fk]. *)
Definition frame (gk fk : string) (σ0 σ : loc → MazeUnit.t) : Prop :=
  ∀ l, MazeUnit.fields (σ l) = MazeUnit.fields (σ0 l)
       ∧ ∀ k, k ≠ gk → k ≠ fk → MazeUnit.props (σ l) !! k = MazeUnit.props (σ0 l) !! k.

(** The entry of a [MySet] record for the cell at [p]. *)
Definition enc (maze : list (list loc)) (p : Z * Z) : string * loc :=
  (mkId p.1 p.2, loc_at maze p).

(** The state of the [MySet]/[MyWeakMap] search, started in the store
    [σ0], stands for the state [a] of the search over coordinates. *)
Record sim (G : Abs.Grid) (maze : list (list loc)) (σ0 : loc → MazeUnit.t)
    (gScore fScore : MyWeakMap) (c : State) (a : Abs.state) : Prop := {
  sim_grid : grid_ok G (store c) maze;
  sim_frame : frame (wm_id gScore) (wm_id fScore) σ0 (store c);
  sim_keys : wm_id gScore ≠ wm_id fScore;
  sim_open : record (openSet c) = enc maze <$> Abs.open a;
  sim_size : size (openSet c) = Z.of_nat (length (Abs.open a));
  sim_closed : record (closedSet c) = enc maze <$> Abs.closed a;
  sim_from : ∀ p, from c !! mkId p.1 p.2 = loc_at maze <$> Abs.from a !! p;
  sim_g : ∀ p, Abs.ingrid G p →
    MyWeakMap_get gScore (store c) (loc_at maze p) = Fin <$> Abs.g a !! p;
  sim_f : ∀ p, Abs.ingrid G p →
    MyWeakMap_get fScore (store c) (loc_at maze p) = Fin <$> Abs.f a !! p
}.

(** The same for the search on native collections. *)
Record nsim (G : Abs.Grid) (maze : list (list loc)) (c : Native.State) (a : Abs.state) : Prop := {
  nsim_open : Native.openSet c = loc_at maze <$> Abs.open a;
  nsim_closed : Native.closedSet c = loc_at maze <$> Abs.closed a;
  nsim_from : ∀ p,
    Native.from c !! mkId (p.1 * Abs.unitSize G) (p.2 * Abs.unitSize G)
    = loc_at maze <$> Abs.from a !! p;
  nsim_g : ∀ p, Abs.ingrid G p → Native.gScore c !! loc_at maze p = Fin <$> Abs.g a !! p;
  nsim_f : ∀ p, Abs.ingrid G p → Native.fScore c !! loc_at maze p = Fin <$> Abs.f a !! p
}.

(** ** Example grids *)

(** A 3×3 grid without blocked cells. *)
Definition grid_free : (loc → MazeUnit.t) * list (list loc) :=
  generateMaze 30 30 10 (λ _ _, false).

(** A 3×1 grid whose cell (1,0) is blocked. *)
Definition grid_wall : (loc → MazeUnit.t) * list (list loc) :=
  generateMaze 30 10 10 (λ a _, bool_decide (a = 1)).

(** A 3×3 grid whose middle row is blocked except for the cell (1,1). *)
Definition grid_gap : (loc → MazeUnit.t) * list (list loc) :=
  generateMaze 30 30 10 (λ a b, bool_decide (b = 1 ∧ a ≠ 1)).

(** A 2×1 grid whose cell (0,0) is blocked. *)
Definition grid_blocked_start : (loc → MazeUnit.t) * list (list loc) :=
  generateMaze 20 10 10 (λ a _, bool_decide (a = 0)).

(** The store of [grid_gap] after a search from (0,0) to (2,2). *)
Definition grid_gap_searched : loc → MazeUnit.t :=
  match getPath 9 0 grid_gap.1 grid_gap.2 0%nat 8%nat with
  | Some (_, σ', _) => σ'
  | None => grid_gap.1
  end.

(** The score [m] holds for [u], when it is a finite one. *)
Definition score (m : MyWeakMap) (σ : loc → MazeUnit.t) (u : loc) : option Z :=
  match MyWeakMap_get m σ u with
  | Some (Fin z) => Some z
  | _ => None
  end.

(** ** What the search is built from, taken alone *)

(** Every id has a colon, as the ids [generateMaze] makes. Such a key is
    neither an array index nor a name a plain object inherits
    ([constructor], [__proto__], ...), so that a plain object keyed by
    ids holds what was assigned to it and nothing else. *)
Definition plain_ids (σ : loc → MazeUnit.t) : Prop :=
  ∀ l, ¬ no_colon (MazeUnit.id (σ l)).

(** An operation on a [MySet]. *)
Inductive MySet_op :=
  | op_add (item : loc)
  | op_delete (item : loc).

Definition MySet_apply (σ : loc → MazeUnit.t) (s : MySet) (op : MySet_op) : MySet :=
  match op with
  | op_add item => MySet_add σ s item
  | op_delete item => MySet_delete σ s item
  end.

(** The set [new MySet(getId, arr)] after the operations [ops]. *)
Definition MySet_run (σ : loc → MazeUnit.t) (arr : list loc) (ops : list MySet_op) : MySet :=
  foldl (MySet_apply σ) (MySet_new σ arr) ops.

(** What every [MySet] satisfies: its record holds each item once, under
    the item's id, and [size] counts the entries. *)
Record MySet_inv (σ : loc → MazeUnit.t) (s : MySet) : Prop := {
  set_keys : NoDup (record s).*1;
  set_size : size s = Z.of_nat (length (record s));
  set_ids : ∀ k l, (k, l) ∈ record s → k = getId σ l
}.

(** [linked σ from u l]: [l] starts at [u] and follows the links of
    [from], by the ids of the cells, down to a cell without a link. *)
Inductive linked (σ : loc → MazeUnit.t) (from : gmap string loc) : loc → list loc → Prop :=
  | linked_end u : from !! MazeUnit.id (σ u) = None → linked σ from u [u]
  | linked_step u p l :
      from !! MazeUnit.id (σ u) = Some p → linked σ from p l → linked σ from u (u :: l).

(** ** The callers of the search *)

(** How a call ends: with a value, or by throwing a [TypeError] (a
    property read off [undefined]). *)
Inductive completion (A : Type) :=
  | Normal (a : A)
  | TypeError.

Arguments Normal {A} a.
Arguments TypeError {A}.

(** [getStartPoint]; [rnd_i n] and [rnd_j n] stand for the two values of
    [Math.floor(Math.random() * n)]. The value is [None] when
    [maze[i][j]] is [undefined]. *)
Definition getStartPoint (maze : list (list loc)) (rnd_i rnd_j : Z → Z) : completion (option loc) :=
  match maze !! 0%nat with
  | None => TypeError
  | Some row0 =>
      let i := rnd_i (Z.of_nat (length row0)) in
      let j := rnd_j (Z.of_nat (length maze)) in
      match zlookup maze i with
      | None => TypeError
      | Some row => Normal (zlookup row j)
      end
  end.

(** The [targetPoint] of [loop] for a pointer over the cell indices
    [(i, j)], which [loop] clamps to [colLength = maze.length] and
    [rowLength = maze[0].length]; [None] when the frame ends in a
    [TypeError] instead ([maze[0]] or [maze[i]] is [undefined], or
    [drawUnit] reads [x] off an [undefined] cell). *)
Definition loop_targetPoint (maze : list (list loc)) (i j : Z) : option loc :=
  row0 ← maze !! 0%nat;
  let rowLength := Z.of_nat (length row0) in
  let colLength := Z.of_nat (length maze) in
  let i := if bool_decide (i > colLength - 1) then colLength - 1 else i in
  let i := if bool_decide (i < 0) then 0 else i in
  let j := if bool_decide (j > rowLength - 1) then rowLength - 1 else j in
  let j := if bool_decide (j < 0) then 0 else j in
  getMazeUnit maze i j.

(** One frame of [loop] with a pending mouse event: the calls of
    [drawUnit] it makes, each a cell with its fill style, and the store
    and instance count it leaves. [None]: [fuel] did not suffice for
    [getPath]. *)
Definition loop (fuel : nat) (instanceCount : nat) (σ : loc → MazeUnit.t)
    (maze : list (list loc)) (startPoint : loc) (i j : Z)
    : option (completion (nat * (loc → MazeUnit.t) * list (loc * string))) :=
  match loop_targetPoint maze i j with
  | None => Some TypeError
  | Some targetPoint =>
      let drawn := [(startPoint, "#0000ff"); (targetPoint, "#00ff00")] in
      if negb (MazeUnit.isBlock (σ targetPoint)) then
        r ← getPath fuel instanceCount σ maze startPoint targetPoint;
        let path := tail r.2 in
        let path := removelast path in
        Some (Normal (r.1.1, r.1.2, drawn ++ ((λ unit, (unit, "#00ff00")) <$> path)))
      else Some (Normal (instanceCount, σ, drawn))
  end.

(** ** Example links *)

(** A link from the cell (0,1) to the cell (0,0), which has none. *)
Definition links_one : gmap string loc := {[ mkId 0 1 := 0%nat ]}.

(** A link from the cell (0,0) to itself. *)
Definition links_circle : gmap string loc := {[ mkId 0 0 := 0%nat ]}.

(** * Cell ids are injective *)

Lemma app_colon_inj s1 s2 r1 r2 :
  no_colon s1 → no_colon s2 →
  s1 +:+ ":" +:+ r1 = s2 +:+ ":" +:+ r2 → s1 = s2 ∧ r1 = r2.
Proof.
  revert s2. induction s1 as [|c s1 IH]; intros [|c' s2].
  - intros _ _ [= H]. by split.
  - intros _ [Hc _] [= <- _]. done.
  - intros [Hc _] _ [= -> _]. done.
  - intros [_ H1] [_ H2] [= -> Heq]. destruct (IH s2 H1 H2 Heq) as [-> ->]. done.
Qed.

Lemma pretty_N_char_no_colon x : pretty_N_char x ≠ ":"%char.
Proof. unfold pretty_N_char. by repeat case_match. Qed.

Lemma pretty_N_go_no_colon x s : no_colon s → no_colon (pretty_N_go x s).
Proof.
  revert s. induction (N.lt_wf_0 x) as [x _ IH]; intros s Hs.
  destruct (decide (x = 0)%N) as [->|].
  - by rewrite pretty_N_go_0.
  - rewrite pretty_N_go_step by lia. apply IH.
    + apply N.div_lt; lia.
    + split; [apply pretty_N_char_no_colon|done].
Qed.

Lemma pretty_N_no_colon (x : N) : no_colon (pretty x).
Proof.
  unfold pretty, pretty_N. case_decide; [by split|].
  by apply pretty_N_go_no_colon.
Qed.

Lemma pretty_Z_no_colon (x : Z) : no_colon (pretty x).
Proof.
  destruct x as [|p|p]; unfold pretty; simpl.
  - by split.
  - apply pretty_N_no_colon.
  - split; [done|]. apply pretty_N_no_colon.
Qed.

Lemma mkId_inj a b a' b' : mkId a b = mkId a' b' → a = a' ∧ b = b'.
Proof.
  unfold mkId. intros [Ha Hb]%app_colon_inj; [|apply pretty_Z_no_colon..].
  split; by apply pretty_Z_inj.
Qed.

Lemma wm_key_inj n m : wm_key n = wm_key m → n = m.
Proof. unfold wm_key. intros [= H]. by apply pretty_nat_inj. Qed.

(** * Well-formed grids *)

Lemma zlookup_Some {A} (l : list A) ix v :
  zlookup l ix = Some v ↔ 0 ≤ ix ∧ l !! Z.to_nat ix = Some v.
Proof. unfold zlookup. case_bool_decide; naive_solver. Qed.

Lemma getMazeUnit_Some maze a b l :
  getMazeUnit maze a b = Some l ↔
  0 ≤ a ∧ 0 ≤ b ∧ ∃ row, maze !! Z.to_nat a = Some row ∧ row !! Z.to_nat b = Some l.
Proof.
  unfold getMazeUnit. split.
  - destruct (zlookup maze a) as [row|] eqn:Hrow; [|done].
    intros [? ?]%zlookup_Some. apply zlookup_Some in Hrow as [? ?]. eauto.
  - intros (? & ? & row & Hrow & Hl).
    rewrite (proj2 (zlookup_Some maze a row)) by done. by apply zlookup_Some.
Qed.

Lemma in_concat_getMazeUnit maze a b l :
  getMazeUnit maze a b = Some l → In l (concat maze).
Proof.
  intros (_ & _ & row & Hrow & Hl)%getMazeUnit_Some. apply in_concat.
  exists row. split; apply list_elem_of_In; by eapply list_elem_of_lookup_2.
Qed.

Lemma wf_spec unitSize count σ maze :
  wf unitSize count σ maze = true ↔
  0 < unitSize
  ∧ (∀ row, row ∈ maze → length row = length (hd [] maze))
  ∧ (∀ a b row l, maze !! a = Some row → row !! b = Some l →
       cell_ok unitSize count (Z.of_nat a) (Z.of_nat b) (σ l) = true).
Proof.
  unfold wf. rewrite !andb_true_iff, bool_decide_eq_true, !forallb_forall. split.
  - intros [[Hu Hr] Hc]. split_and!; [done| |].
    + intros row Hrow%list_elem_of_In. by apply (bool_decide_eq_true_1 _), Hr.
    + intros a b row l Hrow Hl.
      apply (Hc (cell_ok unitSize count (Z.of_nat a) (Z.of_nat b) (σ l))).
      apply in_concat. exists (row_ok unitSize count σ a row).
      split; apply list_elem_of_In, elem_of_lookup_imap; eauto.
  - intros (Hu & Hr & Hc). split_and!; [done| |].
    + intros row Hrow%list_elem_of_In. by apply bool_decide_eq_true_2, Hr.
    + intros x (r & Hrr & Hx)%in_concat.
      apply list_elem_of_In, elem_of_lookup_imap in Hrr as (a & row & -> & Hrow).
      apply list_elem_of_In, elem_of_lookup_imap in Hx as (b & l & -> & Hl).
      unfold id. eauto.
Qed.

Lemma cell_ok_spec unitSize count a b u :
  cell_ok unitSize count a b u = true ↔
  (MazeUnit.x u = a * unitSize ∧ MazeUnit.y u = b * unitSize
   ∧ MazeUnit.i u = a ∧ MazeUnit.j u = b ∧ MazeUnit.id u = mkId a b)
  ∧ ∀ k v, MazeUnit.props u !! k = Some v → ∃ n, (n < count)%nat ∧ k = wm_key n.
Proof.
  unfold cell_ok, fresh_props. rewrite andb_true_iff, !bool_decide_eq_true.
  apply and_iff_compat_l. unfold map_Forall. split.
  - intros H k v Hk. apply H, list_elem_of_fmap in Hk as (n & -> & Hn).
    apply elem_of_seq in Hn. exists n. split; [lia|done].
  - intros H k v Hk. destruct (H k v Hk) as (n & Hn & ->).
    apply list_elem_of_fmap. exists n. split; [done|]. apply elem_of_seq. lia.
Qed.

Section grid.
Context (unitSize : Z) (count : nat) (σ : loc → MazeUnit.t) (maze : list (list loc)).
Context (Hwf : wf unitSize count σ maze = true).

Lemma wf_ingrid p :
  Abs.ingrid (grid_of unitSize σ maze) p ↔ is_Some (getMazeUnit maze p.1 p.2).
Proof.
  apply wf_spec in Hwf as (_ & Hrect & _).
  unfold Abs.ingrid. simpl. split.
  - intros [[? Ha] [? Hb]].
    destruct (lookup_lt_is_Some_2 maze (Z.to_nat p.1)) as [row Hrow]; [lia|].
    pose proof (Hrect row (list_elem_of_lookup_2 _ _ _ Hrow)) as Hlen.
    destruct (lookup_lt_is_Some_2 row (Z.to_nat p.2)) as [l Hl]; [lia|].
    exists l. apply getMazeUnit_Some. eauto.
  - intros [l (? & ? & row & Hrow & Hl)%getMazeUnit_Some].
    pose proof (Hrect row (list_elem_of_lookup_2 _ _ _ Hrow)) as Hlen.
    apply lookup_lt_Some in Hrow, Hl. lia.
Qed.

Lemma wf_grid_ok : grid_ok (grid_of unitSize σ maze) σ maze.
Proof.
  pose proof Hwf as (Hu & Hrect & Hcell)%wf_spec.
  split.
  - done.
  - intros p. by apply wf_ingrid.
  - intros p Hp. destruct (getMazeUnit maze p.1 p.2) eqn:E; [|done].
    destruct Hp. apply wf_ingrid. eauto.
  - intros p [l Hl]%wf_ingrid. unfold loc_at. simpl. rewrite Hl. simpl.
    apply getMazeUnit_Some in Hl as (? & ? & row & Hrow & Hl').
    pose proof (Hcell _ _ _ _ Hrow Hl') as [Hc _]%cell_ok_spec.
    rewrite !Z2Nat.id in Hc by done. unfold loc_at.
    rewrite (proj2 (getMazeUnit_Some maze p.1 p.2 l)) by eauto. simpl. tauto.
Qed.

Lemma wf_fresh p n :
  Abs.ingrid (grid_of unitSize σ maze) p → (count ≤ n)%nat →
  MazeUnit.props (σ (loc_at maze p)) !! wm_key n = None.
Proof.
  intros [l Hl]%wf_ingrid Hn. unfold loc_at. rewrite Hl. simpl.
  pose proof Hwf as (_ & _ & Hcell)%wf_spec.
  apply getMazeUnit_Some in Hl as (? & ? & row & Hrow & Hl').
  pose proof (Hcell _ _ _ _ Hrow Hl') as [_ Hf]%cell_ok_spec.
  destruct (MazeUnit.props (σ l) !! wm_key n) eqn:E; [|done].
  destruct (Hf _ _ E) as (m & Hm & ->%wm_key_inj). lia.
Qed.

Lemma wf_size : Abs.size (grid_of unitSize σ maze) = cell_count maze.
Proof.
  pose proof Hwf as (_ & Hrect & _)%wf_spec.
  unfold Abs.size, cell_count. simpl. rewrite !Nat2Z.id.
  generalize (length (hd [] maze)) Hrect. clear. intros n Hrect.
  induction maze as [|row m IH]; [done|]. simpl.
  rewrite length_app, IH, (Hrect row) by set_solver. done.
Qed.

(** A store with the same declared fields, whose attached properties
    are those of [σ] and two more [MyWeakMap] instances, is well formed
    again. *)
Lemma wf_frame σ' :
  frame (wm_key count) (wm_key (S count)) σ σ' →
  wf unitSize (S (S count)) σ' maze = true.
Proof.
  intros Hfr. pose proof Hwf as (Hu & Hrect & Hcell)%wf_spec.
  apply wf_spec. split_and!; [done..|].
  intros a b row l Hrow Hl. destruct (Hfr l) as [Hfields Hprops].
  pose proof (Hcell _ _ _ _ Hrow Hl) as [Hc Hf]%cell_ok_spec.
  apply cell_ok_spec. split.
  - unfold MazeUnit.fields in Hfields. destruct Hc as (? & ? & ? & ? & ?).
    injection Hfields as ?. split_and!; congruence.
  - intros k v Hk.
    destruct (decide (k = wm_key count)) as [->|Hk1]; [exists count; split; [lia|done]|].
    destruct (decide (k = wm_key (S count))) as [->|Hk2]; [exists (S count); split; [lia|done]|].
    rewrite Hprops in Hk by done. destruct (Hf _ _ Hk) as (n & ? & ->).
    exists n. split; [lia|done].
Qed.

End grid.

Lemma grid_ok_fields G σ σ' maze :
  grid_ok G σ maze → (∀ l, MazeUnit.fields (σ' l) = MazeUnit.fields (σ l)) →
  grid_ok G σ' maze.
Proof.
  intros [Hu Hin Hout Hcell] Hf. split; [done..|].
  intros p Hp. specialize (Hf (loc_at maze p)). unfold MazeUnit.fields in Hf.
  destruct (Hcell p Hp) as (? & ? & ? & ? & ? & ?). simplify_eq. split_and!; congruence.
Qed.

Lemma loc_at_inj G σ maze p q :
  grid_ok G σ maze → Abs.ingrid G p → Abs.ingrid G q →
  loc_at maze p = loc_at maze q → p = q.
Proof.
  intros Hok Hp Hq Heq.
  destruct (ok_cell _ _ _ Hok p Hp) as (_ & _ & Hi & Hj & _).
  destruct (ok_cell _ _ _ Hok q Hq) as (_ & _ & Hi' & Hj' & _).
  rewrite Heq in Hi, Hj. destruct p, q; simpl in *. congruence.
Qed.

Lemma loc_at_Some G σ maze p l :
  grid_ok G σ maze → getMazeUnit maze p.1 p.2 = Some l →
  Abs.ingrid G p ∧ loc_at maze p = l.
Proof.
  intros Hok Hl. split; [|unfold loc_at; by rewrite Hl].
  destruct (decide (Abs.ingrid G p)) as [|Hn]; [done|].
  rewrite (ok_out _ _ _ Hok p Hn) in Hl. done.
Qed.

Lemma getMazeUnit_loc_at G σ maze p :
  grid_ok G σ maze → Abs.ingrid G p → getMazeUnit maze p.1 p.2 = Some (loc_at maze p).
Proof.
  intros Hok Hp. destruct (ok_in _ _ _ Hok p Hp) as [l Hl]. unfold loc_at. by rewrite Hl.
Qed.

(** What [generateMaze] builds is a well-formed grid, with no property
    attached to any cell yet. *)
Lemma generateMaze_wf width height unitSize rnd :
  0 < unitSize →
  wf unitSize 0 (generateMaze width height unitSize rnd).1
     (generateMaze width height unitSize rnd).2 = true.
Proof.
  intros Hu. unfold generateMaze. simpl.
  set (X := Z.to_nat (width `div` unitSize)). set (Y := Z.to_nat (height `div` unitSize)).
  apply wf_spec. split_and!; [done| |].
  - intros row (a & -> & Ha%elem_of_seq)%list_elem_of_fmap. rewrite length_fmap, length_seq.
    destruct X as [|X']; [lia|]. simpl. by rewrite length_fmap, length_seq.
  - intros a b row l Hrow Hl.
    apply list_lookup_fmap_Some in Hrow as (a' & -> & Ha).
    apply lookup_seq in Ha as [-> Ha].
    apply list_lookup_fmap_Some in Hl as (b' & -> & Hb).
    apply lookup_seq in Hb as [-> Hb]. simpl in *.
    apply cell_ok_spec. unfold generateMaze_cell.
    rewrite Nat.div_add_l, Nat.div_small, Nat.add_0_r by lia.
    rewrite Nat.add_comm, Nat.Div0.mod_add, Nat.mod_small by lia.
    simpl. split; [done|]. intros k v. by rewrite lookup_empty.
Qed.

(** * The search over coordinates: distances, neighbours, selection *)

Section abs_basics.
Import Abs.

Lemma cost_manh G a b : 0 ≤ unitSize G → cost G a b = unitSize G * manh a b.
Proof.
  intros Hu. unfold cost, manh.
  rewrite <- !Z.mul_sub_distr_r, !Z.abs_mul, (Z.abs_eq (unitSize G)) by done. lia.
Qed.

Lemma manh_triangle a b c : manh a c ≤ manh a b + manh b c.
Proof. unfold manh. lia. Qed.

Lemma manh_refl a : manh a a = 0.
Proof. unfold manh. lia. Qed.

Lemma manh_nonneg a b : 0 ≤ manh a b.
Proof. unfold manh. lia. Qed.

Lemma elem_of_candidates c n : n ∈ candidates c ↔ adjacent c n.
Proof.
  destruct c as [c1 c2], n as [n1 n2]. unfold candidates, adjacent. simpl.
  rewrite !elem_of_cons, elem_of_nil. split.
  - intros [?|[?|[?|[?|[]]]]]; simplify_eq; lia.
  - intros H.
    assert ((n1 = c1 - 1 ∧ n2 = c2) ∨ (n1 = c1 ∧ n2 = c2 - 1)
            ∨ (n1 = c1 ∧ n2 = c2 + 1) ∨ (n1 = c1 + 1 ∧ n2 = c2)) as Hc by lia.
    destruct Hc as [[-> ->]|[[-> ->]|[[-> ->]|[-> ->]]]]; auto.
Qed.

Lemma elem_of_neighbors G c n :
  n ∈ neighbors G c ↔ adjacent c n ∧ ingrid G n ∧ blocked G n = false.
Proof.
  unfold neighbors. rewrite list_elem_of_filter, elem_of_candidates. tauto.
Qed.

Lemma neighbors_manh G c n : n ∈ neighbors G c → manh c n = 1.
Proof. rewrite elem_of_neighbors. unfold adjacent, manh. tauto. Qed.

Lemma elem_of_add l p q : q ∈ add l p ↔ q ∈ l ∨ q = p.
Proof.
  unfold add. case_bool_decide.
  - split; [auto|]. intros [?| ->]; done.
  - rewrite elem_of_app, list_elem_of_singleton. done.
Qed.

Lemma NoDup_add l p : NoDup l → NoDup (add l p).
Proof.
  intros Hl. unfold add. case_bool_decide; [done|].
  apply list.NoDup_app. split_and!; [done| |apply NoDup_singleton].
  intros x Hx ->%list_elem_of_singleton. done.
Qed.

(** The choice of [select]: a member with the least score, provided every
    member has one. *)
Lemma select_fold_spec (f : gmap (Z * Z) Z) l c :
  (∀ p, p ∈ c :: l → is_Some (f !! p)) →
  let r := fold_left (λ cur u, if lt_opt (f !! u) (f !! cur) then u else cur) l c in
  r ∈ c :: l ∧ ∀ p, p ∈ c :: l → ∃ x y, f !! r = Some x ∧ f !! p = Some y ∧ x ≤ y.
Proof.
  revert c. induction l as [|u l IH]; intros c Hdef; simpl.
  - split; [set_solver|]. intros p ->%list_elem_of_singleton.
    destruct (Hdef c) as [x Hx]; [set_solver|]. eauto with lia.
  - destruct (Hdef c) as [xc Hc]; [set_solver|].
    destruct (Hdef u) as [xu Hxu]; [set_solver|].
    rewrite Hc, Hxu. simpl. case_bool_decide.
    + destruct (IH u) as [Hin Hmin]; [intros; apply Hdef; set_solver|].
      split; [set_solver|]. intros p Hp.
      destruct (Hmin u) as (x & y & Hx & Hy & Hle); [set_solver|].
      apply elem_of_cons in Hp as [->|Hp]; [|by apply Hmin].
      exists x, xc. split_and!; [done..|]. simplify_eq. lia.
    + destruct (IH c) as [Hin Hmin]; [intros; apply Hdef; set_solver|].
      split; [set_solver|]. intros p Hp.
      apply elem_of_cons in Hp as [->|Hp]; [apply Hmin; set_solver|].
      apply elem_of_cons in Hp as [->|Hp]; [|apply Hmin; set_solver].
      destruct (Hmin c) as (x & y & Hx & Hy & Hle); [set_solver|].
      exists x, xu. split_and!; [done..|]. simplify_eq. lia.
Qed.

Lemma select_spec (f : gmap (Z * Z) Z) l cur :
  (∀ p, p ∈ l → is_Some (f !! p)) →
  select f l = Some cur →
  cur ∈ l ∧ ∀ p, p ∈ l → ∃ x y, f !! cur = Some x ∧ f !! p = Some y ∧ x ≤ y.
Proof.
  intros Hdef. unfold select. destruct l as [|c l]; [done|].
  intros [= <-].
  destruct (select_fold_spec f (c :: l) c) as [Hin Hmin].
  { intros p Hp. apply Hdef. set_solver. }
  split; [set_solver|]. intros p Hp. apply Hmin. set_solver.
Qed.

Lemma select_is_Some (f : gmap (Z * Z) Z) l : l ≠ [] → is_Some (select f l).
Proof. destruct l; [done|]. intros _. unfold select. eauto. Qed.

Lemma chain_head from p l : chain from p l → head l = Some p.
Proof. by intros []. Qed.

Lemma buildPath_loop_chain from p l fuel acc :
  chain from p l → (length l ≤ fuel)%nat →
  buildPath_loop fuel from (Some p) acc = Some (acc ++ tail l).
Proof.
  intros Hc. revert fuel acc. induction Hc as [p Hp|p c l Hp Hc IH]; intros fuel acc Hfuel.
  - destruct fuel as [|fuel]; [simpl in Hfuel; lia|]. simpl. rewrite Hp.
    destruct fuel; simpl; by rewrite app_nil_r.
  - destruct fuel as [|fuel]; [simpl in Hfuel; lia|]. simpl. rewrite Hp.
    rewrite IH by (simpl in Hfuel; lia).
    apply chain_head in Hc. destruct l as [|c' l]; simplify_eq/=.
    by rewrite <- app_assoc.
Qed.

Lemma buildPath_chain from p l fuel :
  chain from p l → (length l ≤ fuel)%nat → buildPath fuel from p = Some l.
Proof.
  intros Hc Hfuel. unfold buildPath. rewrite (buildPath_loop_chain from p l) by done.
  apply chain_head in Hc. by destruct l; simplify_eq/=.
Qed.

Lemma size_bound G (l : list (Z * Z)) :
  NoDup l → (∀ p, p ∈ l → ingrid G p) → (length l ≤ size G)%nat.
Proof.
  intros Hnd Hin.
  assert (l ⊆+ cprod (seqZ 0 (cols G)) (seqZ 0 (rows G))) as Hsub.
  { apply NoDup_submseteq; [done|]. intros [a b] Hp%Hin.
    apply list_elem_of_cprod. rewrite !elem_of_seqZ. unfold ingrid in Hp. simpl in *. lia. }
  apply submseteq_length in Hsub.
  rewrite list_cprod_list_prod, List.length_prod, !length_seqZ in Hsub. done.
Qed.

End abs_basics.

(** * The search over coordinates: invariant and outcome *)

Section abs_search.
Import Abs.
Context (G : Grid) (s t : Z * Z).
Context (Hu : 0 < unitSize G) (Hs : ingrid G s).

Lemma cost_neighbor c n : n ∈ neighbors G c → cost G c n = unitSize G.
Proof. intros Hn. rewrite cost_manh, (neighbors_manh G c n) by (done || lia). lia. Qed.

Lemma inv_init : inv G s t None (init G s t).
Proof.
  split; simpl.
  - apply NoDup_singleton.
  - apply NoDup_nil_2.
  - intros p _. apply not_elem_of_nil.
  - left. apply list_elem_of_singleton. done.
  - apply lookup_singleton_eq.
  - apply lookup_empty.
  - intros p [->%list_elem_of_singleton|[]%elem_of_nil]. done.
  - intros p [x [-> _]%lookup_singleton_Some]. left. apply list_elem_of_singleton. done.
  - intros p x [-> <-]%lookup_singleton_Some. rewrite lookup_singleton_eq. done.
  - intros p [->%list_elem_of_singleton|[]%elem_of_nil]. done.
  - intros p [->%list_elem_of_singleton|[]%elem_of_nil]. exists 0%nat.
    split; [constructor|]. rewrite lookup_singleton_eq. f_equal. lia.
  - intros c k k' []%elem_of_nil.
  - intros c n []%elem_of_nil.
  - apply not_elem_of_nil.
Qed.

Lemma mul_unit_inj (a b : nat) : unitSize G * Z.of_nat a = unitSize G * Z.of_nat b → a = b.
Proof. intros H. apply Z.mul_reg_l in H; lia. Qed.

Lemma mul_unit_le (a b : nat) : unitSize G * Z.of_nat a ≤ unitSize G * Z.of_nat b → (a ≤ b)%nat.
Proof. intros H. apply Z.mul_le_mono_pos_l in H; lia. Qed.

(** Some open cell lies on every walk that ends outside the closed set,
    with a score no larger than its place on the walk. *)
Lemma frontier st q k :
  inv G s t None st → walk G s q k → q ∉ closed st →
  ∃ p i, p ∈ open st ∧ g st !! p = Some (unitSize G * Z.of_nat i)
         ∧ Z.of_nat i + manh p q ≤ Z.of_nat k.
Proof.
  intros I Hw. induction Hw as [|p' q k Hw IH Hn]; intros Hq.
  - exists s, 0%nat. destruct (inv_start _ _ _ _ _ I) as [?|?]; [|done].
    split_and!; [done| |rewrite manh_refl; lia].
    rewrite (inv_start_g _ _ _ _ _ I). f_equal. lia.
  - destruct (decide (p' ∈ closed st)) as [Hp'|Hp'].
    + destruct (inv_closure _ _ _ _ _ I p' q Hp' ltac:(done) Hn) as [Hseen (gc & gn & Hgc & Hgn & Hle)].
      destruct Hseen as [Hopen|?]; [|done].
      destruct (inv_reach _ _ _ _ _ I p' (or_intror Hp')) as (k1 & Hw1 & Hg1).
      destruct (inv_reach _ _ _ _ _ I q (or_introl Hopen)) as (kq & Hwq & Hgq).
      pose proof (inv_opt _ _ _ _ _ I p' k k1 Hp' Hw Hg1) as Hk1.
      exists q, kq. split_and!; [done..|]. rewrite manh_refl.
      simplify_eq.
      assert (unitSize G * Z.of_nat kq ≤ unitSize G * Z.of_nat (S k1)) as ?%mul_unit_le by lia.
      lia.
    + destruct (IH Hp') as (p & i & Hp & Hg & Hle).
      exists p, i. split_and!; [done..|].
      pose proof (manh_triangle p p' q). pose proof (neighbors_manh _ _ _ Hn). lia.
Qed.

Lemma open_scored st p :
  inv G s t None st → p ∈ open st →
  ∃ k, g st !! p = Some (unitSize G * Z.of_nat k)
       ∧ f st !! p = Some (unitSize G * Z.of_nat k + unitSize G * manh p t).
Proof.
  intros I Hp. destruct (inv_reach _ _ _ _ _ I p (or_introl Hp)) as (k & _ & Hg).
  exists k. split; [done|]. rewrite (inv_f _ _ _ _ _ I p _ Hg), cost_manh by lia. done.
Qed.

(** The cell [select] picks has the least cost any walk to it can have. *)
Lemma select_optimal st cur k k' :
  inv G s t None st → select (f st) (open st) = Some cur →
  walk G s cur k → g st !! cur = Some (unitSize G * Z.of_nat k') → (k' ≤ k)%nat.
Proof.
  intros I Hsel Hw Hg.
  apply select_spec in Hsel as [Hcur Hmin].
  2:{ intros p Hp. destruct (open_scored st p I Hp) as (? & _ & ->). eauto. }
  destruct (frontier st cur k I Hw) as (p & i & Hp & Hgp & Hle).
  { by apply (inv_disjoint _ _ _ _ _ I). }
  destruct (Hmin p Hp) as (x & y & Hx & Hy & Hxy).
  destruct (open_scored st p I Hp) as (kp & Hgp' & Hfp).
  destruct (open_scored st cur I Hcur) as (kc & Hgc' & Hfc).
  rewrite Hgp in Hgp'. injection Hgp' as ->%mul_unit_inj.
  rewrite Hg in Hgc'. injection Hgc' as ->%mul_unit_inj.
  rewrite Hfp in Hy. rewrite Hfc in Hx. simplify_eq.
  pose proof (manh_triangle p cur t).
  assert (unitSize G * (Z.of_nat kc + manh cur t) ≤ unitSize G * (Z.of_nat kp + manh p t)) as H1 by lia.
  apply Z.mul_le_mono_pos_l in H1; lia.
Qed.

Lemma seen_pop st cur p : cur ∈ open st → seen (pop cur st) p ↔ seen st p.
Proof.
  intros Hcur. unfold seen, pop. simpl. rewrite list_elem_of_filter, elem_of_add.
  destruct (decide (p = cur)) as [->|]; tauto.
Qed.

Lemma inv_pop st cur :
  inv G s t None st → select (f st) (open st) = Some cur → cur ≠ t →
  inv G s t (Some cur) (pop cur st).
Proof.
  intros I Hsel Hne.
  assert (cur ∈ open st) as Hcur.
  { apply select_spec in Hsel as [? _]; [done|].
    intros p Hp. destruct (open_scored st p I Hp) as (? & _ & ->). eauto. }
  pose proof (inv_disjoint _ _ _ _ _ I cur Hcur) as Hnc.
  split; simpl.
  - apply list.NoDup_filter, I.
  - apply NoDup_add, I.
  - intros p [Hp1 Hp2]%list_elem_of_filter [?| ->]%elem_of_add; [|done].
    by apply (inv_disjoint _ _ _ _ _ I p).
  - apply seen_pop; [done|]. apply I.
  - apply I.
  - apply I.
  - intros p Hp%seen_pop; [|done]. by apply I.
  - intros p Hp. apply seen_pop; [done|]. by apply I.
  - apply I.
  - intros p Hp%seen_pop Hps; [|done].
    destruct (inv_link _ _ _ _ _ I p Hp Hps) as (c & k & ? & ? & ?).
    exists c, k. rewrite elem_of_add. tauto.
  - intros p Hp%seen_pop; [|done]. by apply I.
  - intros c k k' [Hc| ->]%elem_of_add Hw Hg.
    + by apply (inv_opt _ _ _ _ _ I c).
    + by apply (select_optimal st cur).
  - intros c n [Hc| ->]%elem_of_add Hex Hn; [|done].
    destruct (inv_closure _ _ _ _ _ I c n Hc ltac:(done) Hn) as [Hseen Hg].
    split; [|done]. by apply seen_pop.
  - intros [?| ->]%elem_of_add; [|done]. by apply (inv_target _ _ _ _ _ I).
Qed.

(** A closed neighbour of the expanded cell already has a score within
    one step of it. *)
Lemma visited_closed st cur n ex :
  inv G s t ex st → cur ∈ closed st → n ∈ closed st → n ∈ neighbors G cur →
  visited G cur st n.
Proof.
  intros I Hcur Hn Hnb. split; [by right|].
  destruct (inv_reach _ _ _ _ _ I cur (or_intror Hcur)) as (kc & Hwc & Hgc).
  destruct (inv_reach _ _ _ _ _ I n (or_intror Hn)) as (kn & Hwn & Hgn).
  pose proof (inv_opt _ _ _ _ _ I n (S kc) kn Hn (walk_S _ _ _ _ _ Hwc Hnb) Hgn).
  eexists _, _. split_and!; [done..|]. nia.
Qed.

Lemma visit_inv st cur n :
  inv G s t (Some cur) st → cur ∈ closed st → n ∈ neighbors G cur →
  inv G s t (Some cur) (visit G t cur st n)
  ∧ closed (visit G t cur st n) = closed st
  ∧ visited G cur (visit G t cur st n) n
  ∧ ∀ c m, c ∈ closed st → visited G c st m → visited G c (visit G t cur st n) m.
Proof.
  intros I Hcur Hnb. unfold visit. case_bool_decide as Hnc.
  { split_and!; [done..| |done]. by eapply visited_closed. }
  destruct (inv_reach _ _ _ _ _ I cur (or_intror Hcur)) as (kc & Hwc & Hgc).
  rewrite Hgc, (cost_neighbor cur n Hnb).
  set (tent := unitSize G * Z.of_nat kc + unitSize G).
  destruct (g st !! n) as [gn|] eqn:Hgn.
  - (* the neighbour has a score: it is open already *)
    assert (n ∈ open st) as Hno.
    { destruct (inv_gdom _ _ _ _ _ I n) as [?|?]; [eauto|done..]. }
    assert (add (open st) n = open st) as Hadd.
    { unfold add. by rewrite bool_decide_eq_true_2. }
    rewrite Hadd. case_bool_decide as Hle.
    + assert ({| open := open st; closed := closed st; from := from st;
                 g := g st; f := f st |} = st) as -> by (by destruct st).
      split_and!; [done..| |done].
      split; [by left|]. eexists _, _. split_and!; [done..|]. lia.
    + (* a better score *)
      assert (n ≠ s) as Hns.
      { intros ->. rewrite (inv_start_g _ _ _ _ _ I) in Hgn. simplify_eq. lia. }
      assert (n ≠ cur) as Hncur by (by intros ->).
      split_and!; [split; simpl|done|..].
      * apply I.
      * apply I.
      * apply I.
      * apply I.
      * rewrite lookup_insert_ne by done. apply I.
      * rewrite lookup_insert_ne by done. apply I.
      * apply I.
      * intros p [x Hx]. destruct (decide (p = n)) as [->|]; [by left|].
        rewrite lookup_insert_ne in Hx by done. apply I. eauto.
      * intros p x. destruct (decide (p = n)) as [->|].
        -- rewrite !lookup_insert_eq. by intros [= <-].
        -- rewrite !lookup_insert_ne by done. apply I.
      * intros p Hp Hps. destruct (decide (p = n)) as [->|].
        -- exists cur, kc. rewrite !lookup_insert_eq, lookup_insert_ne by done.
           split_and!; [done..|]. f_equal. unfold tent. lia.
        -- destruct (inv_link _ _ _ _ _ I p Hp Hps) as (c & k & ? & Hc & ? & ? & ?).
           exists c, k. rewrite !lookup_insert_ne by (done || by intros ->). done.
      * intros p Hp. destruct (decide (p = n)) as [->|].
        -- exists (S kc). split; [by eapply walk_S|].
           rewrite lookup_insert_eq. f_equal. unfold tent. lia.
        -- rewrite lookup_insert_ne by done. by apply I.
      * intros c k k' Hc. rewrite lookup_insert_ne by (by intros ->).
        by apply (inv_opt _ _ _ _ _ I).
      * intros c m Hc Hex Hm.
        destruct (inv_closure _ _ _ _ _ I c m Hc Hex Hm) as [Hseen (gc & gm & Hgc' & Hgm & Hlem)].
        split; [done|]. simpl. rewrite (lookup_insert_ne _ n c) by (by intros ->).
        destruct (decide (m = n)) as [->|].
        -- rewrite lookup_insert_eq. eexists _, _. split_and!; [done..|].
           simplify_eq. lia.
        -- rewrite lookup_insert_ne by done. eexists _, _. split_and!; done.
      * exact (inv_target _ _ _ _ _ I).
      * split; [by left|]. simpl. rewrite lookup_insert_eq, lookup_insert_ne by done.
        eexists _, _. split_and!; [done..|]. unfold tent. lia.
      * intros c m Hc [Hseen (gc & gm & Hgc' & Hgm & Hlem)].
        split; [done|]. simpl. rewrite (lookup_insert_ne _ n c) by (by intros ->).
        destruct (decide (m = n)) as [->|].
        -- rewrite lookup_insert_eq. eexists _, _. split_and!; [done..|].
           simplify_eq. lia.
        -- rewrite lookup_insert_ne by done. eexists _, _. split_and!; done.
  - (* a new cell *)
    assert (¬ seen st n) as Hnew.
    { intros Hseen. destruct (inv_reach _ _ _ _ _ I n Hseen) as (? & _ & ?). congruence. }
    assert (n ≠ s) as Hns.
    { intros ->. apply Hnew, I. }
    assert (n ≠ cur) as Hncur by (by intros ->).
    assert (∀ p, p ∈ add (open st) n ∨ p ∈ closed st ↔ seen st p ∨ p = n) as Hseen'.
    { intros p. unfold seen. rewrite elem_of_add. tauto. }
    split_and!; [split; simpl|done|..].
    + apply NoDup_add, I.
    + apply I.
    + intros p [Hp| ->]%elem_of_add; [by apply I|done].
    + apply Hseen'. left. apply I.
    + rewrite lookup_insert_ne by done. apply I.
    + rewrite lookup_insert_ne by done. apply I.
    + intros p [Hp| ->]%Hseen'; [by apply I|].
      by apply elem_of_neighbors in Hnb as (_ & ? & _).
    + intros p [x Hx]. apply Hseen'. destruct (decide (p = n)) as [->|]; [by right|].
      rewrite lookup_insert_ne in Hx by done. left. apply I. eauto.
    + intros p x. destruct (decide (p = n)) as [->|].
      * rewrite !lookup_insert_eq. by intros [= <-].
      * rewrite !lookup_insert_ne by done. apply I.
    + intros p [Hp| ->]%Hseen' Hps.
      * assert (p ≠ n) by (by intros ->).
        destruct (inv_link _ _ _ _ _ I p Hp Hps) as (c & k & ? & Hc & ? & ? & ?).
        exists c, k. rewrite !lookup_insert_ne by (done || by intros ->). done.
      * exists cur, kc. rewrite !lookup_insert_eq, lookup_insert_ne by done.
        split_and!; [done..|]. f_equal. unfold tent. lia.
    + intros p [Hp| ->]%Hseen'.
      * assert (p ≠ n) by (by intros ->).
        rewrite lookup_insert_ne by done. by apply I.
      * exists (S kc). split; [by eapply walk_S|].
        rewrite lookup_insert_eq. f_equal. unfold tent. lia.
    + intros c k k' Hc. rewrite lookup_insert_ne by (by intros ->).
      by apply (inv_opt _ _ _ _ _ I).
    + intros c m Hc Hex Hm.
      destruct (inv_closure _ _ _ _ _ I c m Hc Hex Hm) as [Hseen (gc & gm & Hgc' & Hgm & Hlem)].
      assert (m ≠ n) by (by intros ->).
      split; [apply Hseen'; by left|]. simpl.
      rewrite !lookup_insert_ne by (done || by intros ->). eexists _, _. split_and!; done.
    + exact (inv_target _ _ _ _ _ I).
    + split; [apply Hseen'; by right|]. simpl.
      rewrite lookup_insert_eq, lookup_insert_ne by done.
      eexists _, _. split_and!; [done..|]. unfold tent. lia.
    + intros c m Hc [Hseen (gc & gm & Hgc' & Hgm & Hlem)].
      assert (m ≠ n) by (by intros ->).
      split; [apply Hseen'; by left|]. simpl.
      rewrite !lookup_insert_ne by (done || by intros ->). eexists _, _. split_and!; done.
Qed.

Lemma visit_all_inv ns st cur :
  inv G s t (Some cur) st → cur ∈ closed st → (∀ n, n ∈ ns → n ∈ neighbors G cur) →
  inv G s t (Some cur) (foldl (visit G t cur) st ns)
  ∧ closed (foldl (visit G t cur) st ns) = closed st
  ∧ ∀ m, m ∈ ns ∨ visited G cur st m → visited G cur (foldl (visit G t cur) st ns) m.
Proof.
  revert st. induction ns as [|n ns IH]; intros st I Hcur Hns; simpl.
  { split_and!; [done..|]. intros m [[]%elem_of_nil|?]. done. }
  destruct (visit_inv st cur n I Hcur) as (I' & Hcl & Hv & Hmono).
  { apply Hns. left. }
  destruct (IH (visit G t cur st n)) as (I'' & Hcl'' & Hv'').
  { done. }
  { by rewrite Hcl. }
  { intros m Hm. apply Hns. by right. }
  split_and!; [done|congruence|].
  intros m [[->|Hm]%elem_of_cons|Hm]; apply Hv''; auto.
Qed.

(** One iteration of the main loop that does not end the search. *)
Lemma inv_step st cur :
  inv G s t None st → select (f st) (open st) = Some cur → cur ≠ t →
  inv G s t None (foldl (visit G t cur) (pop cur st) (neighbors G cur))
  ∧ closed (foldl (visit G t cur) (pop cur st) (neighbors G cur)) = closed st ++ [cur].
Proof.
  intros I Hsel Hne.
  pose proof (inv_pop st cur I Hsel Hne) as I1.
  assert (cur ∈ open st) as Hcur.
  { apply select_spec in Hsel as [? _]; [done|].
    intros p Hp. destruct (open_scored st p I Hp) as (? & _ & ->). eauto. }
  assert (closed (pop cur st) = closed st ++ [cur]) as Hcl.
  { simpl. unfold add. rewrite bool_decide_eq_false_2; [done|].
    by apply (inv_disjoint _ _ _ _ _ I). }
  destruct (visit_all_inv (neighbors G cur) (pop cur st) cur I1) as (I2 & Hcl2 & Hv).
  { rewrite Hcl. set_solver. }
  { done. }
  split; [|congruence].
  destruct I2. split; try done.
  intros c n Hc _ Hn. destruct (decide (c = cur)) as [->|Hc'].
  - apply Hv. by left.
  - apply inv_closure0; [done| |done]. by intros [= ->].
Qed.

(** Following the links from a seen cell leads back to the start, one
    step of cost at a time. *)
Lemma inv_chain ex st k : ∀ p,
  inv G s t ex st → seen st p → g st !! p = Some (unitSize G * Z.of_nat k) →
  ∃ l, chain (from st) p l ∧ back G s p l ∧ length l = S k
       ∧ ∀ q, q ∈ l → seen st q ∧ ∃ j, g st !! q = Some (unitSize G * Z.of_nat j) ∧ (j ≤ k)%nat.
Proof.
  induction k as [|k IH]; intros p I Hp Hg.
  - destruct (decide (p = s)) as [->|Hps].
    + exists [s]. split_and!; [constructor; apply I|constructor|done|].
      intros q ->%list_elem_of_singleton. split; [done|]. by exists 0%nat.
    + destruct (inv_link _ _ _ _ _ I p Hp Hps) as (c & k' & _ & _ & _ & _ & Hg').
      rewrite Hg in Hg'. injection Hg' as Hg'%mul_unit_inj. done.
  - destruct (decide (p = s)) as [->|Hps].
    + rewrite (inv_start_g _ _ _ _ _ I) in Hg. injection Hg as Hg. nia.
    + destruct (inv_link _ _ _ _ _ I p Hp Hps) as (c & k' & Hf & Hc & Hn & Hgc & Hg').
      rewrite Hg in Hg'. injection Hg' as Hg'%mul_unit_inj. injection Hg' as <-.
      destruct (IH c I (or_intror Hc) Hgc) as (l & Hch & Hb & Hlen & Hl).
      exists (p :: l). split_and!.
      * by econstructor.
      * by econstructor.
      * simpl. by rewrite Hlen.
      * intros q [->|Hq]%elem_of_cons.
        -- split; [done|]. by exists (S k).
        -- destruct (Hl q Hq) as (? & j & ? & ?). split; [done|]. exists j. split; [done|lia].
Qed.

Lemma inv_chain_NoDup ex st k p l :
  inv G s t ex st → seen st p → g st !! p = Some (unitSize G * Z.of_nat k) →
  chain (from st) p l → NoDup l ∧ ∀ q, q ∈ l → ingrid G q.
Proof.
  intros I. revert p l. induction k as [|k IH]; intros p l Hp Hg Hch.
  - destruct (decide (p = s)) as [->|Hps].
    + inversion Hch as [? Hn|? c l' Hf]; simplify_eq.
      * split; [apply NoDup_singleton|]. intros q ->%list_elem_of_singleton. done.
      * rewrite (inv_start_from _ _ _ _ _ I) in Hf. done.
    + destruct (inv_link _ _ _ _ _ I p Hp Hps) as (c & k' & _ & _ & _ & _ & Hg').
      rewrite Hg in Hg'. injection Hg' as Hg'%mul_unit_inj. done.
  - destruct (decide (p = s)) as [->|Hps].
    + rewrite (inv_start_g _ _ _ _ _ I) in Hg. injection Hg as Hg. nia.
    + destruct (inv_link _ _ _ _ _ I p Hp Hps) as (c & k' & Hf & Hc & Hn & Hgc & Hg').
      rewrite Hg in Hg'. injection Hg' as Hg'%mul_unit_inj. injection Hg' as <-.
      inversion Hch as [? Hnone|? c' l' Hf' Hch']; simplify_eq.
      destruct (IH c l' (or_intror Hc) Hgc Hch') as [Hnd Hin].
      destruct (inv_chain ex st k c I (or_intror Hc) Hgc) as (l2 & Hch2 & _ & _ & Hl2).
      assert (l2 = l') as ->.
      { clear -Hch2 Hch'. revert l' Hch'. induction Hch2; intros l' Hch'; inversion Hch'; simplify_eq; [done|].
        f_equal. eauto. }
      split.
      * apply list.NoDup_cons. split; [|done]. intros Hq.
        destruct (Hl2 p Hq) as (_ & j & Hj & Hle).
        rewrite Hg in Hj. injection Hj as Hj%mul_unit_inj. lia.
      * intros q [->|Hq]%elem_of_cons; [|by apply Hin]. by apply (inv_ingrid _ _ _ _ _ I).
Qed.

(** With no open cell left, every cell a walk reaches is closed. *)
Lemma closed_all st p k :
  inv G s t None st → open st = [] → walk G s p k → p ∈ closed st.
Proof.
  intros I Ho Hw. induction Hw as [|p q k Hw IH Hn].
  - destruct (inv_start _ _ _ _ _ I) as [H|H]; [|done]. rewrite Ho in H. by apply elem_of_nil in H.
  - destruct (inv_closure _ _ _ _ _ I p q IH ltac:(done) Hn) as [[H|H] _]; [|done].
    rewrite Ho in H. by apply elem_of_nil in H.
Qed.

Lemma search_spec fuel bfuel : ∀ st,
  inv G s t None st →
  (size G - length (closed st) ≤ fuel)%nat → (size G ≤ bfuel)%nat →
  ∃ r, search fuel bfuel G t st = Some r ∧ outcome G s t r.
Proof.
  induction fuel as [|fuel IH]; intros st I Hfuel Hb.
  - destruct (decide (open st = [])) as [Ho|Ho].
    + exists []. simpl. rewrite bool_decide_eq_false_2 by naive_solver.
      split; [done|]. left. split; [done|]. intros k Hw.
      by apply (inv_target _ _ _ _ _ I), (closed_all st t k).
    + exfalso.
      assert (length (open st ++ closed st) ≤ size G)%nat as Hle.
      { apply size_bound.
        - apply list.NoDup_app. split_and!; apply I.
        - intros p Hp%elem_of_app. by apply (inv_ingrid _ _ _ _ _ I). }
      rewrite length_app in Hle. destruct (open st); [done|]. simpl in Hle. lia.
  - destruct (decide (open st = [])) as [Ho|Ho].
    + exists []. simpl. rewrite bool_decide_eq_false_2 by naive_solver.
      split; [done|]. left. split; [done|]. intros k Hw.
      by apply (inv_target _ _ _ _ _ I), (closed_all st t k).
    + simpl. rewrite bool_decide_eq_true_2 by done.
      destruct (select_is_Some (f st) (open st) Ho) as [cur Hsel]. rewrite Hsel. simpl.
      assert (cur ∈ open st) as Hcur.
      { apply select_spec in Hsel as [? _]; [done|].
        intros p Hp. destruct (open_scored st p I Hp) as (? & _ & ->). eauto. }
      case_bool_decide as Ht.
      * subst cur.
        destruct (inv_reach _ _ _ _ _ I t (or_introl Hcur)) as (k & Hw & Hg).
        destruct (inv_chain None st k t I (or_introl Hcur) Hg) as (l & Hch & Hback & Hlen & _).
        destruct (inv_chain_NoDup None st k t l I (or_introl Hcur) Hg Hch) as [Hnd Hin].
        exists l. split.
        -- apply buildPath_chain; [done|]. pose proof (size_bound G l Hnd Hin). lia.
        -- right. exists k. split_and!; [done..|]. intros k' Hw'.
           by apply (select_optimal st t k' k).
      * destruct (inv_step st cur I Hsel Ht) as [I' Hcl].
        apply IH; [done| |done]. rewrite Hcl, length_app. simpl.
        assert (length (open st ++ closed st) ≤ size G)%nat as Hle.
        { apply size_bound.
          - apply list.NoDup_app. split_and!; apply I.
          - intros p Hp%elem_of_app. by apply (inv_ingrid _ _ _ _ _ I). }
        rewrite length_app in Hle. destruct (open st); [done|]. simpl in Hle. lia.
Qed.

Theorem abs_getPath_spec fuel :
  (size G ≤ fuel)%nat → ∃ r, getPath fuel G s t = Some r ∧ outcome G s t r.
Proof.
  intros Hfuel. apply search_spec; [by apply inv_init| |done]. simpl. lia.
Qed.

End abs_search.

(** * Walks and ways back on the grid *)

Section walks.
Import Abs.
Context (G : Grid) (s : Z * Z).

Lemma back_head p l : back G s p l → head l = Some p.
Proof. by intros []. Qed.

Lemma back_last p l : back G s p l → list.last l = Some s.
Proof.
  induction 1 as [|p c l Hn Hb IH]; [done|].
  destruct l; [by inversion Hb|]. done.
Qed.

Lemma back_ingrid p l : ingrid G s → back G s p l → ∀ q, q ∈ l → ingrid G q.
Proof.
  intros Hs. induction 1 as [|p c l Hn Hb IH]; intros q.
  - by intros ->%list_elem_of_singleton.
  - intros [->|Hq]%elem_of_cons; [|by apply IH].
    by apply elem_of_neighbors in Hn as (_ & ? & _).
Qed.

(** Each cell of a way back is an unblocked neighbour of the next one. *)
Lemma back_lookup p l k a b :
  back G s p l → l !! k = Some a → l !! S k = Some b → a ∈ neighbors G b.
Proof.
  intros Hb. revert k. induction Hb as [|p c l Hn Hb IH]; intros k Ha Hb'.
  - by destruct k.
  - destruct k as [|k]; simpl in *.
    + apply back_head in Hb. destruct l; simplify_eq/=. done.
    + by eapply IH.
Qed.

Lemma walk_manh_le p k : walk G s p k → manh s p ≤ Z.of_nat k.
Proof.
  induction 1 as [|p q k Hw IH Hn].
  - rewrite manh_refl. lia.
  - pose proof (manh_triangle s p q). pose proof (neighbors_manh _ _ _ Hn). lia.
Qed.

(** On a grid without blocked cells a walk as short as the Manhattan
    distance leads anywhere. *)
Lemma straight_walk n : ∀ t,
  (∀ p, ingrid G p → blocked G p = false) → ingrid G s → ingrid G t →
  manh s t = Z.of_nat n → walk G s t n.
Proof.
  induction n as [|n IH]; intros [t1 t2] Hfree Hs Ht Hm.
  - assert ((t1, t2) = s) as ->; [|constructor].
    destruct s. unfold manh in Hm. simpl in *. f_equal; lia.
  - destruct s as [s1 s2] eqn:Es. unfold manh, ingrid in *. simpl in *.
    assert (∃ q : Z * Z, (0 ≤ q.1 < cols G ∧ 0 ≤ q.2 < rows G)
              ∧ Z.abs (s1 - q.1) + Z.abs (s2 - q.2) = Z.of_nat n
              ∧ Z.abs (q.1 - t1) + Z.abs (q.2 - t2) = 1) as (q & Hq & Hmq & Hadj).
    { destruct (decide (t1 < s1)); [exists (t1 + 1, t2); simpl; lia|].
      destruct (decide (s1 < t1)); [exists (t1 - 1, t2); simpl; lia|].
      destruct (decide (t2 < s2)); [exists (t1, t2 + 1); simpl; lia|].
      exists (t1, t2 - 1); simpl; lia. }
    apply (walk_S _ _ q); [by apply IH|].
    apply elem_of_neighbors. split_and!; [done|done|]. by apply Hfree.
Qed.

End walks.

(** * The [MySet]/[MyWeakMap] search follows the search over coordinates *)

Lemma add_cons_ne (l : list (Z * Z)) p n : n ≠ p → Abs.add (p :: l) n = p :: Abs.add l n.
Proof.
  intros Hne. unfold Abs.add. rewrite (bool_decide_ext (n ∈ p :: l) (n ∈ l)).
  - by case_bool_decide.
  - rewrite elem_of_cons. naive_solver.
Qed.

Lemma add_cons_eq (l : list (Z * Z)) p : Abs.add (p :: l) p = p :: l.
Proof. unfold Abs.add. rewrite bool_decide_eq_true_2; [done|]. left. Qed.

Lemma length_add (l : list (Z * Z)) n :
  length (Abs.add l n) = if bool_decide (n ∈ l) then length l else S (length l).
Proof. unfold Abs.add. case_bool_decide; [done|]. rewrite length_app. simpl. lia. Qed.

Lemma length_filter_ne (l : list (Z * Z)) n :
  NoDup l → n ∈ l → S (length (filter (λ p, p ≠ n) l)) = length l.
Proof.
  induction 1 as [|p l Hp Hl IH]; [by intros ?%elem_of_nil|].
  intros [->|Hn]%elem_of_cons.
  - rewrite filter_cons_False by naive_solver. simpl. f_equal.
    f_equal. clear IH Hl. induction l as [|q l IH]; [done|].
    rewrite filter_cons_True by set_solver. f_equal. apply IH. set_solver.
  - rewrite filter_cons_True by (by intros ->). simpl. f_equal. by apply IH.
Qed.

Section enc.
Context (maze : list (list loc)).

Lemma mkId_ne (p q : Z * Z) : p ≠ q → mkId p.1 p.2 ≠ mkId q.1 q.2.
Proof. intros Hne [? ?]%mkId_inj. destruct p, q; simpl in *. congruence. Qed.

Lemma obj_get_cons {A} k k' (v : A) o :
  obj_get k ((k', v) :: o) = if decide (k = k') then Some v else obj_get k o.
Proof. done. Qed.

Lemma obj_set_cons {A} k k' (v v' : A) o :
  obj_set k v ((k', v') :: o)
  = if decide (k = k') then (k, v) :: o else (k', v') :: obj_set k v o.
Proof. done. Qed.

Lemma obj_get_enc l (n : Z * Z) :
  obj_get (mkId n.1 n.2) (enc maze <$> l)
  = if bool_decide (n ∈ l) then Some (loc_at maze n) else None.
Proof.
  induction l as [|p l IH]; [done|]. rewrite fmap_cons. unfold enc at 1.
  rewrite obj_get_cons. destruct (decide (n = p)) as [->|Hne].
  - rewrite decide_True by done. rewrite bool_decide_eq_true_2; [done|]. left.
  - rewrite decide_False by (by apply mkId_ne). rewrite IH.
    apply (f_equal (λ b : bool, if b then _ else _)).
    apply bool_decide_ext. rewrite elem_of_cons. naive_solver.
Qed.

Lemma obj_set_enc l (n : Z * Z) :
  obj_set (mkId n.1 n.2) (loc_at maze n) (enc maze <$> l) = enc maze <$> Abs.add l n.
Proof.
  induction l as [|p l IH]; [done|]. rewrite fmap_cons. unfold enc at 1.
  rewrite obj_set_cons. destruct (decide (n = p)) as [->|Hne].
  - rewrite decide_True by done. by rewrite add_cons_eq.
  - rewrite decide_False by (by apply mkId_ne). by rewrite IH, add_cons_ne.
Qed.

Lemma obj_delete_enc l (n : Z * Z) :
  obj_delete (mkId n.1 n.2) (enc maze <$> l) = enc maze <$> filter (λ p, p ≠ n) l.
Proof.
  unfold obj_delete. induction l as [|p l IH]; [done|]. rewrite fmap_cons.
  destruct (decide (p = n)) as [->|Hne].
  - rewrite !filter_cons_False by naive_solver. done.
  - rewrite !filter_cons_True; [|done|by apply mkId_ne]. by rewrite fmap_cons, IH.
Qed.

Lemma values_enc l :
  omap (λ k, obj_get k (enc maze <$> l)) (obj_keys (enc maze <$> l)) = loc_at maze <$> l.
Proof.
  unfold obj_keys. rewrite <- list_fmap_compose.
  assert (∀ l' : list (Z * Z), (∀ p, p ∈ l' → p ∈ l) →
    omap (λ k, obj_get k (enc maze <$> l)) ((fst ∘ enc maze) <$> l') = loc_at maze <$> l') as H.
  { induction l' as [|p l' IH]; intros Hsub; [done|]. simpl.
    rewrite obj_get_enc, bool_decide_eq_true_2 by set_solver. simpl.
    f_equal. apply IH. set_solver. }
  by apply H.
Qed.

End enc.

Section sim.
Context (G : Abs.Grid) (maze : list (list loc)).

Lemma cost_sim σ p q :
  grid_ok G σ maze → Abs.ingrid G p → Abs.ingrid G q →
  cost σ (loc_at maze p) (loc_at maze q) = Abs.cost G p q.
Proof.
  intros Hok Hp Hq. unfold cost, Abs.cost.
  destruct (ok_cell _ _ _ Hok p Hp) as (-> & -> & _).
  destruct (ok_cell _ _ _ Hok q Hq) as (-> & -> & _). done.
Qed.

Lemma getId_sim σ p :
  grid_ok G σ maze → Abs.ingrid G p → getId σ (loc_at maze p) = mkId p.1 p.2.
Proof. intros Hok Hp. unfold getId. apply (ok_cell _ _ _ Hok p Hp). Qed.

Lemma MySet_has_sim σ s l p :
  grid_ok G σ maze → Abs.ingrid G p → record s = enc maze <$> l →
  MySet_has σ s (loc_at maze p) = bool_decide (p ∈ l).
Proof.
  intros Hok Hp Hs. unfold MySet_has, MySet_get.
  rewrite (getId_sim σ p), Hs, obj_get_enc by done.
  case_bool_decide; by case_bool_decide.
Qed.

Lemma MySet_add_sim σ s l p :
  grid_ok G σ maze → Abs.ingrid G p → record s = enc maze <$> l →
  size s = Z.of_nat (length l) →
  record (MySet_add σ s (loc_at maze p)) = enc maze <$> Abs.add l p
  ∧ size (MySet_add σ s (loc_at maze p)) = Z.of_nat (length (Abs.add l p)).
Proof.
  intros Hok Hp Hs Hsz. unfold MySet_add. simpl.
  rewrite (MySet_has_sim σ s l p), (getId_sim σ p), Hs, obj_set_enc, length_add by done.
  split; [done|]. case_bool_decide; lia.
Qed.

Lemma MySet_delete_sim σ s l p :
  grid_ok G σ maze → Abs.ingrid G p → record s = enc maze <$> l →
  size s = Z.of_nat (length l) → NoDup l → p ∈ l →
  record (MySet_delete σ s (loc_at maze p)) = enc maze <$> filter (λ q, q ≠ p) l
  ∧ size (MySet_delete σ s (loc_at maze p)) = Z.of_nat (length (filter (λ q, q ≠ p) l)).
Proof.
  intros Hok Hp Hs Hsz Hnd Hin. unfold MySet_delete. simpl.
  rewrite (MySet_has_sim σ s l p), (getId_sim σ p), Hs, obj_delete_enc by done.
  split; [done|]. rewrite bool_decide_eq_true_2 by done.
  pose proof (length_filter_ne l p Hnd Hin). lia.
Qed.

Lemma mapGet_sim (m : MyWeakMap) (σ : loc → MazeUnit.t) (gm : gmap (Z * Z) Z) (p : Z * Z) :
  MyWeakMap_get m σ (loc_at maze p) = Fin <$> gm !! p →
  mapGet m σ (loc_at maze p) = match gm !! p with Some z => Fin z | None => Infinity end.
Proof.
  intros H. unfold mapGet, MyWeakMap_has. rewrite H.
  destruct (gm !! p); done.
Qed.

Lemma scoped_pop a cur :
  Abs.scoped G a → Abs.ingrid G cur → Abs.scoped G (Abs.pop cur a).
Proof.
  intros [Hnd Ho Hc Hf] Hcur. split; simpl.
  - by apply list.NoDup_filter.
  - intros p [_ Hp]%list_elem_of_filter. by apply Ho.
  - intros p [Hp| ->]%elem_of_add; [by apply Hc|done].
  - done.
Qed.

Lemma scoped_visit a t cur n :
  Abs.scoped G a → Abs.ingrid G cur → Abs.ingrid G n →
  Abs.scoped G (Abs.visit G t cur a n).
Proof.
  intros [Hnd Ho Hc Hf] Hcur Hn.
  assert (Abs.scoped G {| Abs.open := Abs.add (Abs.open a) n; Abs.closed := Abs.closed a;
            Abs.from := Abs.from a; Abs.g := Abs.g a; Abs.f := Abs.f a |}) as Hskip.
  { split; simpl; [by apply NoDup_add| |done..].
    intros p [Hp| ->]%elem_of_add; [by apply Ho|done]. }
  unfold Abs.visit. case_bool_decide; [done|].
  destruct (Abs.g a !! cur); [|done]. case_match; [done|].
  split; simpl; [by apply NoDup_add| |done|].
  - intros p [Hp| ->]%elem_of_add; [by apply Ho|done].
  - intros p q [[-> <-]|[_ Hq]]%lookup_insert_Some; [done|]. by eapply Hf.
Qed.

Lemma scoped_visit_all a t cur ns :
  Abs.scoped G a → Abs.ingrid G cur → (∀ n, n ∈ ns → Abs.ingrid G n) →
  Abs.scoped G (foldl (Abs.visit G t cur) a ns).
Proof.
  revert a. induction ns as [|n ns IH]; intros a Ha Hcur Hns; [done|]. simpl.
  apply IH; [|done|set_solver]. apply scoped_visit; [done..|]. apply Hns. left.
Qed.

Lemma fields_set m l v σ l' :
  MazeUnit.fields (MyWeakMap_set m l v σ l') = MazeUnit.fields (σ l').
Proof.
  unfold MyWeakMap_set. destruct (decide (l = l')) as [->|].
  - by rewrite fn_lookup_insert.
  - by rewrite fn_lookup_insert_ne.
Qed.

Lemma get_set_eq m l v σ : MyWeakMap_get m (MyWeakMap_set m l v σ) l = Some v.
Proof.
  unfold MyWeakMap_get, MyWeakMap_set. rewrite fn_lookup_insert. simpl.
  apply lookup_insert_eq.
Qed.

Lemma get_set_ne_loc m m' l l' v σ :
  l ≠ l' → MyWeakMap_get m' (MyWeakMap_set m l v σ) l' = MyWeakMap_get m' σ l'.
Proof. intros. unfold MyWeakMap_get, MyWeakMap_set. by rewrite fn_lookup_insert_ne. Qed.

Lemma get_set_ne_key m m' l l' v σ :
  wm_id m ≠ wm_id m' →
  MyWeakMap_get m' (MyWeakMap_set m l v σ) l' = MyWeakMap_get m' σ l'.
Proof.
  intros. unfold MyWeakMap_get, MyWeakMap_set. destruct (decide (l = l')) as [->|].
  - rewrite fn_lookup_insert. simpl. by rewrite lookup_insert_ne.
  - by rewrite fn_lookup_insert_ne.
Qed.

Lemma frame_refl gk fk σ : frame gk fk σ σ.
Proof. by intros l. Qed.

Lemma frame_set gk fk σ0 σ m l v :
  frame gk fk σ0 σ → wm_id m = gk ∨ wm_id m = fk →
  frame gk fk σ0 (MyWeakMap_set m l v σ).
Proof.
  intros Hfr Hm l'. destruct (Hfr l') as [Hf Hp]. rewrite fields_set. split; [done|].
  intros k Hg Hk. rewrite <- Hp by done. unfold MyWeakMap_set.
  destruct (decide (l = l')) as [->|]; [|by rewrite fn_lookup_insert_ne].
  rewrite fn_lookup_insert. simpl. apply lookup_insert_ne. naive_solver.
Qed.

Lemma grid_ok_set m l v σ : grid_ok G σ maze → grid_ok G (MyWeakMap_set m l v σ) maze.
Proof. intros Hok. eapply grid_ok_fields; [done|]. intros l'. apply fields_set. Qed.

Lemma select_elem_of (f : gmap (Z * Z) Z) l cur : Abs.select f l = Some cur → cur ∈ l.
Proof.
  unfold Abs.select. destruct l as [|c l]; [done|]. intros [= <-].
  assert (∀ l' c', c' ∈ c :: l → (∀ p, p ∈ l' → p ∈ c :: l) →
    fold_left (λ cur u, if Abs.lt_opt (f !! u) (f !! cur) then u else cur) l' c' ∈ c :: l) as H.
  { induction l' as [|u l' IH]; intros c' Hc' Hl'; [done|]. simpl.
    apply IH; [|set_solver]. case_match; [|done]. apply Hl'. left. }
  apply (H (c :: l) c); [left|done].
Qed.

Lemma lt_undef_Fin (a b : option Z) : lt_undef (Fin <$> a) (Fin <$> b) = Abs.lt_opt a b.
Proof. by destruct a, b. Qed.

Lemma select_sim (fS : MyWeakMap) (σ : loc → MazeUnit.t) (fm : gmap (Z * Z) Z) (l : list (Z * Z)) :
  (∀ p, p ∈ l → MyWeakMap_get fS σ (loc_at maze p) = Fin <$> fm !! p) →
  select fS σ (loc_at maze <$> l) = loc_at maze <$> Abs.select fm l.
Proof.
  intros Hf. destruct l as [|c l]; [done|]. unfold select, Abs.select.
  rewrite fmap_cons. simpl. f_equal.
  assert (∀ (l' : list (Z * Z)) c', c' ∈ c :: l → (∀ p, p ∈ l' → p ∈ c :: l) →
    fold_left (λ current u,
      if lt_undef (MyWeakMap_get fS σ u) (MyWeakMap_get fS σ current) then u else current)
      (loc_at maze <$> l') (loc_at maze c')
    = loc_at maze (fold_left (λ cur u, if Abs.lt_opt (fm !! u) (fm !! cur) then u else cur) l' c')) as H.
  { induction l' as [|u l' IH]; intros c' Hc' Hl'; [done|]. rewrite fmap_cons. simpl.
    rewrite !Hf, lt_undef_Fin by set_solver.
    case_match; apply IH; set_solver. }
  apply (H (c :: l) c); [left|done].
Qed.

Lemma omap_cons {A B} (f : A → option B) x l :
  omap f (x :: l) = match f x with Some y => y :: omap f l | None => omap f l end.
Proof. done. Qed.

Lemma neighbors_sim σ cur :
  grid_ok G σ maze → Abs.ingrid G cur →
  neighbors σ maze (MazeUnit.i (σ (loc_at maze cur))) (MazeUnit.j (σ (loc_at maze cur)))
  = loc_at maze <$> Abs.neighbors G cur.
Proof.
  intros Hok Hcur. destruct (ok_cell _ _ _ Hok cur Hcur) as (_ & _ & -> & -> & _).
  unfold neighbors, Abs.neighbors. fold (Abs.candidates cur).
  induction (Abs.candidates cur) as [|p ps IH]; [done|]. rewrite omap_cons.
  destruct (decide (Abs.ingrid G p)) as [Hp|Hp].
  - rewrite (getMazeUnit_loc_at G σ maze p) by done.
    destruct (ok_cell _ _ _ Hok p Hp) as (_ & _ & _ & _ & _ & Hb).
    destruct (Abs.blocked G p) eqn:E.
    + rewrite !filter_cons_False by (rewrite ?Hb, ?E; naive_solver). done.
    + rewrite !filter_cons_True by (rewrite ?Hb, ?E; naive_solver). by rewrite fmap_cons, IH.
  - rewrite (ok_out _ _ _ Hok p Hp). rewrite filter_cons_False by naive_solver. done.
Qed.

Lemma buildPath_loop_sim (fuel : nat) (σ : loc → MazeUnit.t) (from : gmap string loc)
    (afrom : gmap (Z * Z) (Z * Z)) :
  grid_ok G σ maze →
  (∀ p : Z * Z, from !! mkId p.1 p.2 = loc_at maze <$> afrom !! p) →
  (∀ p q, afrom !! p = Some q → Abs.ingrid G q) →
  ∀ (u : option (Z * Z)) (acc : list (Z * Z)), (∀ p, u = Some p → Abs.ingrid G p) →
  buildPath_loop fuel σ from (loc_at maze <$> u) (loc_at maze <$> acc)
  = fmap (M:=list) (loc_at maze) <$> Abs.buildPath_loop fuel afrom u acc.
Proof.
  intros Hok Hfrom Hin. induction fuel as [|fuel IH]; intros [p|] acc Hu; try done.
  simpl. destruct (ok_cell _ _ _ Hok p (Hu p eq_refl)) as (_ & _ & _ & _ & -> & _).
  rewrite Hfrom. destruct (afrom !! p) as [q|] eqn:Hq; simpl.
  - rewrite <- (IH (Some q) (acc ++ [q])); [|intros ? [= <-]; eauto].
    by rewrite fmap_app.
  - by rewrite <- (IH None acc).
Qed.

End sim.

Section sim_steps.
Context (G : Abs.Grid) (maze : list (list loc)) (σ0 : loc → MazeUnit.t).
Context (gS fS : MyWeakMap).

Lemma sim_skip c a n :
  sim G maze σ0 gS fS c a → Abs.ingrid G n →
  sim G maze σ0 gS fS
    {| store := store c; closedSet := closedSet c;
       openSet := MySet_add (store c) (openSet c) (loc_at maze n); from := from c |}
    {| Abs.open := Abs.add (Abs.open a) n; Abs.closed := Abs.closed a;
       Abs.from := Abs.from a; Abs.g := Abs.g a; Abs.f := Abs.f a |}.
Proof.
  intros Hsim Hn.
  destruct (MySet_add_sim G maze (store c) (openSet c) (Abs.open a) n) as [Hr Hs];
    [done || apply Hsim..|].
  split; simpl; try done; apply Hsim.
Qed.

Lemma sim_update c a t cur n tent :
  sim G maze σ0 gS fS c a → Abs.ingrid G t → Abs.ingrid G n →
  let σ1 := MyWeakMap_set gS (loc_at maze n) (Fin tent) (store c) in
  sim G maze σ0 gS fS
    {| store := MyWeakMap_set fS (loc_at maze n)
                  (num_add (Fin tent) (Fin (cost σ1 (loc_at maze n) (loc_at maze t)))) σ1;
       closedSet := closedSet c;
       openSet := MySet_add (store c) (openSet c) (loc_at maze n);
       from := <[MazeUnit.id (store c (loc_at maze n)) := loc_at maze cur]> (from c) |}
    {| Abs.open := Abs.add (Abs.open a) n; Abs.closed := Abs.closed a;
       Abs.from := <[n := cur]> (Abs.from a);
       Abs.g := <[n := tent]> (Abs.g a);
       Abs.f := <[n := tent + Abs.cost G n t]> (Abs.f a) |}.
Proof.
  intros Hsim Ht Hn σ1.
  pose proof (sim_grid _ _ _ _ _ _ _ Hsim) as Hok.
  pose proof (sim_keys _ _ _ _ _ _ _ Hsim) as Hkeys.
  destruct (MySet_add_sim G maze (store c) (openSet c) (Abs.open a) n) as [Hr Hs];
    [done || apply Hsim..|].
  assert (grid_ok G σ1 maze) as Hok1 by (by apply grid_ok_set).
  subst σ1. split; simpl; try done.
  - by apply grid_ok_set.
  - apply frame_set; [|by right]. apply frame_set; [apply Hsim|by left].
  - apply Hsim.
  - intros p. fold (getId (store c) (loc_at maze n)). rewrite (getId_sim G maze) by done.
    destruct (decide (p = n)) as [->|Hne].
    + by rewrite !lookup_insert_eq.
    + rewrite !lookup_insert_ne by (done || by apply mkId_ne).
      apply Hsim.
  - intros p Hp. rewrite get_set_ne_key by done. destruct (decide (p = n)) as [->|Hne].
    + by rewrite get_set_eq, lookup_insert_eq.
    + rewrite get_set_ne_loc, lookup_insert_ne by (done || by intros ?%(loc_at_inj G (store c))).
      by apply Hsim.
  - intros p Hp. destruct (decide (p = n)) as [->|Hne].
    + rewrite get_set_eq, lookup_insert_eq, (cost_sim G maze) by done. done.
    + rewrite !get_set_ne_loc, lookup_insert_ne by (done || by intros ?%(loc_at_inj G (store c))).
      by apply Hsim.
Qed.

Lemma sim_visit c a t cur n :
  sim G maze σ0 gS fS c a → Abs.ingrid G t → Abs.ingrid G cur → Abs.ingrid G n →
  ∃ c', visit gS fS (loc_at maze t) (loc_at maze cur) c (loc_at maze n) = Some c'
        ∧ sim G maze σ0 gS fS c' (Abs.visit G t cur a n).
Proof.
  intros Hsim Ht Hcur Hn. unfold visit, Abs.visit.
  rewrite (MySet_has_sim G maze _ _ (Abs.closed a)) by (done || apply Hsim).
  case_bool_decide; [by exists c|].
  rewrite (mapGet_sim maze gS _ (Abs.g a) cur) by (by apply Hsim).
  rewrite (mapGet_sim maze gS _ (Abs.g a) n) by (by apply Hsim).
  rewrite (cost_sim G maze) by (done || apply Hsim).
  destruct (Abs.g a !! cur) as [gc|]; simpl.
  2:{ eexists. split; [done|]. by apply sim_skip. }
  destruct (Abs.g a !! n) as [gn|]; simpl.
  - case_bool_decide.
    + eexists. split; [done|]. by apply sim_skip.
    + rewrite get_set_eq. simpl. eexists. split; [done|]. by apply sim_update.
  - rewrite get_set_eq. simpl. eexists. split; [done|]. by apply sim_update.
Qed.

Lemma sim_visit_all c a t cur ns :
  sim G maze σ0 gS fS c a → Abs.ingrid G t → Abs.ingrid G cur →
  (∀ n, n ∈ ns → Abs.ingrid G n) →
  ∃ c', visit_all gS fS (loc_at maze t) (loc_at maze cur) c (loc_at maze <$> ns) = Some c'
        ∧ sim G maze σ0 gS fS c' (foldl (Abs.visit G t cur) a ns).
Proof.
  intros Hsim Ht Hcur. unfold visit_all. revert c a Hsim.
  induction ns as [|n ns IH]; intros c a Hsim Hns; [by exists c|].
  rewrite fmap_cons. simpl.
  destruct (sim_visit c a t cur n) as (c' & -> & Hsim'); [done..|apply Hns; left|].
  apply IH; [done|]. intros m Hm. apply Hns. by right.
Qed.

Lemma sim_pop c a cur :
  sim G maze σ0 gS fS c a → Abs.scoped G a → cur ∈ Abs.open a →
  sim G maze σ0 gS fS
    {| store := store c;
       closedSet := MySet_add (store c) (closedSet c) (loc_at maze cur);
       openSet := MySet_delete (store c) (openSet c) (loc_at maze cur);
       from := from c |}
    (Abs.pop cur a).
Proof.
  intros Hsim [Hnd Ho Hc Hf] Hcur.
  pose proof (sim_grid _ _ _ _ _ _ _ Hsim) as Hok.
  destruct (MySet_delete_sim G maze (store c) (openSet c) (Abs.open a) cur) as [Hr Hs];
    [by auto || apply Hsim..|].
  split; simpl; try done; try apply Hsim.
  unfold MySet_add. simpl.
  rewrite (getId_sim G maze), (sim_closed _ _ _ _ _ _ _ Hsim), obj_set_enc by auto. done.
Qed.

Lemma search_sim fuel bfuel t : ∀ c a,
  sim G maze σ0 gS fS c a → Abs.scoped G a → Abs.ingrid G t →
  match Abs.search fuel bfuel G t a with
  | Some r =>
      ∃ σ', search fuel bfuel maze gS fS (loc_at maze t) c = Some (σ', loc_at maze <$> r)
            ∧ frame (wm_id gS) (wm_id fS) σ0 σ'
  | None => search fuel bfuel maze gS fS (loc_at maze t) c = None
  end.
Proof.
  induction fuel as [|fuel IH]; intros c a Hsim Hsc Ht.
  - simpl. rewrite (sim_size _ _ _ _ _ _ _ Hsim).
    destruct (Abs.open a) as [|p l] eqn:Ho; simpl.
    + exists (store c). split; [done|apply Hsim].
    + done.
  - simpl. rewrite (sim_size _ _ _ _ _ _ _ Hsim).
    destruct (decide (Abs.open a = [])) as [Ho|Ho].
    { rewrite Ho. simpl. exists (store c). split; [done|apply Hsim]. }
    rewrite (bool_decide_eq_true_2 (Abs.open a ≠ [])) by done.
    rewrite bool_decide_eq_true_2 by (destruct (Abs.open a); [done|simpl; lia]).
    unfold MySet_values. rewrite (sim_open _ _ _ _ _ _ _ Hsim), values_enc.
    rewrite (select_sim maze fS _ (Abs.f a)).
    2:{ intros p Hp. apply Hsim. by apply Hsc. }
    destruct (Abs.select (Abs.f a) (Abs.open a)) as [cur|] eqn:Hsel; simpl; [|done].
    assert (cur ∈ Abs.open a) as Hcur by (by eapply select_elem_of).
    assert (Abs.ingrid G cur) as Hcin by (by apply Hsc).
    pose proof (sim_grid _ _ _ _ _ _ _ Hsim) as Hok.
    destruct (ok_cell _ _ _ Hok cur Hcin) as (_ & _ & Hi & Hj & _).
    destruct (ok_cell _ _ _ Hok t Ht) as (_ & _ & Hi' & Hj' & _).
    rewrite (bool_decide_ext
      (MazeUnit.i (store c (loc_at maze cur)) = MazeUnit.i (store c (loc_at maze t))
       ∧ MazeUnit.j (store c (loc_at maze cur)) = MazeUnit.j (store c (loc_at maze t)))
      (cur = t)).
    2:{ rewrite Hi, Hj, Hi', Hj'. destruct cur, t; simpl. naive_solver. }
    case_bool_decide as Hct.
    + unfold buildPath, Abs.buildPath.
      pose proof (buildPath_loop_sim G maze bfuel (store c) (from c) (Abs.from a) Hok
        (sim_from _ _ _ _ _ _ _ Hsim) (Abs.scoped_from _ _ Hsc) (Some cur) [cur]) as Hb.
      simpl in Hb. rewrite Hb by (by intros ? [= <-]).
      destruct (Abs.buildPath_loop bfuel (Abs.from a) (Some cur) [cur]); simpl; [|done].
      eexists. split; [done|apply Hsim].
    + rewrite (neighbors_sim G maze) by done.
      destruct (sim_visit_all _ (Abs.pop cur a) t cur (Abs.neighbors G cur)
                  (sim_pop c a cur Hsim Hsc Hcur)) as (c' & -> & Hsim'); [done..| |].
      { intros n Hn. by apply elem_of_neighbors in Hn as (_ & ? & _). }
      simpl. apply IH; [done| |done].
      apply scoped_visit_all; [by apply scoped_pop|done|].
      intros n Hn. by apply elem_of_neighbors in Hn as (_ & ? & _).
Qed.

End sim_steps.

Lemma scoped_init G s t : Abs.ingrid G s → Abs.scoped G (Abs.init G s t).
Proof.
  intros Hs. split; simpl.
  - apply NoDup_singleton.
  - by intros p ->%list_elem_of_singleton.
  - by intros p ?%elem_of_nil.
  - intros p q. by rewrite lookup_empty.
Qed.

(** [getPath] answers what the search over coordinates answers, cell for
    cell, and leaves the store framed. *)
Lemma getPath_sim G maze σ count s t fuel :
  grid_ok G σ maze →
  (∀ p n, Abs.ingrid G p → (count ≤ n)%nat →
     MazeUnit.props (σ (loc_at maze p)) !! wm_key n = None) →
  Abs.ingrid G s → Abs.ingrid G t →
  match Abs.getPath fuel G s t with
  | Some r =>
      ∃ σ', getPath fuel count σ maze (loc_at maze s) (loc_at maze t)
            = Some (S (S count), σ', loc_at maze <$> r)
            ∧ frame (wm_key count) (wm_key (S count)) σ σ'
  | None => getPath fuel count σ maze (loc_at maze s) (loc_at maze t) = None
  end.
Proof.
  intros Hok Hfresh Hs Ht. unfold getPath, Abs.getPath. simpl.
  set (gS := {| wm_id := wm_key count |}). set (fS := {| wm_id := wm_key (S count) |}).
  set (σ1 := MyWeakMap_set gS (loc_at maze s) (Fin 0) σ).
  set (c0 := {| store := MyWeakMap_set fS (loc_at maze s)
                           (Fin (cost σ1 (loc_at maze s) (loc_at maze t))) σ1;
                closedSet := MySet_new σ []; openSet := MySet_new σ [loc_at maze s];
                from := ∅ |}).
  assert (wm_id gS ≠ wm_id fS) as Hkeys.
  { simpl. intros ?%wm_key_inj. lia. }
  assert (grid_ok G σ1 maze) as Hok1 by (by apply grid_ok_set).
  assert (sim G maze σ gS fS c0 (Abs.init G s t)) as Hsim.
  { split; simpl.
    - by apply grid_ok_set.
    - apply frame_set; [|by right]. apply frame_set; [apply frame_refl|by left].
    - done.
    - unfold MySet_new. simpl. by rewrite (getId_sim G maze).
    - unfold MySet_new. simpl. done.
    - done.
    - intros p. by rewrite !lookup_empty.
    - intros p Hp. rewrite get_set_ne_key by done. unfold σ1.
      destruct (decide (p = s)) as [->|Hne].
      + by rewrite get_set_eq, lookup_singleton_eq.
      + rewrite get_set_ne_loc by (by intros ?%eq_sym%(loc_at_inj G σ)).
        rewrite lookup_singleton_ne by done. unfold MyWeakMap_get. simpl. by apply Hfresh.
    - intros p Hp. destruct (decide (p = s)) as [->|Hne].
      + by rewrite get_set_eq, lookup_singleton_eq, (cost_sim G maze).
      + rewrite get_set_ne_loc by (by intros ?%eq_sym%(loc_at_inj G σ)).
        unfold σ1. rewrite get_set_ne_loc by (by intros ?%eq_sym%(loc_at_inj G σ)).
        rewrite lookup_singleton_ne by done. unfold MyWeakMap_get. simpl.
        apply Hfresh; [done|lia]. }
  pose proof (search_sim G maze σ gS fS fuel fuel t c0 (Abs.init G s t) Hsim
                (scoped_init G s t Hs) Ht) as H.
  destruct (Abs.search fuel fuel G t (Abs.init G s t)) as [r|].
  - destruct H as (σ' & -> & Hfr). simpl. by exists σ'.
  - by rewrite H.
Qed.

(** * The search on native collections follows the search over coordinates *)

Section nsim.
Context (G : Abs.Grid) (maze : list (list loc)) (σ : loc → MazeUnit.t).
Context (Hok : grid_ok G σ maze).

Lemma xy_key_ne (p q : Z * Z) :
  p ≠ q →
  mkId (p.1 * Abs.unitSize G) (p.2 * Abs.unitSize G)
  ≠ mkId (q.1 * Abs.unitSize G) (q.2 * Abs.unitSize G).
Proof.
  intros Hne [H1 H2]%mkId_inj. pose proof (ok_unit _ _ _ Hok).
  apply Z.mul_cancel_r in H1, H2; [|lia..]. destruct p, q; simpl in *. congruence.
Qed.

Lemma native_getId_sim p :
  Abs.ingrid G p →
  Native.getId σ (loc_at maze p) = mkId (p.1 * Abs.unitSize G) (p.2 * Abs.unitSize G).
Proof.
  intros Hp. unfold Native.getId, mkId.
  by destruct (ok_cell _ _ _ Hok p Hp) as (-> & -> & _).
Qed.

Lemma elem_of_loc_at (l : list (Z * Z)) p :
  Abs.ingrid G p → (∀ q, q ∈ l → Abs.ingrid G q) →
  loc_at maze p ∈ loc_at maze <$> l ↔ p ∈ l.
Proof.
  intros Hp Hl. rewrite list_elem_of_fmap. split.
  - intros (q & Heq & Hq). by rewrite (loc_at_inj G σ maze p q) by auto.
  - intros Hin. by exists p.
Qed.

Lemma Set_has_sim (l : list (Z * Z)) p :
  Abs.ingrid G p → (∀ q, q ∈ l → Abs.ingrid G q) →
  Native.Set_has (loc_at maze <$> l) (loc_at maze p) = bool_decide (p ∈ l).
Proof. intros Hp Hl. unfold Native.Set_has. apply bool_decide_ext. by apply elem_of_loc_at. Qed.

Lemma Set_add_sim (l : list (Z * Z)) p :
  Abs.ingrid G p → (∀ q, q ∈ l → Abs.ingrid G q) →
  Native.Set_add (loc_at maze <$> l) (loc_at maze p) = loc_at maze <$> Abs.add l p.
Proof.
  intros Hp Hl. unfold Native.Set_add, Abs.add. rewrite Set_has_sim by done.
  case_bool_decide; [done|]. by rewrite fmap_app.
Qed.

Lemma Set_delete_sim (l : list (Z * Z)) p :
  Abs.ingrid G p → (∀ q, q ∈ l → Abs.ingrid G q) →
  Native.Set_delete (loc_at maze <$> l) (loc_at maze p)
  = loc_at maze <$> filter (λ q, q ≠ p) l.
Proof.
  intros Hp. unfold Native.Set_delete. induction l as [|q l IH]; intros Hl; [done|].
  rewrite fmap_cons. destruct (decide (q = p)) as [->|Hne].
  - rewrite !filter_cons_False by naive_solver. apply IH. set_solver.
  - rewrite !filter_cons_True; [|done|]. 
    + rewrite fmap_cons, IH by set_solver. done.
    + intros ?%(loc_at_inj G σ); [done..| |done]. apply Hl. left.
Qed.

Lemma native_mapGet_sim (m : gmap loc number) (gm : gmap (Z * Z) Z) (p : Z * Z) :
  m !! loc_at maze p = Fin <$> gm !! p →
  Native.mapGet m (loc_at maze p) = match gm !! p with Some z => Fin z | None => Infinity end.
Proof. intros H. unfold Native.mapGet. rewrite H. destruct (gm !! p); done. Qed.

Lemma native_select_sim (fS : gmap loc number) (fm : gmap (Z * Z) Z) (l : list (Z * Z)) :
  (∀ p, p ∈ l → fS !! loc_at maze p = Fin <$> fm !! p) →
  Native.select fS (loc_at maze <$> l) = loc_at maze <$> Abs.select fm l.
Proof.
  intros Hf. destruct l as [|c l]; [done|]. unfold Native.select, Abs.select.
  rewrite fmap_cons. simpl. f_equal.
  assert (∀ (l' : list (Z * Z)) c', c' ∈ c :: l → (∀ p, p ∈ l' → p ∈ c :: l) →
    fold_left (λ current u, if lt_undef (fS !! u) (fS !! current) then u else current)
      (loc_at maze <$> l') (loc_at maze c')
    = loc_at maze (fold_left (λ cur u, if Abs.lt_opt (fm !! u) (fm !! cur) then u else cur) l' c')) as H.
  { induction l' as [|u l' IH]; intros c' Hc' Hl'; [done|]. rewrite fmap_cons. simpl.
    rewrite !Hf, lt_undef_Fin by set_solver.
    case_match; apply IH; set_solver. }
  apply (H (c :: l) c); [left|done].
Qed.

Lemma native_buildPath_loop_sim (fuel : nat) (from : gmap string loc)
    (afrom : gmap (Z * Z) (Z * Z)) :
  (∀ p : Z * Z, from !! mkId (p.1 * Abs.unitSize G) (p.2 * Abs.unitSize G)
                = loc_at maze <$> afrom !! p) →
  (∀ p q, afrom !! p = Some q → Abs.ingrid G q) →
  ∀ (u : option (Z * Z)) (acc : list (Z * Z)), (∀ p, u = Some p → Abs.ingrid G p) →
  Native.buildPath_loop fuel σ from (loc_at maze <$> u) (loc_at maze <$> acc)
  = fmap (M:=list) (loc_at maze) <$> Abs.buildPath_loop fuel afrom u acc.
Proof.
  intros Hfrom Hin. induction fuel as [|fuel IH]; intros [p|] acc Hu; try done.
  simpl. rewrite native_getId_sim by auto.
  rewrite Hfrom. destruct (afrom !! p) as [q|] eqn:Hq; simpl.
  - rewrite <- (IH (Some q) (acc ++ [q])); [|intros ? [= <-]; eauto].
    by rewrite fmap_app.
  - by rewrite <- (IH None acc).
Qed.

Lemma nsim_skip c a n :
  nsim G maze c a → Abs.scoped G a → Abs.ingrid G n →
  nsim G maze
    {| Native.closedSet := Native.closedSet c;
       Native.openSet := Native.Set_add (Native.openSet c) (loc_at maze n);
       Native.from := Native.from c; Native.gScore := Native.gScore c;
       Native.fScore := Native.fScore c |}
    {| Abs.open := Abs.add (Abs.open a) n; Abs.closed := Abs.closed a;
       Abs.from := Abs.from a; Abs.g := Abs.g a; Abs.f := Abs.f a |}.
Proof.
  intros Hsim Hsc Hn. split; simpl; try apply Hsim.
  rewrite (nsim_open _ _ _ _ Hsim). apply Set_add_sim; [done|apply Hsc].
Qed.

Lemma nsim_update c a t cur n tent :
  nsim G maze c a → Abs.scoped G a → Abs.ingrid G t → Abs.ingrid G n →
  nsim G maze
    {| Native.closedSet := Native.closedSet c;
       Native.openSet := Native.Set_add (Native.openSet c) (loc_at maze n);
       Native.from := <[Native.getId σ (loc_at maze n) := loc_at maze cur]> (Native.from c);
       Native.gScore := <[loc_at maze n := Fin tent]> (Native.gScore c);
       Native.fScore :=
         <[loc_at maze n :=
             num_add (Fin tent) (Fin (Native.cost σ (loc_at maze n) (loc_at maze t)))]>
           (Native.fScore c) |}
    {| Abs.open := Abs.add (Abs.open a) n; Abs.closed := Abs.closed a;
       Abs.from := <[n := cur]> (Abs.from a);
       Abs.g := <[n := tent]> (Abs.g a);
       Abs.f := <[n := tent + Abs.cost G n t]> (Abs.f a) |}.
Proof.
  intros Hsim Hsc Ht Hn. split; simpl.
  - rewrite (nsim_open _ _ _ _ Hsim). apply Set_add_sim; [done|apply Hsc].
  - apply Hsim.
  - intros p. rewrite native_getId_sim by done. destruct (decide (p = n)) as [->|Hne].
    + by rewrite !lookup_insert_eq.
    + rewrite !lookup_insert_ne by (done || by apply xy_key_ne). apply Hsim.
  - intros p Hp. destruct (decide (p = n)) as [->|Hne].
    + by rewrite !lookup_insert_eq.
    + rewrite !lookup_insert_ne by (done || by intros ?%eq_sym%(loc_at_inj G σ)).
      by apply Hsim.
  - intros p Hp. destruct (decide (p = n)) as [->|Hne].
    + rewrite !lookup_insert_eq. simpl. do 3 f_equal.
      by apply (cost_sim G maze).
    + rewrite !lookup_insert_ne by (done || by intros ?%eq_sym%(loc_at_inj G σ)).
      by apply Hsim.
Qed.

Lemma nsim_visit c a t cur n :
  nsim G maze c a → Abs.scoped G a →
  Abs.ingrid G t → Abs.ingrid G cur → Abs.ingrid G n →
  ∃ c', Native.visit σ (loc_at maze t) (loc_at maze cur) c (loc_at maze n) = Some c'
        ∧ nsim G maze c' (Abs.visit G t cur a n).
Proof.
  intros Hsim Hsc Ht Hcur Hn. unfold Native.visit, Abs.visit.
  assert (Native.Set_has (Native.closedSet c) (loc_at maze n)
          = bool_decide (n ∈ Abs.closed a)) as ->.
  { rewrite (nsim_closed _ _ _ _ Hsim). apply Set_has_sim; [done|apply Hsc]. }
  case_bool_decide; [by exists c|].
  rewrite (native_mapGet_sim _ (Abs.g a) cur) by (by apply Hsim).
  rewrite (native_mapGet_sim _ (Abs.g a) n) by (by apply Hsim).
  change (Native.cost σ (loc_at maze cur) (loc_at maze n))
    with (cost σ (loc_at maze cur) (loc_at maze n)).
  rewrite (cost_sim G maze) by done.
  destruct (Abs.g a !! cur) as [gc|]; simpl.
  2:{ eexists. split; [done|]. by apply nsim_skip. }
  destruct (Abs.g a !! n) as [gn|]; simpl.
  - case_bool_decide.
    + eexists. split; [done|]. by apply nsim_skip.
    + rewrite lookup_insert_eq. simpl. eexists. split; [done|]. by apply nsim_update.
  - rewrite lookup_insert_eq. simpl. eexists. split; [done|]. by apply nsim_update.
Qed.

Lemma nsim_visit_all c a t cur ns :
  nsim G maze c a → Abs.scoped G a → Abs.ingrid G t → Abs.ingrid G cur →
  (∀ n, n ∈ ns → Abs.ingrid G n) →
  ∃ c', Native.visit_all σ (loc_at maze t) (loc_at maze cur) c (loc_at maze <$> ns) = Some c'
        ∧ nsim G maze c' (foldl (Abs.visit G t cur) a ns).
Proof.
  intros Hsim Hsc Ht Hcur. unfold Native.visit_all. revert c a Hsim Hsc.
  induction ns as [|n ns IH]; intros c a Hsim Hsc Hns; [by exists c|].
  rewrite fmap_cons. simpl.
  destruct (nsim_visit c a t cur n) as (c' & -> & Hsim'); [done..|apply Hns; left|].
  apply IH; [done| |].
  - apply scoped_visit; [done..|]. apply Hns. left.
  - intros m Hm. apply Hns. by right.
Qed.

Lemma nsim_pop c a cur :
  nsim G maze c a → Abs.scoped G a → cur ∈ Abs.open a →
  nsim G maze
    {| Native.closedSet := Native.Set_add (Native.closedSet c) (loc_at maze cur);
       Native.openSet := Native.Set_delete (Native.openSet c) (loc_at maze cur);
       Native.from := Native.from c; Native.gScore := Native.gScore c;
       Native.fScore := Native.fScore c |}
    (Abs.pop cur a).
Proof.
  intros Hsim Hsc Hcur. pose proof (Abs.scoped_open _ _ Hsc cur Hcur).
  split; simpl; try apply Hsim.
  - rewrite (nsim_open _ _ _ _ Hsim). apply Set_delete_sim; [done|apply Hsc].
  - rewrite (nsim_closed _ _ _ _ Hsim). apply Set_add_sim; [done|apply Hsc].
Qed.

Lemma native_search_sim fuel bfuel t : ∀ c a,
  nsim G maze c a → Abs.scoped G a → Abs.ingrid G t →
  Native.search fuel bfuel σ maze (loc_at maze t) c
  = fmap (M:=list) (loc_at maze) <$> Abs.search fuel bfuel G t a.
Proof.
  induction fuel as [|fuel IH]; intros c a Hsim Hsc Ht.
  - simpl. replace (length (Native.openSet c)) with (length (Abs.open a))
      by (by rewrite (nsim_open _ _ _ _ Hsim), length_fmap).
    by destruct (Abs.open a).
  - simpl. replace (length (Native.openSet c)) with (length (Abs.open a))
      by (by rewrite (nsim_open _ _ _ _ Hsim), length_fmap).
    destruct (decide (Abs.open a = [])) as [Ho|Ho].
    { by rewrite Ho. }
    rewrite (bool_decide_eq_true_2 (Abs.open a ≠ [])) by done.
    rewrite bool_decide_eq_true_2 by (by destruct (Abs.open a)).
    replace (Native.select (Native.fScore c) (Native.openSet c))
      with (loc_at maze <$> Abs.select (Abs.f a) (Abs.open a)).
    2:{ rewrite (nsim_open _ _ _ _ Hsim). symmetry. apply native_select_sim.
        intros p Hp. apply Hsim. by apply Hsc. }
    destruct (Abs.select (Abs.f a) (Abs.open a)) as [cur|] eqn:Hsel; simpl; [|done].
    assert (cur ∈ Abs.open a) as Hcur by (by eapply select_elem_of).
    assert (Abs.ingrid G cur) as Hcin by (by apply Hsc).
    destruct (ok_cell _ _ _ Hok cur Hcin) as (_ & _ & Hi & Hj & _).
    destruct (ok_cell _ _ _ Hok t Ht) as (_ & _ & Hi' & Hj' & _).
    rewrite (bool_decide_ext
      (MazeUnit.i (σ (loc_at maze cur)) = MazeUnit.i (σ (loc_at maze t))
       ∧ MazeUnit.j (σ (loc_at maze cur)) = MazeUnit.j (σ (loc_at maze t)))
      (cur = t)).
    2:{ rewrite Hi, Hj, Hi', Hj'. destruct cur, t; simpl. naive_solver. }
    case_bool_decide as Hct.
    + unfold Native.buildPath, Abs.buildPath.
      pose proof (native_buildPath_loop_sim bfuel (Native.from c) (Abs.from a)
        (nsim_from _ _ _ _ Hsim) (Abs.scoped_from _ _ Hsc) (Some cur) [cur]) as Hb.
      simpl in Hb. by rewrite Hb by (by intros ? [= <-]).
    + rewrite (neighbors_sim G maze) by done.
      destruct (nsim_visit_all _ (Abs.pop cur a) t cur (Abs.neighbors G cur)
                  (nsim_pop c a cur Hsim Hsc Hcur)) as (c' & -> & Hsim'); [|done..| |].
      { by apply scoped_pop. }
      { intros n Hn. by apply elem_of_neighbors in Hn as (_ & ? & _). }
      simpl. apply IH; [done| |done].
      apply scoped_visit_all; [by apply scoped_pop|done|].
      intros n Hn. by apply elem_of_neighbors in Hn as (_ & ? & _).
Qed.

Lemma native_getPath_sim s t fuel :
  Abs.ingrid G s → Abs.ingrid G t →
  Native.getPath fuel σ maze (loc_at maze s) (loc_at maze t)
  = fmap (M:=list) (loc_at maze) <$> Abs.getPath fuel G s t.
Proof.
  intros Hs Ht. unfold Native.getPath, Abs.getPath.
  apply native_search_sim; [|by apply scoped_init|done].
  split; simpl; [done|done|done|..].
  - intros p Hp. destruct (decide (p = s)) as [->|Hne].
    + by rewrite !lookup_singleton_eq.
    + rewrite !lookup_singleton_ne by (done || by intros ?%(loc_at_inj G σ)). done.
  - intros p Hp. destruct (decide (p = s)) as [->|Hne].
    + rewrite !lookup_singleton_eq. simpl. do 2 f_equal. by apply (cost_sim G maze).
    + rewrite !lookup_singleton_ne by (done || by intros ?%(loc_at_inj G σ)). done.
Qed.

End nsim.

(** * From the search over coordinates back to [getPath] *)

Section bridge.
Context (unitSize : Z) (count : nat) (σ : loc → MazeUnit.t) (maze : list (list loc)).
Context (Hwf : wf unitSize count σ maze = true).
Local Abbreviation G := (grid_of unitSize σ maze).

Lemma open_cell_iff q :
  open_cell σ maze q ↔ Abs.ingrid G q ∧ Abs.blocked G q = false.
Proof.
  pose proof (wf_grid_ok _ _ _ _ Hwf) as Hok. unfold open_cell. split.
  - intros (l & Hl & Hb). destruct (loc_at_Some G σ maze q l Hok Hl) as [Hq <-]. done.
  - intros [Hq Hb]. exists (loc_at maze q). split; [|done].
    by apply (getMazeUnit_loc_at G σ).
Qed.

Lemma neighbors_iff p q :
  q ∈ Abs.neighbors G p ↔ adjacent p q ∧ open_cell σ maze q.
Proof. rewrite elem_of_neighbors, open_cell_iff. tauto. Qed.

Lemma route_walk s t p ps k :
  Abs.walk G s p k → route σ maze t p ps → Abs.walk G s t (k + pred (length ps)).
Proof.
  intros Hw Hr. revert k Hw. induction Hr as [|p q ps Hadj Hq Hr IH]; intros k Hw.
  - simpl. by rewrite Nat.add_0_r.
  - assert (Abs.walk G s q (S k)) as Hw'.
    { eapply Abs.walk_S; [done|]. by apply neighbors_iff. }
    specialize (IH _ Hw'). simpl.
    destruct ps as [|? ps]; [by inversion Hr|]. simpl in *.
    by rewrite Nat.add_succ_r.
Qed.

Lemma route_nonempty t p ps : route σ maze t p ps → (1 ≤ length ps)%nat.
Proof. intros []; simpl; lia. Qed.

Lemma back_route s t p l ps :
  Abs.back G s p l → route σ maze t p ps → route σ maze t s (reverse (tail l) ++ ps).
Proof.
  intros Hb. revert ps. induction Hb as [|p c l Hn Hb IH]; intros ps Hr; [done|].
  simpl. apply neighbors_iff in Hn as [Hadj Hp].
  specialize (IH (c :: ps) (route_step _ _ _ _ _ _ Hadj Hp Hr)).
  apply back_head in Hb. destruct l as [|c' l]; simplify_eq/=.
  by rewrite reverse_cons, <- app_assoc.
Qed.

Lemma coords_loc_at σ' p :
  (∀ l, MazeUnit.fields (σ' l) = MazeUnit.fields (σ l)) → Abs.ingrid G p →
  coords σ' (loc_at maze p) = p.
Proof.
  intros Hf Hp. pose proof (wf_grid_ok _ _ _ _ Hwf) as Hok.
  destruct (ok_cell _ _ _ (grid_ok_fields _ _ _ _ Hok Hf) p Hp) as (_ & _ & Hi & Hj & _).
  unfold coords. rewrite Hi, Hj. by destruct p.
Qed.

Lemma coords_path σ' (r : list (Z * Z)) :
  (∀ l, MazeUnit.fields (σ' l) = MazeUnit.fields (σ l)) → (∀ q, q ∈ r → Abs.ingrid G q) →
  coords σ' <$> (loc_at maze <$> r) = r.
Proof.
  intros Hf Hr. rewrite <- list_fmap_compose. rewrite <- (list_fmap_id r) at 2.
  apply list_fmap_ext. intros i q Hq. simpl. apply coords_loc_at; [done|].
  apply Hr. by eapply list_elem_of_lookup_2.
Qed.

Lemma fields_isBlock (u u' : MazeUnit.t) :
  MazeUnit.fields u' = MazeUnit.fields u → MazeUnit.isBlock u' = MazeUnit.isBlock u.
Proof. unfold MazeUnit.fields. by intros [= _ _ _ _ _ _ _ ?]. Qed.

(** A run of [getPath] with enough fuel, in terms of the search over
    coordinates. *)
Lemma getPath_run s t startPoint targetPoint fuel :
  getMazeUnit maze s.1 s.2 = Some startPoint →
  getMazeUnit maze t.1 t.2 = Some targetPoint →
  (cell_count maze ≤ fuel)%nat →
  ∃ σ' r, getPath fuel count σ maze startPoint targetPoint
          = Some (S (S count), σ', loc_at maze <$> r)
    ∧ frame (wm_key count) (wm_key (S count)) σ σ'
    ∧ Abs.outcome G s t r
    ∧ (∀ q, q ∈ r → Abs.ingrid G q)
    ∧ Abs.ingrid G s ∧ Abs.ingrid G t
    ∧ Abs.getPath fuel G s t = Some r
    ∧ loc_at maze s = startPoint ∧ loc_at maze t = targetPoint.
Proof.
  intros Hsp Htp Hfuel. pose proof (wf_grid_ok _ _ _ _ Hwf) as Hok.
  destruct (loc_at_Some G σ maze s _ Hok Hsp) as [Hs <-].
  destruct (loc_at_Some G σ maze t _ Hok Htp) as [Ht <-].
  destruct (abs_getPath_spec G s t (ok_unit _ _ _ Hok) Hs fuel) as (r & Hr & Hout).
  { by rewrite (wf_size _ _ _ _ Hwf). }
  pose proof (getPath_sim G maze σ count s t fuel Hok) as Hsim.
  rewrite Hr in Hsim. destruct Hsim as (σ' & Hrun & Hfr); [|done..|].
  { intros p n Hp Hn. by apply (wf_fresh _ _ _ _ Hwf). }
  exists σ', r. split_and!; [done..| |done|done|done|done|done].
  destruct Hout as [[-> _]|(k & Hb & _)].
  - by intros q ?%elem_of_nil.
  - by apply (back_ingrid G s t r).
Qed.

End bridge.

(** * More fuel changes nothing *)

Lemma buildPath_loop_mono fuel : ∀ fuel' σ (from : gmap string loc) u path r,
  buildPath_loop fuel σ from u path = Some r → (fuel ≤ fuel')%nat →
  buildPath_loop fuel' σ from u path = Some r.
Proof.
  induction fuel as [|fuel IH]; intros fuel' σ from [u|] path r H Hle;
    try (by destruct fuel'); try done.
  destruct fuel' as [|fuel']; [lia|]. simpl in *. apply IH; [done|lia].
Qed.

Lemma search_mono maze gS fS targetPoint fuel : ∀ fuel' bfuel bfuel' st r,
  search fuel bfuel maze gS fS targetPoint st = Some r →
  (fuel ≤ fuel')%nat → (bfuel ≤ bfuel')%nat →
  search fuel' bfuel' maze gS fS targetPoint st = Some r.
Proof.
  induction fuel as [|fuel IH]; intros fuel' bfuel bfuel' st r H Hle Hble.
  - simpl in H. destruct fuel'; simpl; by case_bool_decide.
  - destruct fuel' as [|fuel']; [lia|]. simpl in *.
    case_bool_decide; [|done].
    destruct (select fS (store st) (MySet_values (openSet st))) as [current|]; [|done].
    simpl in *. case_bool_decide.
    + unfold buildPath in *.
      destruct (buildPath_loop bfuel _ _ _ _) as [p|] eqn:Hb; [|done].
      by rewrite (buildPath_loop_mono _ _ _ _ _ _ _ Hb Hble).
    + destruct (visit_all _ _ _ _ _ _) as [st2|]; [|done]. simpl in *.
      eapply IH; [done|lia|done].
Qed.

Lemma getPath_mono fuel fuel' count σ maze startPoint targetPoint r :
  getPath fuel count σ maze startPoint targetPoint = Some r → (fuel ≤ fuel')%nat →
  getPath fuel' count σ maze startPoint targetPoint = Some r.
Proof.
  unfold getPath. simpl. intros H Hle.
  destruct (search fuel fuel _ _ _ _ _) as [x|] eqn:Hs; [|done].
  by rewrite (search_mono _ _ _ _ _ _ _ _ _ _ Hs Hle Hle).
Qed.

(** * The claims *)

(** C1. When some route leads from the start to the target through
    unblocked cells, [getPath] returns a non-empty sequence which, read
    backwards, is such a route, and whose cost (one [unitSize] per step)
    is the least any route has; on a grid without blocked cells the
    sequence has [|col(start)-col(target)| + |row(start)-row(target)| + 1]
    cells. *)
Theorem getPath_shortest unitSize count σ maze s t startPoint targetPoint fuel :
  wf unitSize count σ maze = true →
  getMazeUnit maze s.1 s.2 = Some startPoint →
  getMazeUnit maze t.1 t.2 = Some targetPoint →
  (cell_count maze ≤ fuel)%nat →
  ∃ σ' path,
    getPath fuel count σ maze startPoint targetPoint = Some (S (S count), σ', path)
    ∧ ((∃ ps, route σ maze t s ps) →
       path ≠ []
       ∧ route σ maze t s (coords σ' <$> reverse path)
       ∧ ∀ ps, route σ maze t s ps → path_cost unitSize path ≤ path_cost unitSize ps)
    ∧ (no_blocks σ maze = true →
       Z.of_nat (length path) = Z.abs (s.1 - t.1) + Z.abs (s.2 - t.2) + 1).
Proof.
  intros Hwf Hsp Htp Hfuel.
  destruct (getPath_run _ _ _ _ Hwf s t _ _ fuel Hsp Htp Hfuel)
    as (σ' & r & Hrun & Hfr & Hout & Hin & Hs & Ht & Habs & Hls & Hlt).
  pose proof (wf_grid_ok _ _ _ _ Hwf) as Hok.
  assert (∀ l, MazeUnit.fields (σ' l) = MazeUnit.fields (σ l)) as Hf by (intros l; apply Hfr).
  exists σ', (loc_at maze <$> r). split; [done|]. split.
  - intros [ps Hps].
    pose proof (route_walk _ _ _ _ Hwf s t s ps 0 (Abs.walk_O _ _) Hps) as Hw.
    destruct Hout as [[_ Hno]|(k & Hb & Hlen & Hwk & Hmin)]; [by destruct (Hno _ Hw)|].
    split_and!.
    + destruct r; [done|]. done.
    + rewrite <- fmap_reverse, (coords_path _ _ _ _ Hwf) by (done || set_solver).
      pose proof (back_route _ _ _ _ Hwf s t t r [t] Hb (route_end _ _ _)) as Hr.
      apply back_head in Hb. destruct r as [|t' r]; simplify_eq/=.
      by rewrite reverse_cons.
    + intros ps' Hps'.
      pose proof (route_walk _ _ _ _ Hwf s t s ps' 0 (Abs.walk_O _ _) Hps') as Hw'.
      apply Hmin in Hw'. pose proof (route_nonempty _ _ _ _ _ Hps').
      unfold path_cost. rewrite length_fmap, Hlen.
      pose proof (ok_unit _ _ _ Hok). simpl in *. nia.
  - intros Hfree.
    assert (Abs.walk (grid_of unitSize σ maze) s t (Z.to_nat (Abs.manh s t))) as Hw.
    { apply straight_walk; [|done|done|].
      - intros p Hp. simpl. apply negb_true_iff.
        apply (proj1 (forallb_forall _ _) Hfree), (in_concat_getMazeUnit maze p.1 p.2).
        by apply (getMazeUnit_loc_at (grid_of unitSize σ maze) σ).
      - pose proof (manh_nonneg s t). lia. }
    destruct Hout as [[_ Hno]|(k & Hb & Hlen & Hwk & Hmin)]; [by destruct (Hno _ Hw)|].
    apply Hmin in Hw. apply walk_manh_le in Hwk.
    rewrite length_fmap, Hlen. unfold Abs.manh in *. lia.
Qed.

(** C2. The first element of a non-empty result has the coordinates of
    the target cell, the last element those of the start cell. *)
Theorem getPath_endpoints unitSize count σ maze s t startPoint targetPoint fuel :
  wf unitSize count σ maze = true →
  getMazeUnit maze s.1 s.2 = Some startPoint →
  getMazeUnit maze t.1 t.2 = Some targetPoint →
  (cell_count maze ≤ fuel)%nat →
  ∃ σ' path,
    getPath fuel count σ maze startPoint targetPoint = Some (S (S count), σ', path)
    ∧ (path ≠ [] →
       coords σ' <$> list.head path = Some (coords σ' targetPoint)
       ∧ coords σ' <$> list.last path = Some (coords σ' startPoint)).
Proof.
  intros Hwf Hsp Htp Hfuel.
  destruct (getPath_run _ _ _ _ Hwf s t _ _ fuel Hsp Htp Hfuel)
    as (σ' & r & Hrun & Hfr & Hout & Hin & Hs & Ht & Habs & Hls & Hlt).
  pose proof (wf_grid_ok _ _ _ _ Hwf) as Hok.
  destruct (loc_at_Some _ σ maze s _ Hok Hsp) as [_ <-].
  destruct (loc_at_Some _ σ maze t _ Hok Htp) as [_ <-].
  exists σ', (loc_at maze <$> r). split; [done|]. intros Hne.
  destruct Hout as [[-> _]|(k & Hb & _)]; [done|].
  rewrite fmap_last, (back_last _ _ _ _ Hb).
  apply back_head in Hb. destruct r; simplify_eq/=. done.
Qed.

(** C3. The result is empty exactly when no route leads from the start
    to the target through unblocked cells: a route steps onto unblocked
    cells of the maze only, the cell it starts from is not tested, and
    the route from a cell to itself is that cell alone. Scenario B is
    [scenario_B]. *)
Theorem getPath_empty_iff_unreachable unitSize count σ maze s t startPoint targetPoint fuel :
  wf unitSize count σ maze = true →
  getMazeUnit maze s.1 s.2 = Some startPoint →
  getMazeUnit maze t.1 t.2 = Some targetPoint →
  (cell_count maze ≤ fuel)%nat →
  ∃ σ' path,
    getPath fuel count σ maze startPoint targetPoint = Some (S (S count), σ', path)
    ∧ (path = [] ↔ ¬ ∃ ps, route σ maze t s ps).
Proof.
  intros Hwf Hsp Htp Hfuel.
  destruct (getPath_run _ _ _ _ Hwf s t _ _ fuel Hsp Htp Hfuel)
    as (σ' & r & Hrun & Hfr & Hout & Hin & Hs & Ht & Habs & Hls & Hlt).
  exists σ', (loc_at maze <$> r). split; [done|].
  destruct Hout as [[-> Hno]|(k & Hb & Hlen & Hwk & Hmin)].
  - split; [|done]. intros _ [ps Hps].
    by eapply Hno, (route_walk _ _ _ _ Hwf s t s ps 0 (Abs.walk_O _ _)).
  - split.
    + intros ->%fmap_nil_inv. done.
    + intros []. exists (reverse (tail r) ++ [t]).
      apply (back_route _ _ _ _ Hwf s t t r [t] Hb). constructor.
Qed.

(** C4, as the code has it. [getPath] leaves the maze and the declared
    fields of every cell as they were, and every attached property but
    the two named after the [MyWeakMap] instances of this call, which stay
    on the cells with the scores of the search; the instance counter
    advances by two, and a second identical call returns the same
    sequence. *)
Theorem getPath_frame unitSize count σ maze s t startPoint targetPoint fuel :
  wf unitSize count σ maze = true →
  getMazeUnit maze s.1 s.2 = Some startPoint →
  getMazeUnit maze t.1 t.2 = Some targetPoint →
  (cell_count maze ≤ fuel)%nat →
  ∃ σ' path,
    getPath fuel count σ maze startPoint targetPoint = Some (S (S count), σ', path)
    ∧ (∀ l, MazeUnit.fields (σ' l) = MazeUnit.fields (σ l))
    ∧ (∀ l k, k ≠ wm_key count → k ≠ wm_key (S count) →
         MazeUnit.props (σ' l) !! k = MazeUnit.props (σ l) !! k)
    ∧ wf unitSize (S (S count)) σ' maze = true
    ∧ ∃ σ'', getPath fuel (S (S count)) σ' maze startPoint targetPoint
             = Some (S (S (S (S count))), σ'', path).
Proof.
  intros Hwf Hsp Htp Hfuel.
  destruct (getPath_run _ _ _ _ Hwf s t _ _ fuel Hsp Htp Hfuel)
    as (σ' & r & Hrun & Hfr & Hout & Hin & Hs & Ht & Habs & Hls & Hlt).
  pose proof (wf_grid_ok _ _ _ _ Hwf) as Hok.
  pose proof (wf_frame _ _ _ _ Hwf σ' Hfr) as Hwf'.
  assert (∀ l, MazeUnit.fields (σ' l) = MazeUnit.fields (σ l)) as Hf by (intros l; apply Hfr).
  exists σ', (loc_at maze <$> r). split_and!; [done|done| |done|].
  { intros l. apply Hfr. }
  pose proof (getPath_sim (grid_of unitSize σ maze) maze σ' (S (S count)) s t fuel
                (grid_ok_fields _ _ _ _ Hok Hf)) as Hsim.
  rewrite Habs, Hls, Hlt in Hsim. destruct Hsim as (σ'' & Hrun' & _); [|done..|].
  { intros p n Hp Hn. by apply (wf_fresh _ _ _ _ Hwf'). }
  by exists σ''.
Qed.

(** C5. With as many iterations allowed as the grid has cells, both
    loops of [getPath] run to their end, and allowing more changes
    nothing. *)
Theorem getPath_terminates unitSize count σ maze s t startPoint targetPoint fuel :
  wf unitSize count σ maze = true →
  getMazeUnit maze s.1 s.2 = Some startPoint →
  getMazeUnit maze t.1 t.2 = Some targetPoint →
  (cell_count maze ≤ fuel)%nat →
  is_Some (getPath (cell_count maze) count σ maze startPoint targetPoint)
  ∧ getPath fuel count σ maze startPoint targetPoint
    = getPath (cell_count maze) count σ maze startPoint targetPoint.
Proof.
  intros Hwf Hsp Htp Hfuel.
  destruct (getPath_run _ _ _ _ Hwf s t _ _ (cell_count maze) Hsp Htp (le_n _))
    as (σ' & r & Hrun & _).
  split; [by rewrite Hrun|].
  rewrite Hrun. by apply (getPath_mono (cell_count maze)).
Qed.

(** C6. Two consecutive cells of the result are 4-adjacent. *)
Theorem getPath_consecutive_adjacent unitSize count σ maze s t startPoint targetPoint fuel :
  wf unitSize count σ maze = true →
  getMazeUnit maze s.1 s.2 = Some startPoint →
  getMazeUnit maze t.1 t.2 = Some targetPoint →
  (cell_count maze ≤ fuel)%nat →
  ∃ σ' path,
    getPath fuel count σ maze startPoint targetPoint = Some (S (S count), σ', path)
    ∧ ∀ k a b, path !! k = Some a → path !! S k = Some b →
        adjacent (coords σ' a) (coords σ' b).
Proof.
  intros Hwf Hsp Htp Hfuel.
  destruct (getPath_run _ _ _ _ Hwf s t _ _ fuel Hsp Htp Hfuel)
    as (σ' & r & Hrun & Hfr & Hout & Hin & Hs & Ht & Habs & Hls & Hlt).
  assert (∀ l, MazeUnit.fields (σ' l) = MazeUnit.fields (σ l)) as Hf by (intros l; apply Hfr).
  exists σ', (loc_at maze <$> r). split; [done|]. intros k a b Ha Hb.
  apply list_lookup_fmap_Some in Ha as (p & -> & Hp).
  apply list_lookup_fmap_Some in Hb as (q & -> & Hq).
  rewrite !(coords_loc_at _ _ _ _ Hwf) by (done || by eapply Hin, list_elem_of_lookup_2).
  destruct Hout as [[-> _]|(n & Hback & _)]; [done|].
  apply (back_lookup _ _ _ _ _ _ _ Hback Hp) in Hq.
  apply elem_of_neighbors in Hq as (Hadj & _). unfold adjacent in *. lia.
Qed.

(** C7. From a cell to itself the result is that cell alone, blocked or
    not. *)
Theorem getPath_same_cell unitSize count σ maze a cell fuel :
  wf unitSize count σ maze = true →
  getMazeUnit maze a.1 a.2 = Some cell →
  (1 ≤ fuel)%nat →
  ∃ σ', getPath fuel count σ maze cell cell = Some (S (S count), σ', [cell]).
Proof.
  intros Hwf Ha Hfuel. pose proof (wf_grid_ok _ _ _ _ Hwf) as Hok.
  destruct (loc_at_Some _ σ maze a _ Hok Ha) as [Hin <-].
  pose proof (getPath_sim (grid_of unitSize σ maze) maze σ count a a fuel Hok) as Hsim.
  assert (Abs.getPath fuel (grid_of unitSize σ maze) a a = Some [a]) as Habs.
  { destruct fuel as [|fuel]; [lia|]. unfold Abs.getPath. simpl.
    destruct (Abs.lt_opt _ _); rewrite bool_decide_eq_true_2 by done;
      unfold Abs.buildPath; simpl; rewrite lookup_empty; by destruct fuel. }
  rewrite Habs in Hsim. destruct Hsim as (σ' & Hrun & _); [|done..|].
  { intros p n Hp Hn. by apply (wf_fresh _ _ _ _ Hwf). }
  by exists σ'.
Qed.

(** C8. On the same grid, the search on native collections and the
    search on [MySet]/[MyWeakMap] return the same cells. *)
Theorem getPath_variants_agree unitSize count σ maze s t startPoint targetPoint fuel :
  wf unitSize count σ maze = true →
  getMazeUnit maze s.1 s.2 = Some startPoint →
  getMazeUnit maze t.1 t.2 = Some targetPoint →
  (cell_count maze ≤ fuel)%nat →
  ∃ σ' path,
    getPath fuel count σ maze startPoint targetPoint = Some (S (S count), σ', path)
    ∧ Native.getPath fuel σ maze startPoint targetPoint = Some path.
Proof.
  intros Hwf Hsp Htp Hfuel. pose proof (wf_grid_ok _ _ _ _ Hwf) as Hok.
  destruct (loc_at_Some _ σ maze s _ Hok Hsp) as [Hs <-].
  destruct (loc_at_Some _ σ maze t _ Hok Htp) as [Ht <-].
  destruct (abs_getPath_spec _ s t (ok_unit _ _ _ Hok) Hs fuel) as (r & Hr & _).
  { by rewrite (wf_size _ _ _ _ Hwf). }
  pose proof (getPath_sim _ maze σ count s t fuel Hok) as Hsim.
  rewrite Hr in Hsim. destruct Hsim as (σ' & Hrun & _); [|done..|].
  { intros p n Hp Hn. by apply (wf_fresh _ _ _ _ Hwf). }
  exists σ', (loc_at maze <$> r). split; [done|].
  by rewrite (native_getPath_sim _ maze σ Hok s t fuel Hs Ht), Hr.
Qed.

(** C9. The result depends on the grid, the start and the target alone:
    two invocations, whatever properties and instance count earlier calls
    have left, return the same sequence. *)
Theorem getPath_deterministic unitSize count1 count2 σ1 σ2 maze s t startPoint targetPoint fuel :
  wf unitSize count1 σ1 maze = true →
  wf unitSize count2 σ2 maze = true →
  same_flags σ1 σ2 maze = true →
  getMazeUnit maze s.1 s.2 = Some startPoint →
  getMazeUnit maze t.1 t.2 = Some targetPoint →
  (cell_count maze ≤ fuel)%nat →
  ∃ σ1' σ2' path,
    getPath fuel count1 σ1 maze startPoint targetPoint = Some (S (S count1), σ1', path)
    ∧ getPath fuel count2 σ2 maze startPoint targetPoint = Some (S (S count2), σ2', path).
Proof.
  intros Hwf1 Hwf2 Hflags Hsp Htp Hfuel.
  pose proof (wf_grid_ok _ _ _ _ Hwf1) as Hok1.
  pose proof (wf_grid_ok _ _ _ _ Hwf2) as Hok2.
  assert (grid_ok (grid_of unitSize σ1 maze) σ2 maze) as Hok12.
  { destruct Hok2 as [Hu Hin Hout Hcell]. split; [done..|].
    intros p Hp. destruct (Hcell p Hp) as (? & ? & ? & ? & ? & ?).
    split_and!; [done..|]. simpl.
    apply (bool_decide_eq_true_1 _), (proj1 (forallb_forall _ _) Hflags).
    apply (in_concat_getMazeUnit maze p.1 p.2).
    by apply (getMazeUnit_loc_at _ σ1 maze p Hok1). }
  destruct (loc_at_Some _ σ1 maze s _ Hok1 Hsp) as [Hs <-].
  destruct (loc_at_Some _ σ1 maze t _ Hok1 Htp) as [Ht <-].
  destruct (abs_getPath_spec _ s t (ok_unit _ _ _ Hok1) Hs fuel) as (r & Hr & _).
  { by rewrite (wf_size _ _ _ _ Hwf1). }
  pose proof (getPath_sim _ maze σ1 count1 s t fuel Hok1) as Hsim1.
  pose proof (getPath_sim _ maze σ2 count2 s t fuel Hok12) as Hsim2.
  rewrite Hr in Hsim1, Hsim2.
  destruct Hsim1 as (σ1' & Hrun1 & _); [|done..|].
  { intros p n Hp Hn. by apply (wf_fresh _ _ _ _ Hwf1). }
  destruct Hsim2 as (σ2' & Hrun2 & _); [|done..|].
  { intros p n Hp Hn. by apply (wf_fresh _ _ _ _ Hwf2). }
  by exists σ1', σ2', (loc_at maze <$> r).
Qed.

(** C10. Every cell of the result but the last one is unblocked. *)
Theorem getPath_unblocked unitSize count σ maze s t startPoint targetPoint fuel :
  wf unitSize count σ maze = true →
  getMazeUnit maze s.1 s.2 = Some startPoint →
  getMazeUnit maze t.1 t.2 = Some targetPoint →
  (cell_count maze ≤ fuel)%nat →
  ∃ σ' path,
    getPath fuel count σ maze startPoint targetPoint = Some (S (S count), σ', path)
    ∧ ∀ k l, path !! k = Some l → (S k < length path)%nat →
        MazeUnit.isBlock (σ' l) = false.
Proof.
  intros Hwf Hsp Htp Hfuel.
  destruct (getPath_run _ _ _ _ Hwf s t _ _ fuel Hsp Htp Hfuel)
    as (σ' & r & Hrun & Hfr & Hout & Hin & Hs & Ht & Habs & Hls & Hlt).
  exists σ', (loc_at maze <$> r). split; [done|]. intros k l Hl Hk.
  rewrite length_fmap in Hk.
  apply list_lookup_fmap_Some in Hl as (p & -> & Hp).
  destruct (lookup_lt_is_Some_2 r (S k) Hk) as [q Hq].
  destruct Hout as [[-> _]|(n & Hback & _)]; [done|].
  apply (back_lookup _ _ _ _ _ _ _ Hback Hp) in Hq.
  apply elem_of_neighbors in Hq as (_ & _ & Hb). simpl in Hb.
  rewrite <- Hb. apply fields_isBlock, Hfr.
Qed.

(** * The choice of [current] *)

Lemma select_fold_first_min fS σ : ∀ (l : list loc) c zc,
  score fS σ c = Some zc → (∀ u, u ∈ l → is_Some (score fS σ u)) →
  let r := fold_left
             (λ current u,
                if lt_undef (MyWeakMap_get fS σ u) (MyWeakMap_get fS σ current)
                then u else current) l c in
  ∃ zr, score fS σ r = Some zr
    ∧ (∀ i u z, l !! i = Some u → score fS σ u = Some z → zr ≤ z)
    ∧ ((r = c ∧ zr = zc)
       ∨ ∃ k, l !! k = Some r ∧ zr < zc
             ∧ ∀ i u z, (i < k)%nat → l !! i = Some u → score fS σ u = Some z → zr < z).
Proof.
  induction l as [|u l IH]; intros c zc Hc Hl; simpl.
  - exists zc. split_and!; [done|by intros []|by left].
  - destruct (Hl u) as [zu Hu]; [left|].
    assert (lt_undef (MyWeakMap_get fS σ u) (MyWeakMap_get fS σ c) = bool_decide (zu < zc)) as ->.
    { unfold score in Hc, Hu.
      destruct (MyWeakMap_get fS σ u) as [[]|], (MyWeakMap_get fS σ c) as [[]|]; by simplify_eq. }
    case_bool_decide as Hlt.
    + destruct (IH u zu Hu) as (zr & Hr & Hall & Hcase); [intros; apply Hl; by right|].
      exists zr. assert (zr ≤ zu) by (destruct Hcase as [[_ ->]|(? & _ & ? & _)]; lia).
      split_and!; [done| |].
      * intros [|i] u' z Hi Hz; simplify_eq/=; [lia|by eapply Hall].
      * right. destruct Hcase as [[-> ->]|(k & Hk & Hlt' & Hbefore)].
        -- exists 0%nat. split_and!; [done|lia|intros; lia].
        -- exists (S k). split_and!; [done|lia|].
           intros [|i] u' z Hi Hi' Hz; simplify_eq/=; [lia|].
           eapply Hbefore; [|done..]. lia.
    + destruct (IH c zc Hc) as (zr & Hr & Hall & Hcase); [intros; apply Hl; by right|].
      exists zr. assert (zr ≤ zc) by (destruct Hcase as [[_ ->]|(? & _ & ? & _)]; lia).
      split_and!; [done| |].
      * intros [|i] u' z Hi Hz; simplify_eq/=; [lia|by eapply Hall].
      * destruct Hcase as [[-> ->]|(k & Hk & Hlt' & Hbefore)]; [by left|].
        right. exists (S k). split_and!; [done|lia|].
        intros [|i] u' z Hi Hi' Hz; simplify_eq/=; [lia|].
        eapply Hbefore; [|done..]. lia.
Qed.

(** X6. [select] picks the first of the open cells whose score is
    least: every cell scores at least as much, every earlier one
    strictly more. *)
Lemma select_first_min fS σ (openUnits : list loc) current :
  (∀ u, u ∈ openUnits → is_Some (score fS σ u)) →
  select fS σ openUnits = Some current →
  ∃ k zc, openUnits !! k = Some current ∧ score fS σ current = Some zc
    ∧ (∀ i u z, openUnits !! i = Some u → score fS σ u = Some z → zc ≤ z)
    ∧ (∀ i u z, (i < k)%nat → openUnits !! i = Some u → score fS σ u = Some z → zc < z).
Proof.
  intros Hl Hsel. destruct openUnits as [|first rest]; [done|].
  unfold select in Hsel. apply (inj Some) in Hsel.
  destruct (Hl first) as [z0 H0]; [left|].
  destruct (select_fold_first_min fS σ (first :: rest) first z0 H0 Hl)
    as (zr & Hr & Hall & Hcase).
  rewrite Hsel in Hr, Hcase.
  destruct Hcase as [[-> ->]|(k & Hk & Hlt & Hbefore)].
  - exists 0%nat, z0. split_and!; [done|done| |intros; lia].
    intros i u z Hi Hz. by eapply Hall.
  - exists k, zr. split_and!; [done|done| |done].
    intros i u z Hi Hz. by eapply Hall.
Qed.

(** * The claims at concrete grids *)

(** Scenario A: on the free 3×3 grid the way from (0,0) to (2,2) has five
    cells. *)
Example scenario_A :
  snd <$> getPath 9 0 grid_free.1 grid_free.2 0%nat 8%nat
  = Some [8; 5; 2; 1; 0]%nat.
Proof. vm_compute. reflexivity. Qed.

(** Scenario B: behind the wall the target is out of reach. *)
Example scenario_B :
  snd <$> getPath 3 0 grid_wall.1 grid_wall.2 0%nat 2%nat = Some [].
Proof. vm_compute. reflexivity. Qed.

(** Scenario C: the way leads through the gap at (1,1), the cell 4. *)
Example scenario_C :
  snd <$> getPath 9 0 grid_gap.1 grid_gap.2 0%nat 8%nat
  = Some [8; 5; 4; 3; 0]%nat.
Proof. vm_compute. reflexivity. Qed.

(** From a blocked start the way to its neighbour is found all the
    same. *)
Example blocked_start :
  snd <$> getPath 2 0 grid_blocked_start.1 grid_blocked_start.2 0%nat 1%nat
  = Some [1; 0]%nat.
Proof. vm_compute. reflexivity. Qed.

Lemma getPath_shortest_witness :
  (∃ σ' path,
     getPath 9 0 grid_gap.1 grid_gap.2 0%nat 8%nat = Some (2%nat, σ', path)
     ∧ path ≠ []
     ∧ route grid_gap.1 grid_gap.2 (2, 2) (0, 0) (coords σ' <$> reverse path)
     ∧ ∀ ps, route grid_gap.1 grid_gap.2 (2, 2) (0, 0) ps →
         path_cost 10 path ≤ path_cost 10 ps)
  ∧ (∃ σ' path,
       getPath 9 0 grid_free.1 grid_free.2 0%nat 8%nat = Some (2%nat, σ', path)
       ∧ Z.of_nat (length path) = 5).
Proof.
  split.
  - destruct (getPath_shortest 10 0 grid_gap.1 grid_gap.2 (0, 0) (2, 2) 0%nat 8%nat 9%nat)
      as (σ' & path & Hrun & Hroute & _).
    + vm_compute. reflexivity.
    + reflexivity.
    + reflexivity.
    + vm_compute. lia.
    + exists σ', path. split; [exact Hrun|]. apply Hroute.
      exists [(0, 0); (1, 0); (1, 1); (1, 2); (2, 2)].
      route_via (1, 0). route_via (1, 1). route_via (1, 2). route_via (2, 2).
      apply route_end.
  - destruct (getPath_shortest 10 0 grid_free.1 grid_free.2 (0, 0) (2, 2) 0%nat 8%nat 9%nat)
      as (σ' & path & Hrun & _ & Hlen).
    + vm_compute. reflexivity.
    + reflexivity.
    + reflexivity.
    + vm_compute. lia.
    + exists σ', path. split; [exact Hrun|]. apply Hlen. vm_compute. reflexivity.
Defined.

Lemma getPath_endpoints_witness :
  ∃ σ' path,
    getPath 9 0 grid_gap.1 grid_gap.2 0%nat 8%nat = Some (2%nat, σ', path)
    ∧ (path ≠ [] →
       coords σ' <$> list.head path = Some (coords σ' 8%nat)
       ∧ coords σ' <$> list.last path = Some (coords σ' 0%nat)).
Proof.
  apply (getPath_endpoints 10 0 grid_gap.1 grid_gap.2 (0, 0) (2, 2) 0%nat 8%nat 9%nat).
  - vm_compute. reflexivity.
  - reflexivity.
  - reflexivity.
  - vm_compute. lia.
Defined.

Lemma getPath_empty_iff_unreachable_witness :
  ∃ σ' path,
    getPath 3 0 grid_wall.1 grid_wall.2 0%nat 2%nat = Some (2%nat, σ', path)
    ∧ (path = [] ↔ ¬ ∃ ps, route grid_wall.1 grid_wall.2 (2, 0) (0, 0) ps).
Proof.
  apply (getPath_empty_iff_unreachable 10 0 grid_wall.1 grid_wall.2 (0, 0) (2, 0)
           0%nat 2%nat 3%nat).
  - vm_compute. reflexivity.
  - reflexivity.
  - reflexivity.
  - vm_compute. lia.
Defined.

(** Against C4 as it is stated: after a search on the free 3×3 grid the
    start cell carries the property [weakmap0] (its gScore, 0) and the
    property [weakmap1] (its fScore, 40), neither of which it had
    before. *)
Lemma getPath_attaches_scores :
  MazeUnit.props (grid_free.1 0%nat) !! "weakmap0" = None
  ∧ (λ r, (MazeUnit.props (r.1.2 0%nat) !! "weakmap0",
           MazeUnit.props (r.1.2 0%nat) !! "weakmap1"))
      <$> getPath 9 0 grid_free.1 grid_free.2 0%nat 8%nat
    = Some (Some (Fin 0), Some (Fin 40)).
Proof. split; vm_compute; reflexivity. Qed.

Lemma getPath_frame_witness :
  ∃ σ' path,
    getPath 9 0 grid_free.1 grid_free.2 0%nat 8%nat = Some (2%nat, σ', path)
    ∧ (∀ l, MazeUnit.fields (σ' l) = MazeUnit.fields (grid_free.1 l))
    ∧ (∀ l k, k ≠ wm_key 0 → k ≠ wm_key 1 →
         MazeUnit.props (σ' l) !! k = MazeUnit.props (grid_free.1 l) !! k)
    ∧ wf 10 2 σ' grid_free.2 = true
    ∧ ∃ σ'', getPath 9 2 σ' grid_free.2 0%nat 8%nat = Some (4%nat, σ'', path).
Proof.
  apply (getPath_frame 10 0 grid_free.1 grid_free.2 (0, 0) (2, 2) 0%nat 8%nat 9%nat).
  - vm_compute. reflexivity.
  - reflexivity.
  - reflexivity.
  - vm_compute. lia.
Defined.

Lemma getPath_terminates_witness :
  is_Some (getPath (cell_count grid_gap.2) 0 grid_gap.1 grid_gap.2 0%nat 8%nat)
  ∧ getPath 20 0 grid_gap.1 grid_gap.2 0%nat 8%nat
    = getPath (cell_count grid_gap.2) 0 grid_gap.1 grid_gap.2 0%nat 8%nat.
Proof.
  apply (getPath_terminates 10 0 grid_gap.1 grid_gap.2 (0, 0) (2, 2) 0%nat 8%nat 20%nat).
  - vm_compute. reflexivity.
  - reflexivity.
  - reflexivity.
  - vm_compute. lia.
Defined.

Lemma getPath_consecutive_adjacent_witness :
  ∃ σ' path,
    getPath 9 0 grid_gap.1 grid_gap.2 0%nat 8%nat = Some (2%nat, σ', path)
    ∧ ∀ k a b, path !! k = Some a → path !! S k = Some b →
        adjacent (coords σ' a) (coords σ' b).
Proof.
  apply (getPath_consecutive_adjacent 10 0 grid_gap.1 grid_gap.2 (0, 0) (2, 2)
           0%nat 8%nat 9%nat).
  - vm_compute. reflexivity.
  - reflexivity.
  - reflexivity.
  - vm_compute. lia.
Defined.

Lemma getPath_same_cell_witness :
  MazeUnit.isBlock (grid_blocked_start.1 0%nat) = true
  ∧ ∃ σ', getPath 1 0 grid_blocked_start.1 grid_blocked_start.2 0%nat 0%nat
          = Some (2%nat, σ', [0%nat]).
Proof.
  split; [reflexivity|].
  apply (getPath_same_cell 10 0 grid_blocked_start.1 grid_blocked_start.2 (0, 0) 0%nat 1%nat).
  - vm_compute. reflexivity.
  - reflexivity.
  - lia.
Defined.

Lemma getPath_variants_agree_witness :
  ∃ σ' path,
    getPath 9 0 grid_gap.1 grid_gap.2 0%nat 8%nat = Some (2%nat, σ', path)
    ∧ Native.getPath 9 grid_gap.1 grid_gap.2 0%nat 8%nat = Some path.
Proof.
  apply (getPath_variants_agree 10 0 grid_gap.1 grid_gap.2 (0, 0) (2, 2) 0%nat 8%nat 9%nat).
  - vm_compute. reflexivity.
  - reflexivity.
  - reflexivity.
  - vm_compute. lia.
Defined.

Lemma getPath_deterministic_witness :
  ∃ σ1' σ2' path,
    getPath 9 0 grid_gap.1 grid_gap.2 0%nat 8%nat = Some (2%nat, σ1', path)
    ∧ getPath 9 2 grid_gap_searched grid_gap.2 0%nat 8%nat = Some (4%nat, σ2', path).
Proof.
  apply (getPath_deterministic 10 0 2 grid_gap.1 grid_gap_searched grid_gap.2
           (0, 0) (2, 2) 0%nat 8%nat 9%nat).
  - vm_compute. reflexivity.
  - vm_compute. reflexivity.
  - vm_compute. reflexivity.
  - reflexivity.
  - reflexivity.
  - vm_compute. lia.
Defined.

Lemma getPath_unblocked_witness :
  ∃ σ' path,
    getPath 2 0 grid_blocked_start.1 grid_blocked_start.2 0%nat 1%nat
    = Some (2%nat, σ', path)
    ∧ ∀ k l, path !! k = Some l → (S k < length path)%nat →
        MazeUnit.isBlock (σ' l) = false.
Proof.
  apply (getPath_unblocked 10 0 grid_blocked_start.1 grid_blocked_start.2 (0, 0) (1, 0)
           0%nat 1%nat 2%nat).
  - vm_compute. reflexivity.
  - reflexivity.
  - reflexivity.
  - vm_compute. lia.
Defined.

(** * Further properties of the code *)

(** ** Plain objects keyed by ids *)

Lemma obj_get_None {A} k (o : list (string * A)) : obj_get k o = None ↔ k ∉ o.*1.
Proof.
  induction o as [|[k' v] o IH]; simpl.
  - split; [intros _ ?%elem_of_nil|]; done.
  - case_decide as Hk; [subst; split; [done|intros []; left]|].
    rewrite IH, not_elem_of_cons. naive_solver.
Qed.

Lemma obj_get_Some {A} k v (o : list (string * A)) :
  NoDup o.*1 → obj_get k o = Some v ↔ (k, v) ∈ o.
Proof.
  induction o as [|[k' v'] o IH]; simpl; intros Hnd.
  - split; [done|intros ?%elem_of_nil]; done.
  - apply list.NoDup_cons in Hnd as [Hk' Hnd]. rewrite elem_of_cons.
    case_decide as Hk.
    + subst k'. split; [intros [= ->]; by left|].
      intros [[= ->]|Hin]; [done|]. destruct Hk'.
      apply list_elem_of_fmap. by exists (k, v).
    + rewrite IH by done. naive_solver.
Qed.

Lemma obj_set_keys {A} k v (o : list (string * A)) :
  (obj_set k v o).*1 = if decide (k ∈ o.*1) then o.*1 else o.*1 ++ [k].
Proof.
  induction o as [|[k' v'] o IH].
  - destruct (decide _) as [H|H]; [by apply elem_of_nil in H|done].
  - rewrite obj_set_cons, fmap_cons. simpl. destruct (decide (k = k')) as [->|Hk].
    + by rewrite decide_True by left.
    + rewrite fmap_cons, IH. simpl. destruct (decide (k ∈ o.*1)).
      * by rewrite decide_True by (by right).
      * by rewrite decide_False by (rewrite not_elem_of_cons; done).
Qed.

Lemma obj_set_elem_of {A} k v (o : list (string * A)) kv :
  kv ∈ obj_set k v o → kv = (k, v) ∨ kv ∈ o.
Proof.
  induction o as [|[k' v'] o IH]; simpl.
  - rewrite list_elem_of_singleton. by left.
  - case_decide as Hk; rewrite !elem_of_cons; naive_solver.
Qed.

Lemma obj_delete_keys {A} k (o : list (string * A)) :
  (obj_delete k o).*1 = filter (λ k', k' ≠ k) o.*1.
Proof.
  unfold obj_delete. induction o as [|[k' v'] o IH]; [done|]. rewrite fmap_cons.
  destruct (decide (k' = k)) as [->|Hne].
  - rewrite !filter_cons_False by naive_solver. done.
  - rewrite !filter_cons_True by done. by rewrite fmap_cons, IH.
Qed.

Lemma obj_delete_absent {A} k (o : list (string * A)) :
  k ∉ o.*1 → obj_delete k o = o.
Proof.
  unfold obj_delete. induction o as [|[k' v] o IH]; [done|].
  rewrite fmap_cons, not_elem_of_cons. intros [Hk Ho].
  rewrite filter_cons_True by (simpl; intros ->; done). f_equal. by apply IH.
Qed.

Lemma obj_delete_set {A} k (v : A) (o : list (string * A)) :
  k ∉ o.*1 → obj_delete k (obj_set k v o) = o.
Proof.
  unfold obj_delete. induction o as [|[k' v'] o IH].
  - intros _. simpl. by rewrite filter_cons_False, filter_nil by naive_solver.
  - rewrite fmap_cons, not_elem_of_cons. intros [Hk Ho].
    rewrite obj_set_cons, decide_False by done.
    rewrite filter_cons_True by (simpl; intros ->; done). f_equal. by apply IH.
Qed.

Lemma length_filter_key (l : list string) k :
  NoDup l →
  length (filter (λ k', k' ≠ k) l) = if decide (k ∈ l) then pred (length l) else length l.
Proof.
  induction 1 as [|p l Hp Hl IH]; [done|].
  destruct (decide (p = k)) as [->|Hne].
  - rewrite filter_cons_False by naive_solver. rewrite decide_True by left. simpl.
    rewrite IH. by rewrite decide_False.
  - rewrite filter_cons_True by done. simpl. rewrite IH.
    destruct (decide (k ∈ l)) as [Hin|Hin].
    + rewrite decide_True by (by right). destruct l; [by apply elem_of_nil in Hin|done].
    + rewrite decide_False by (rewrite not_elem_of_cons; naive_solver). done.
Qed.

Lemma obj_values {A} (o : list (string * A)) :
  NoDup o.*1 → omap (λ k, obj_get k o) (obj_keys o) = o.*2.
Proof.
  intros Hnd. unfold obj_keys.
  assert (∀ o' : list (string * A), (∀ kv, kv ∈ o' → kv ∈ o) →
    omap (λ k, obj_get k o) o'.*1 = o'.*2) as H.
  { induction o' as [|[k v] o' IH]; intros Hsub; [done|]. simpl.
    rewrite (proj2 (obj_get_Some k v o Hnd)) by (apply Hsub; left). simpl.
    f_equal. apply IH. intros kv ?. apply Hsub. by right. }
  by apply H.
Qed.

Lemma no_colon_app_colon s r : ¬ no_colon (s +:+ ":" +:+ r).
Proof. induction s as [|c s IH]; simpl; [by intros [? _]|]. intros [_ ?]. by apply IH. Qed.

Lemma generateMaze_plain_ids width height unitSize rnd :
  plain_ids (generateMaze width height unitSize rnd).1.
Proof. intros l. apply no_colon_app_colon. Qed.

(** ** [MySet] *)

(** The properties of [MySet] and of [buildPath] below are stated for
    stores whose ids are plain ([plain_ids]), the ids for which the
    record of a [MySet] and the object [from] behave like
    dictionaries. *)

Lemma MySet_has_spec σ s item :
  MySet_has σ s item = bool_decide (getId σ item ∈ (record s).*1).
Proof.
  unfold MySet_has, MySet_get. apply bool_decide_ext.
  rewrite obj_get_None. split; [apply dec_stable|naive_solver].
Qed.

Lemma MySet_new_inv σ arr : MySet_inv σ (MySet_new σ arr).
Proof.
  unfold MySet_new.
  assert (∀ r : list (string * loc),
    NoDup r.*1 → (∀ k l, (k, l) ∈ r → k = getId σ l) →
    let r' := fold_left (λ r a, obj_set (getId σ a) a r) arr r in
    NoDup r'.*1 ∧ ∀ k l, (k, l) ∈ r' → k = getId σ l) as H.
  { induction arr as [|a arr IH]; intros r Hnd Hids; [done|]. simpl. apply IH.
    - rewrite obj_set_keys. case_decide; [done|].
      apply list.NoDup_app. split_and!; [done| |apply NoDup_singleton].
      intros k ? ->%list_elem_of_singleton. done.
    - intros k l [[= -> ->]|?]%obj_set_elem_of; [done|eauto]. }
  destruct (H []) as [Hnd Hids]; [constructor|by intros ?? ?%elem_of_nil|].
  split; simpl; [done| |done]. unfold obj_keys. by rewrite length_fmap.
Qed.

Lemma MySet_add_inv σ s item : MySet_inv σ s → MySet_inv σ (MySet_add σ s item).
Proof.
  intros [Hnd Hsz Hids]. split; simpl.
  - rewrite obj_set_keys. case_decide; [done|].
    apply list.NoDup_app. split_and!; [done| |apply NoDup_singleton].
    intros k ? ->%list_elem_of_singleton. done.
  - rewrite MySet_has_spec, Hsz.
    rewrite <- (length_fmap fst (obj_set _ _ _)), obj_set_keys, <- (length_fmap fst (record s)).
    case_bool_decide; [by rewrite decide_True|rewrite decide_False by done].
    rewrite length_app. simpl. lia.
  - intros k l [[= -> ->]|?]%obj_set_elem_of; [done|eauto].
Qed.

Lemma MySet_delete_inv σ s item : MySet_inv σ s → MySet_inv σ (MySet_delete σ s item).
Proof.
  intros [Hnd Hsz Hids]. split; simpl.
  - rewrite obj_delete_keys. by apply list.NoDup_filter.
  - rewrite MySet_has_spec, Hsz.
    rewrite <- (length_fmap fst (obj_delete _ _)), obj_delete_keys, length_filter_key by done.
    rewrite <- (length_fmap fst (record s)).
    case_bool_decide as Hin; [rewrite decide_True by done|by rewrite decide_False].
    destruct ((record s).*1); [by apply elem_of_nil in Hin|]. simpl. lia.
  - intros k l [_ ?]%list_elem_of_filter. eauto.
Qed.

Lemma MySet_run_inv σ arr ops : MySet_inv σ (MySet_run σ arr ops).
Proof.
  unfold MySet_run. generalize (MySet_new_inv σ arr). generalize (MySet_new σ arr).
  induction ops as [|[a|a] ops IH]; intros s Hs; [done|..]; simpl; apply IH.
  - by apply MySet_add_inv.
  - by apply MySet_delete_inv.
Qed.

Lemma select_elem_of_units fS σ (openUnits : list loc) current :
  select fS σ openUnits = Some current → current ∈ openUnits.
Proof.
  unfold select. destruct openUnits as [|c l]; [done|].
  intros Hsel. apply (inj Some) in Hsel. subst current.
  assert (∀ (l' : list loc) c', c' ∈ c :: l → (∀ u, u ∈ l' → u ∈ c :: l) →
    fold_left (λ current u,
      if lt_undef (MyWeakMap_get fS σ u) (MyWeakMap_get fS σ current) then u else current)
      l' c' ∈ c :: l) as H.
  { induction l' as [|u l' IH]; intros c' Hc' Hl'; [done|]. simpl.
    case_match; apply IH; set_solver. }
  apply (H (c :: l) c); [left|done].
Qed.

(** X1. However a [MySet] was built from [new MySet(getId, arr)] by
    [add] and [delete], its [size] is the number of its [values()]. *)
Theorem MySet_size_values σ arr ops :
  plain_ids σ →
  size (MySet_run σ arr ops) = Z.of_nat (length (MySet_values (MySet_run σ arr ops))).
Proof.
  intros _. destruct (MySet_run_inv σ arr ops) as [Hnd Hsz Hids].
  unfold MySet_values. by rewrite obj_values, length_fmap.
Qed.

(** X2. A [MySet] holds one item for each id: the ids of its
    [values()] differ from one another, and [has(item)] holds exactly
    when a value has the id of [item], which [get(item)] then
    returns. *)
Theorem MySet_values_ids σ arr ops :
  plain_ids σ →
  NoDup (getId σ <$> MySet_values (MySet_run σ arr ops))
  ∧ ∀ item, MySet_has σ (MySet_run σ arr ops) item = true
      ↔ ∃ v, v ∈ MySet_values (MySet_run σ arr ops) ∧ getId σ v = getId σ item
             ∧ MySet_get σ (MySet_run σ arr ops) item = Some v.
Proof.
  intros _. destruct (MySet_run_inv σ arr ops) as [Hnd Hsz Hids].
  set (s := MySet_run σ arr ops) in *.
  unfold MySet_values. rewrite obj_values by done.
  assert (getId σ <$> (record s).*2 = (record s).*1) as Hk.
  { rewrite <- list_fmap_compose. apply list_fmap_ext. intros i [k l] Hkl. simpl.
    symmetry. by eapply Hids, list_elem_of_lookup_2. }
  split; [by rewrite Hk|]. intros item.
  rewrite MySet_has_spec, bool_decide_eq_true. unfold MySet_get. split.
  - intros ([k v] & Hkv & Hin)%list_elem_of_fmap. simpl in *.
    exists v. split_and!.
    + apply list_elem_of_fmap. by exists (k, v).
    + rewrite <- (Hids _ _ Hin). done.
    + apply obj_get_Some; [done|]. by rewrite Hkv.
  - intros (v & _ & _ & Hget). apply dec_stable. intros Hn%obj_get_None. congruence.
Qed.

(** X3. Membership goes by id: after [add(a)] the set has [b] when [b]
    has the id of [a] or was there before; after [delete(a)] it has [b]
    when [b] was there and has another id than [a]. *)
Theorem MySet_has_add_delete σ s a b :
  plain_ids σ →
  MySet_has σ (MySet_add σ s a) b = bool_decide (getId σ a = getId σ b) || MySet_has σ s b
  ∧ MySet_has σ (MySet_delete σ s a) b
    = bool_decide (getId σ a ≠ getId σ b) && MySet_has σ s b.
Proof.
  intros _. rewrite !MySet_has_spec. simpl. rewrite obj_set_keys, obj_delete_keys. split.
  - apply eq_true_iff_eq. rewrite orb_true_iff, !bool_decide_eq_true.
    case_decide as Ha; [|rewrite elem_of_app, list_elem_of_singleton; naive_solver].
    split; [by right|]. intros [<-|]; done.
  - apply eq_true_iff_eq. rewrite andb_true_iff, !bool_decide_eq_true.
    rewrite list_elem_of_filter. naive_solver.
Qed.

(** X4. On a set that does not have [a], [delete(a)] changes nothing,
    record and [size] included, and [add(a)] followed by [delete(a)]
    gives the set back. *)
Theorem MySet_delete_absent σ s a :
  plain_ids σ →
  MySet_has σ s a = false →
  MySet_delete σ s a = s ∧ MySet_delete σ (MySet_add σ s a) a = s.
Proof.
  intros _ Hhas. pose proof Hhas as Hk.
  rewrite MySet_has_spec in Hk. apply bool_decide_eq_false in Hk.
  destruct s as [r n]. unfold MySet_delete, MySet_add. simpl in *. split.
  - by rewrite Hhas, obj_delete_absent.
  - rewrite obj_delete_set by done. f_equal. rewrite Hhas.
    rewrite MySet_has_spec. simpl. rewrite obj_set_keys, decide_False by done.
    rewrite bool_decide_eq_true_2; [lia|].
    apply elem_of_app. right. by apply list_elem_of_singleton.
Qed.

(** X5. While [openSet.size !== 0] holds, the choice of [current]
    yields a member of the set, never [undefined]. *)
Theorem select_defined fS σ arr ops :
  plain_ids σ →
  size (MySet_run σ arr ops) ≠ 0 →
  ∃ current, select fS σ (MySet_values (MySet_run σ arr ops)) = Some current
             ∧ current ∈ MySet_values (MySet_run σ arr ops).
Proof.
  intros _ Hsize. destruct (MySet_run_inv σ arr ops) as [Hnd Hsz Hids].
  destruct (select fS σ (MySet_values (MySet_run σ arr ops))) as [current|] eqn:Hsel.
  - exists current. split; [done|]. by eapply select_elem_of_units.
  - exfalso. apply Hsize. rewrite Hsz. unfold select in Hsel.
    destruct (MySet_values (MySet_run σ arr ops)) as [|c l] eqn:Hv; [|done].
    unfold MySet_values in Hv. rewrite obj_values in Hv by done.
    apply fmap_nil_inv in Hv. by rewrite Hv.
Qed.

(** ** [MyWeakMap] *)

(** X7. Two [MyWeakMap] instances never share an entry, nor do two
    objects: after [set(obj, v)] on the instance numbered [n], the
    instance numbered [n'] holds [v] for [obj'] when [n' = n] and
    [obj' = obj], and what it held before otherwise; [mapGet] answers
    accordingly. *)
Theorem MyWeakMap_get_set n n' obj obj' v σ :
  MyWeakMap_get (MyWeakMap_new n').1 (MyWeakMap_set (MyWeakMap_new n).1 obj v σ) obj'
  = (if bool_decide (n' = n ∧ obj' = obj) then Some v
     else MyWeakMap_get (MyWeakMap_new n').1 σ obj')
  ∧ mapGet (MyWeakMap_new n').1 (MyWeakMap_set (MyWeakMap_new n).1 obj v σ) obj'
    = (if bool_decide (n' = n ∧ obj' = obj) then v
       else mapGet (MyWeakMap_new n').1 σ obj').
Proof.
  assert (MyWeakMap_get (MyWeakMap_new n').1 (MyWeakMap_set (MyWeakMap_new n).1 obj v σ) obj'
    = if bool_decide (n' = n ∧ obj' = obj) then Some v
      else MyWeakMap_get (MyWeakMap_new n').1 σ obj') as Hget.
  { case_bool_decide as H.
    - destruct H as [-> ->]. apply get_set_eq.
    - destruct (decide (obj = obj')) as [->|Hne]; [|by apply get_set_ne_loc].
      apply get_set_ne_key. simpl. intros ?%wm_key_inj. naive_solver. }
  split; [done|]. unfold mapGet, MyWeakMap_has. rewrite Hget.
  case_bool_decide; [|done]. by rewrite bool_decide_eq_true_2.
Qed.

(** ** [buildPath] *)

Lemma buildPath_loop_linked fuel σ from : ∀ u acc path,
  buildPath_loop fuel σ from (Some u) (acc ++ [u]) = Some path →
  ∃ l, linked σ from u l ∧ path = acc ++ l.
Proof.
  induction fuel as [|fuel IH]; intros u acc path; [done|]. simpl.
  destruct (from !! MazeUnit.id (σ u)) as [p|] eqn:Hp.
  - intros (l & Hl & ->)%IH. exists (u :: l). split; [by econstructor|].
    by rewrite <- app_assoc.
  - destruct fuel; intros [= <-]; exists [u]; (split; [by constructor|done]).
Qed.

Lemma linked_buildPath_loop fuel σ from : ∀ u l acc,
  linked σ from u l → (length l ≤ fuel)%nat →
  buildPath_loop fuel σ from (Some u) (acc ++ [u]) = Some (acc ++ l).
Proof.
  induction fuel as [|fuel IH]; intros u l acc Hl Hlen.
  - destruct Hl; simpl in Hlen; lia.
  - simpl. destruct Hl as [u Hu|u p l Hu Hl].
    + rewrite Hu. by destruct fuel.
    + rewrite Hu. simpl in Hlen. rewrite (IH p l) by (done || lia).
      by rewrite <- app_assoc.
Qed.

Lemma linked_head σ from u l : linked σ from u l → list.head l = Some u.
Proof. by intros []. Qed.

Lemma linked_lookup σ from u l k a b :
  linked σ from u l → l !! k = Some a → l !! S k = Some b →
  from !! MazeUnit.id (σ a) = Some b.
Proof.
  intros Hl. revert k. induction Hl as [u Hu|u p l Hu Hl IH]; intros k Ha Hb.
  - by destruct k.
  - destruct k as [|k]; [|by eapply IH]. simpl in *. simplify_eq.
    apply linked_head in Hl. destruct l; simplify_eq/=. done.
Qed.

Lemma linked_last σ from u l :
  linked σ from u l → ∃ z, list.last l = Some z ∧ from !! MazeUnit.id (σ z) = None.
Proof.
  induction 1 as [u Hu|u p l Hu Hl (z & Hz & Hnone)]; [by exists u|].
  exists z. split; [|done]. destruct l; [done|]. done.
Qed.

(** X8. What [buildPath] returns starts with [unit]; each cell is
    followed by the one [from] links its id to; the last cell has no
    link; and as many iterations as the result has cells suffice. *)
Theorem buildPath_links fuel σ from unit path :
  plain_ids σ →
  buildPath fuel σ from unit = Some path →
  list.head path = Some unit
  ∧ (∀ k a b, path !! k = Some a → path !! S k = Some b →
       from !! MazeUnit.id (σ a) = Some b)
  ∧ (∃ z, list.last path = Some z ∧ from !! MazeUnit.id (σ z) = None)
  ∧ ∀ fuel', (length path ≤ fuel')%nat → buildPath fuel' σ from unit = Some path.
Proof.
  unfold buildPath. intros _ (l & Hl & ->)%(buildPath_loop_linked fuel σ from unit []).
  simpl. split_and!.
  - by eapply linked_head.
  - intros k a b. by eapply linked_lookup.
  - by eapply linked_last.
  - intros fuel' Hlen. by apply (linked_buildPath_loop fuel' σ from unit l []).
Qed.

(** X9. When the links never reach a cell without a link (when they run
    in a circle, say), the loop of [buildPath] does not end, however
    many iterations it is given. *)
Theorem buildPath_endless σ from (P : loc → Prop) unit :
  plain_ids σ →
  P unit →
  (∀ u, P u → ∃ p, from !! MazeUnit.id (σ u) = Some p ∧ P p) →
  ∀ fuel, buildPath fuel σ from unit = None.
Proof.
  intros _ Hu Hstep fuel. unfold buildPath. generalize [unit]. revert unit Hu.
  induction fuel as [|fuel IH]; intros u Hu acc; [done|]. simpl.
  destruct (Hstep u Hu) as (p & -> & Hp). by apply IH.
Qed.

(** ** [cost], [neighbors] and the ids *)



(** X12. Between two cells of a well-formed grid [cost] is [unitSize]
    times the Manhattan distance of their grid positions, in both
    variants; between 4-adjacent cells it is [unitSize]. *)
Theorem cost_on_grid unitSize count σ maze p q a b :
  wf unitSize count σ maze = true →
  getMazeUnit maze p.1 p.2 = Some a →
  getMazeUnit maze q.1 q.2 = Some b →
  cost σ a b = unitSize * (Z.abs (p.1 - q.1) + Z.abs (p.2 - q.2))
  ∧ Native.cost σ a b = cost σ a b
  ∧ (adjacent p q → cost σ a b = unitSize).
Proof.
  intros Hwf Ha Hb. pose proof (wf_grid_ok _ _ _ _ Hwf) as Hok.
  destruct (loc_at_Some _ σ maze p _ Hok Ha) as [Hp <-].
  destruct (loc_at_Some _ σ maze q _ Hok Hb) as [Hq <-].
  change (Native.cost σ (loc_at maze p) (loc_at maze q))
    with (cost σ (loc_at maze p) (loc_at maze q)).
  rewrite (cost_sim _ maze σ p q Hok Hp Hq), cost_manh by (pose proof (ok_unit _ _ _ Hok); lia).
  unfold Abs.manh, adjacent. simpl. split_and!; [done|done|]. intros ->. lia.
Qed.

(** X13. The neighbours of [(i, j)] are the unblocked cells that the
    maze holds at the 4-adjacent positions, at most four, and nothing
    else: no cell outside the maze, no blocked cell, no diagonal one. *)
Theorem neighbors_spec σ maze i j :
  (length (neighbors σ maze i j) ≤ 4)%nat
  ∧ ∀ l, l ∈ neighbors σ maze i j ↔
      ∃ p, adjacent (i, j) p ∧ getMazeUnit maze p.1 p.2 = Some l
           ∧ MazeUnit.isBlock (σ l) = false.
Proof.
  unfold neighbors. split.
  - etrans; [apply length_filter|]. simpl. repeat case_match; simpl; lia.
  - intros l. rewrite list_elem_of_filter, list_elem_of_omap.
    change [(i - 1, j); (i, j - 1); (i, j + 1); (i + 1, j)] with (Abs.candidates (i, j)).
    setoid_rewrite elem_of_candidates. naive_solver.
Qed.

Lemma elem_of_concat_getMazeUnit (maze : list (list loc)) l :
  l ∈ concat maze → ∃ p : Z * Z, getMazeUnit maze p.1 p.2 = Some l.
Proof.
  intros (row & Hrow & Hl)%list_elem_of_In%in_concat.
  apply list_elem_of_In, list_elem_of_lookup in Hrow as [a Ha].
  apply list_elem_of_In, list_elem_of_lookup in Hl as [b Hb].
  exists (Z.of_nat a, Z.of_nat b). apply getMazeUnit_Some. simpl.
  rewrite !Nat2Z.id. split_and!; [lia..|]. eauto.
Qed.

(** X14. On a well-formed grid the ids tell the cells apart: two cells
    with the same [id] (or the same [x + ":" + y], the id of the variant
    on native collections) are the same object. *)
Theorem getId_injective unitSize count σ maze a b :
  wf unitSize count σ maze = true →
  a ∈ concat maze → b ∈ concat maze →
  (getId σ a = getId σ b → a = b) ∧ (Native.getId σ a = Native.getId σ b → a = b).
Proof.
  intros Hwf [p Ha]%elem_of_concat_getMazeUnit [q Hb]%elem_of_concat_getMazeUnit.
  pose proof (wf_grid_ok _ _ _ _ Hwf) as Hok.
  destruct (loc_at_Some _ σ maze p _ Hok Ha) as [Hp <-].
  destruct (loc_at_Some _ σ maze q _ Hok Hb) as [Hq <-].
  rewrite !(getId_sim _ maze σ _ Hok), !(native_getId_sim _ maze σ Hok) by done.
  split; intros Heq; f_equal; apply dec_stable; intros Hne.
  - by apply (mkId_ne p q).
  - by apply (xy_key_ne _ maze σ Hok p q).
Qed.

(** ** [generateMaze] and [getStartPoint] *)

Lemma zlookup_lt {A} (l : list A) ix :
  0 ≤ ix < Z.of_nat (length l) → ∃ v, zlookup l ix = Some v ∧ l !! Z.to_nat ix = Some v.
Proof.
  intros Hix. destruct (lookup_lt_is_Some_2 l (Z.to_nat ix)) as [v Hv]; [lia|].
  exists v. split; [|done]. apply zlookup_Some. split; [lia|done].
Qed.

Lemma zlookup_ge {A} (l : list A) ix : Z.of_nat (length l) ≤ ix → zlookup l ix = None.
Proof.
  intros Hix. destruct (zlookup l ix) as [v|] eqn:E; [|done].
  apply zlookup_Some in E as [_ ?%lookup_lt_Some]. lia.
Qed.

Lemma getMazeUnit_rect (maze : list (list loc)) rows a b :
  Forall (λ row, length row = rows) maze →
  0 ≤ a < Z.of_nat (length maze) → 0 ≤ b < Z.of_nat rows →
  ∃ l, getMazeUnit maze a b = Some l ∧ l ∈ concat maze.
Proof.
  intros Hrect Ha Hb. destruct (zlookup_lt maze a Ha) as (row & Hrow & Hrow').
  pose proof (proj1 (Forall_lookup _ _) Hrect _ _ Hrow') as Hlen. simpl in Hlen.
  destruct (zlookup_lt row b) as (l & Hl & _); [lia|].
  exists l. assert (getMazeUnit maze a b = Some l) as H.
  { unfold getMazeUnit. by rewrite Hrow. }
  split; [done|]. by apply list_elem_of_In, (in_concat_getMazeUnit maze a b).
Qed.

(** X15. For a positive cell size [generateMaze] builds
    [floor(width / unitSize)] columns of [floor(height / unitSize)]
    cells each (none at all when [width < unitSize]); the cell at
    [(a, b)] carries its position, its id [a:b], its pixel origin and
    size, the flag that was drawn for it, and nothing else; the grid is
    well formed. *)
Theorem generateMaze_grid width height unitSize rnd :
  0 < unitSize →
  let σ := (generateMaze width height unitSize rnd).1 in
  let maze := (generateMaze width height unitSize rnd).2 in
  length maze = Z.to_nat (width `div` unitSize)
  ∧ Forall (λ row, length row = Z.to_nat (height `div` unitSize)) maze
  ∧ (width < unitSize → maze = [])
  ∧ (∀ a b l, getMazeUnit maze a b = Some l →
       σ l = MazeUnit.mk (a * unitSize) (b * unitSize) unitSize unitSize a b
               (mkId a b) (rnd a b) ∅)
  ∧ wf unitSize 0 σ maze = true.
Proof.
  intros Hu σ maze. split_and!.
  - unfold maze, generateMaze. simpl. by rewrite length_fmap, length_seq.
  - unfold maze, generateMaze. simpl. apply list.Forall_forall.
    intros row (a & -> & _)%list_elem_of_fmap. by rewrite length_fmap, length_seq.
  - intros Hw. apply nil_length_inv. unfold maze, generateMaze. simpl.
    rewrite length_fmap, length_seq.
    assert (width `div` unitSize ≤ 0); [|lia].
    destruct (decide (0 ≤ width)); [rewrite Z.div_small; lia|].
    apply Z.lt_le_incl, Z.div_lt_upper_bound; lia.
  - intros a b l (Ha & Hb & row & Hrow & Hl)%getMazeUnit_Some.
    unfold maze, σ, generateMaze in *. simpl in *.
    set (Y := Z.to_nat (height `div` unitSize)) in *.
    apply list_lookup_fmap_Some in Hrow as (a' & -> & Ha').
    apply lookup_seq in Ha' as [-> Ha'].
    apply list_lookup_fmap_Some in Hl as (b' & -> & Hb').
    apply lookup_seq in Hb' as [-> Hb']. simpl in *.
    unfold generateMaze_cell.
    rewrite Nat.div_add_l, Nat.div_small, Nat.add_0_r by lia.
    rewrite Nat.add_comm, Nat.Div0.mod_add, Nat.mod_small by lia.
    by rewrite !Z2Nat.id by lia.
  - by apply generateMaze_wf.
Qed.

(** X16. On a square grid (as many rows as columns, and at least one)
    [getStartPoint] returns a cell of the grid, whatever the two random
    indices are. *)
Theorem getStartPoint_square maze rnd_i rnd_j :
  maze ≠ [] →
  Forall (λ row, length row = length maze) maze →
  (∀ n, 0 < n → 0 ≤ rnd_i n < n) →
  (∀ n, 0 < n → 0 ≤ rnd_j n < n) →
  ∃ l, getStartPoint maze rnd_i rnd_j = Normal (Some l) ∧ l ∈ concat maze.
Proof.
  intros Hne Hrect Hi Hj. unfold getStartPoint.
  destruct maze as [|row0 m] eqn:Em; [done|]. rewrite <- Em in *. 
  assert (maze !! 0%nat = Some row0) as -> by (by rewrite Em).
  assert (length row0 = length maze) as ->.
  { apply (proj1 (Forall_lookup _ _) Hrect 0%nat). by rewrite Em. }
  assert (0 < Z.of_nat (length maze)) as Hpos by (rewrite Em; simpl; lia).
  destruct (getMazeUnit_rect maze (length maze) (rnd_i (Z.of_nat (length maze)))
              (rnd_j (Z.of_nat (length maze))) Hrect) as (l & Hl & Hin); [by apply Hi|by apply Hj|].
  exists l. split; [|done]. unfold getMazeUnit in Hl.
  destruct (zlookup maze _) as [row|]; [|done]. by rewrite Hl.
Qed.

(** X17. On a grid that is not square [getStartPoint] can fail, since it
    draws the column index below the number of rows and the row index
    below the number of columns: with more rows than columns the
    largest column index makes it throw, with more columns than rows the
    largest row index makes it return [undefined]. *)
Theorem getStartPoint_oblong maze rows :
  maze ≠ [] →
  Forall (λ row, length row = rows) maze →
  ((length maze < rows)%nat → getStartPoint maze (λ n, n - 1) (λ _, 0) = TypeError)
  ∧ ((rows < length maze)%nat → getStartPoint maze (λ _, 0) (λ n, n - 1) = Normal None).
Proof.
  intros Hne Hrect. unfold getStartPoint.
  destruct maze as [|row0 m] eqn:Em; [done|]. rewrite <- Em in *.
  assert (maze !! 0%nat = Some row0) as Hrow0 by (by rewrite Em). rewrite Hrow0.
  assert (length row0 = rows) as ->.
  { by apply (proj1 (Forall_lookup _ _) Hrect 0%nat). }
  split; intros Hlt.
  - rewrite zlookup_ge by lia. done.
  - rewrite (proj2 (zlookup_Some maze 0 row0)) by done. f_equal. apply zlookup_ge.
    pose proof (proj1 (Forall_lookup _ _) Hrect 0%nat _ Hrow0) as Hlen. simpl in Hlen. lia.
Qed.

(** ** The state a search ends in *)

Lemma chain_inj (from : gmap (Z * Z) (Z * Z)) (p : Z * Z) (l l' : list (Z * Z)) :
  Abs.chain from p l → Abs.chain from p l' → l = l'.
Proof.
  intros H. revert l'. induction H; intros l' H'; inversion H'; simplify_eq; [done|].
  f_equal. eauto.
Qed.

Lemma abs_buildPath_loop_chain (fuel : nat) (from : gmap (Z * Z) (Z * Z)) : ∀ u acc path,
  Abs.buildPath_loop fuel from (Some u) (acc ++ [u]) = Some path →
  ∃ l, Abs.chain from u l ∧ path = acc ++ l.
Proof.
  induction fuel as [|fuel IH]; intros u acc path; [done|]. simpl.
  destruct (from !! u) as [p|] eqn:Hp.
  - intros (l & Hl & ->)%IH. exists (u :: l). split; [by econstructor|].
    by rewrite <- app_assoc.
  - destruct fuel; intros [= <-]; exists [u]; (split; [by constructor|done]).
Qed.

Section final.
Context (G : Abs.Grid) (maze : list (list loc)) (σ0 : loc → MazeUnit.t).
Context (gS fS : MyWeakMap) (s t : Z * Z).
Context (Hu : 0 < Abs.unitSize G) (Hs : Abs.ingrid G s) (Ht : Abs.ingrid G t).

(** The store a search returns is the store of a state that stands for
    a state of the search over coordinates in which the invariant holds;
    a non-empty result is the chain of links from the target, which is
    open in that state. *)
Lemma search_final fuel bfuel : ∀ c a σ' path,
  sim G maze σ0 gS fS c a → Abs.scoped G a → Abs.inv G s t None a →
  search fuel bfuel maze gS fS (loc_at maze t) c = Some (σ', path) →
  ∃ c' a', sim G maze σ0 gS fS c' a' ∧ Abs.inv G s t None a' ∧ store c' = σ'
    ∧ (path = []
       ∨ ∃ r, t ∈ Abs.open a' ∧ Abs.chain (Abs.from a') t r ∧ path = loc_at maze <$> r).
Proof.
  induction fuel as [|fuel IH]; intros c a σ' path Hsim Hsc I.
  - simpl. rewrite (sim_size _ _ _ _ _ _ _ Hsim).
    destruct (Abs.open a) as [|p l] eqn:Ho; simpl; [|done].
    intros [= <- <-]. exists c, a. split_and!; [done..|by left].
  - simpl. rewrite (sim_size _ _ _ _ _ _ _ Hsim).
    destruct (decide (Abs.open a = [])) as [Ho|Ho].
    { rewrite Ho. simpl. intros [= <- <-]. exists c, a. split_and!; [done..|by left]. }
    rewrite bool_decide_eq_true_2 by (destruct (Abs.open a); [done|simpl; lia]).
    unfold MySet_values. rewrite (sim_open _ _ _ _ _ _ _ Hsim), values_enc.
    rewrite (select_sim maze fS _ (Abs.f a)).
    2:{ intros p Hp. apply Hsim. by apply Hsc. }
    destruct (Abs.select (Abs.f a) (Abs.open a)) as [cur|] eqn:Hsel; simpl; [|done].
    assert (cur ∈ Abs.open a) as Hcur by (by eapply select_elem_of).
    assert (Abs.ingrid G cur) as Hcin by (by apply Hsc).
    pose proof (sim_grid _ _ _ _ _ _ _ Hsim) as Hok.
    destruct (ok_cell _ _ _ Hok cur Hcin) as (_ & _ & Hi & Hj & _).
    destruct (ok_cell _ _ _ Hok t Ht) as (_ & _ & Hi' & Hj' & _).
    rewrite (bool_decide_ext
      (MazeUnit.i (store c (loc_at maze cur)) = MazeUnit.i (store c (loc_at maze t))
       ∧ MazeUnit.j (store c (loc_at maze cur)) = MazeUnit.j (store c (loc_at maze t)))
      (cur = t)).
    2:{ rewrite Hi, Hj, Hi', Hj'. destruct cur, t; simpl. naive_solver. }
    case_bool_decide as Hct.
    + subst cur. unfold buildPath.
      pose proof (buildPath_loop_sim G maze bfuel (store c) (from c) (Abs.from a) Hok
        (sim_from _ _ _ _ _ _ _ Hsim) (Abs.scoped_from _ _ Hsc) (Some t) [t]) as Hb.
      simpl in Hb. rewrite Hb by (by intros ? [= <-]).
      destruct (Abs.buildPath_loop bfuel (Abs.from a) (Some t) [t]) as [r|] eqn:Hr;
        simpl; [|done].
      intros [= <- <-]. exists c, a. split_and!; [done..|]. right. exists r.
      apply (abs_buildPath_loop_chain bfuel (Abs.from a) t []) in Hr as (l & Hl & ->).
      done.
    + rewrite (neighbors_sim G maze) by done.
      destruct (sim_visit_all G maze σ0 gS fS _ (Abs.pop cur a) t cur (Abs.neighbors G cur)
                  (sim_pop G maze σ0 gS fS c a cur Hsim Hsc Hcur)) as (c' & -> & Hsim');
        [done..| |].
      { intros n Hn. by apply elem_of_neighbors in Hn as (_ & ? & _). }
      simpl. intros Hrun. eapply IH; [exact Hsim'| | |exact Hrun].
      * apply scoped_visit_all; [by apply scoped_pop|done|].
        intros n Hn. by apply elem_of_neighbors in Hn as (_ & ? & _).
      * by apply (inv_step G s t Hu Hs a cur).
Qed.

End final.

Lemma sim_init G maze σ count s t :
  grid_ok G σ maze →
  (∀ p n, Abs.ingrid G p → (count ≤ n)%nat →
     MazeUnit.props (σ (loc_at maze p)) !! wm_key n = None) →
  Abs.ingrid G s → Abs.ingrid G t →
  let gS := {| wm_id := wm_key count |} in
  let fS := {| wm_id := wm_key (S count) |} in
  let σ1 := MyWeakMap_set gS (loc_at maze s) (Fin 0) σ in
  sim G maze σ gS fS
    {| store := MyWeakMap_set fS (loc_at maze s)
                  (Fin (cost σ1 (loc_at maze s) (loc_at maze t))) σ1;
       closedSet := MySet_new σ []; openSet := MySet_new σ [loc_at maze s];
       from := ∅ |}
    (Abs.init G s t).
Proof.
  intros Hok Hfresh Hs Ht gS fS σ1.
  assert (wm_id gS ≠ wm_id fS) as Hkeys.
  { simpl. intros ?%wm_key_inj. lia. }
  assert (grid_ok G σ1 maze) as Hok1 by (by apply grid_ok_set).
  split; simpl.
  - by apply grid_ok_set.
  - apply frame_set; [|by right]. apply frame_set; [apply frame_refl|by left].
  - done.
  - unfold MySet_new. simpl. by rewrite (getId_sim G maze).
  - unfold MySet_new. simpl. done.
  - done.
  - intros p. by rewrite !lookup_empty.
  - intros p Hp. rewrite get_set_ne_key by done. unfold σ1.
    destruct (decide (p = s)) as [->|Hne].
    + by rewrite get_set_eq, lookup_singleton_eq.
    + rewrite get_set_ne_loc by (by intros ?%eq_sym%(loc_at_inj G σ)).
      rewrite lookup_singleton_ne by done. unfold MyWeakMap_get. simpl. by apply Hfresh.
  - intros p Hp. destruct (decide (p = s)) as [->|Hne].
    + by rewrite get_set_eq, lookup_singleton_eq, (cost_sim G maze).
    + rewrite get_set_ne_loc by (by intros ?%eq_sym%(loc_at_inj G σ)).
      unfold σ1. rewrite get_set_ne_loc by (by intros ?%eq_sym%(loc_at_inj G σ)).
      rewrite lookup_singleton_ne by done. unfold MyWeakMap_get. simpl.
      apply Hfresh; [done|lia].
Qed.

Lemma fmap_loc_at_inj G σ maze (r r' : list (Z * Z)) :
  grid_ok G σ maze →
  (∀ q, q ∈ r → Abs.ingrid G q) → (∀ q, q ∈ r' → Abs.ingrid G q) →
  loc_at maze <$> r = loc_at maze <$> r' → r = r'.
Proof.
  intros Hok. revert r'. induction r as [|p r IH]; intros [|p' r'] Hr Hr' Heq; try done.
  injection Heq as Hp Heq. f_equal.
  - apply (loc_at_inj G σ maze); [done|apply Hr; left|apply Hr'; left|done].
  - apply IH; [intros; apply Hr; by right|intros; apply Hr'; by right|done].
Qed.

Section bridge_final.
Context (unitSize : Z) (count : nat) (σ : loc → MazeUnit.t) (maze : list (list loc)).
Context (Hwf : wf unitSize count σ maze = true).
Local Abbreviation G := (grid_of unitSize σ maze).

(** A run of [getPath] with enough fuel: its result, and the scores it
    leaves on the start and on the target. *)
Lemma getPath_final s t startPoint targetPoint fuel :
  getMazeUnit maze s.1 s.2 = Some startPoint →
  getMazeUnit maze t.1 t.2 = Some targetPoint →
  (cell_count maze ≤ fuel)%nat →
  ∃ σ' r, getPath fuel count σ maze startPoint targetPoint
          = Some (S (S count), σ', loc_at maze <$> r)
    ∧ frame (wm_key count) (wm_key (S count)) σ σ'
    ∧ Abs.outcome G s t r
    ∧ NoDup r
    ∧ (∀ q, q ∈ r → Abs.ingrid G q)
    ∧ Abs.ingrid G s ∧ Abs.ingrid G t
    ∧ loc_at maze s = startPoint ∧ loc_at maze t = targetPoint
    ∧ MazeUnit.props (σ' startPoint) !! wm_key count = Some (Fin 0)
    ∧ MazeUnit.props (σ' startPoint) !! wm_key (S count)
      = Some (Fin (unitSize * Abs.manh s t))
    ∧ (r ≠ [] →
       MazeUnit.props (σ' targetPoint) !! wm_key count
         = Some (Fin (unitSize * (Z.of_nat (length r) - 1)))
       ∧ MazeUnit.props (σ' targetPoint) !! wm_key (S count)
         = Some (Fin (unitSize * (Z.of_nat (length r) - 1)))).
Proof.
  intros Hsp Htp Hfuel.
  destruct (getPath_run _ _ _ _ Hwf s t _ _ fuel Hsp Htp Hfuel)
    as (σ' & r & Hrun & Hfr & Hout & Hin & Hs & Ht & Habs & Hls & Hlt).
  pose proof (wf_grid_ok _ _ _ _ Hwf) as Hok.
  pose proof (ok_unit _ _ _ Hok) as Hu. simpl in Hu.
  exists σ', r. split; [done|]. split; [done|]. split; [done|].
  pose proof Hrun as Hsearch. rewrite <- Hls, <- Hlt in Hsearch.
  unfold getPath in Hsearch. simpl in Hsearch.
  match type of Hsearch with
  | (?x ≫= _) = _ => destruct x as [[σ1 p1]|] eqn:Hs1; [|done]
  end.
  simpl in Hsearch. injection Hsearch as -> ->.
  apply (search_final G maze σ _ _ s t Hu Hs Ht) with (a := Abs.init G s t) in Hs1
    as (c' & a' & Hsim & I & <- & Hcase).
  2:{ apply sim_init; [done| |done|done].
      intros p n Hp Hn. by apply (wf_fresh _ _ _ _ Hwf). }
  2:{ by apply scoped_init. }
  2:{ by apply inv_init. }
  assert (NoDup r ∧ (r ≠ [] → Abs.g a' !! t = Some (unitSize * (Z.of_nat (length r) - 1))))
    as [Hnd Hgt].
  { destruct Hcase as [Hnil|(r' & Hopen & Hch & Heq)].
    - apply fmap_nil_inv in Hnil as ->. split; [constructor|done].
    - destruct (Abs.inv_reach _ _ _ _ _ I t (or_introl Hopen)) as (k & Hw & Hg).
      destruct (inv_chain G s t Hu None a' k t I (or_introl Hopen) Hg)
        as (l & Hl & _ & Hlen & _).
      destruct (inv_chain_NoDup G s t Hu Hs None a' k t l I (or_introl Hopen) Hg Hl)
        as [Hnd Hlin].
      rewrite (chain_inj _ _ _ _ Hch Hl) in Heq.
      apply (fmap_loc_at_inj G σ maze) in Heq; [|done..]. subst r.
      split; [done|]. intros _. rewrite Hg, Hlen. simpl. do 2 f_equal. lia. }
  split; [done|]. split; [done|]. split; [done|]. split; [done|].
  split; [done|]. split; [done|].
  pose proof (sim_g _ _ _ _ _ _ _ Hsim) as Hg. pose proof (sim_f _ _ _ _ _ _ _ Hsim) as Hf.
  unfold MyWeakMap_get in Hg, Hf. simpl in Hg, Hf.
  split_and!.
  - rewrite <- Hls, (Hg s Hs), (Abs.inv_start_g _ _ _ _ _ I). done.
  - rewrite <- Hls, (Hf s Hs), (Abs.inv_f _ _ _ _ _ I s 0 (Abs.inv_start_g _ _ _ _ _ I)).
    rewrite cost_manh by (simpl; lia). simpl. done.
  - intros Hne. specialize (Hgt Hne). rewrite <- Hlt, (Hg t Ht), (Hf t Ht), Hgt.
    rewrite (Abs.inv_f _ _ _ _ _ I t _ Hgt), cost_manh, manh_refl by (simpl; lia).
    simpl. split; [done|]. do 2 f_equal. lia.
Qed.

End bridge_final.

Lemma loc_at_in_maze G σ maze p :
  grid_ok G σ maze → Abs.ingrid G p → loc_at maze p ∈ concat maze.
Proof.
  intros Hok Hp. apply list_elem_of_In, (in_concat_getMazeUnit maze p.1 p.2).
  by apply (getMazeUnit_loc_at G σ).
Qed.

Lemma NoDup_fmap_loc_at G σ maze (r : list (Z * Z)) :
  grid_ok G σ maze → (∀ q, q ∈ r → Abs.ingrid G q) → NoDup r → NoDup (loc_at maze <$> r).
Proof.
  intros Hok Hin Hnd. induction Hnd as [|p r Hp Hnd IH]; [constructor|].
  rewrite fmap_cons. apply list.NoDup_cons. split.
  - intros (q & Heq & Hq)%list_elem_of_fmap.
    apply (loc_at_inj G σ maze) in Heq; [by subst|done|apply Hin; left|apply Hin; by right].
  - apply IH. intros q Hq. apply Hin. by right.
Qed.

(** The result of [getPath] as a list of cells. *)
Lemma getPath_cells unitSize count σ maze s t startPoint targetPoint fuel :
  wf unitSize count σ maze = true →
  getMazeUnit maze s.1 s.2 = Some startPoint →
  getMazeUnit maze t.1 t.2 = Some targetPoint →
  (cell_count maze ≤ fuel)%nat →
  ∃ σ' path,
    getPath fuel count σ maze startPoint targetPoint = Some (S (S count), σ', path)
    ∧ NoDup path
    ∧ (∀ l, l ∈ path → l ∈ concat maze)
    ∧ (path ≠ [] → list.head path = Some targetPoint ∧ list.last path = Some startPoint)
    ∧ (∀ k l, path !! k = Some l → (S k < length path)%nat →
         MazeUnit.isBlock (σ l) = false).
Proof.
  intros Hwf Hsp Htp Hfuel.
  destruct (getPath_final _ _ _ _ Hwf s t _ _ fuel Hsp Htp Hfuel)
    as (σ' & r & Hrun & Hfr & Hout & Hnd & Hin & Hs & Ht & Hls & Hlt & _).
  pose proof (wf_grid_ok _ _ _ _ Hwf) as Hok.
  exists σ', (loc_at maze <$> r). split_and!; [done| | | |].
  - by apply (NoDup_fmap_loc_at (grid_of unitSize σ maze) σ).
  - intros l (q & -> & Hq)%list_elem_of_fmap.
    apply (loc_at_in_maze (grid_of unitSize σ maze) σ); auto.
  - intros Hne. destruct Hout as [[-> _]|(k & Hb & _)]; [done|].
    rewrite fmap_last, (back_last _ _ _ _ Hb). simpl. rewrite Hls.
    apply back_head in Hb. destruct r; simplify_eq/=. done.
  - intros k l Hl Hk. rewrite length_fmap in Hk.
    apply list_lookup_fmap_Some in Hl as (p & -> & Hp).
    destruct (lookup_lt_is_Some_2 r (S k) Hk) as [q Hq].
    destruct Hout as [[-> _]|(n & Hback & _)]; [done|].
    apply (back_lookup _ _ _ _ _ _ _ Hback Hp) in Hq.
    by apply elem_of_neighbors in Hq as (_ & _ & Hb).
Qed.

(** X18. The result holds no cell twice, and cells of the maze only;
    when it is not empty its first cell is the target object itself and
    its last the start object. *)
Theorem getPath_simple unitSize count σ maze s t startPoint targetPoint fuel :
  wf unitSize count σ maze = true →
  getMazeUnit maze s.1 s.2 = Some startPoint →
  getMazeUnit maze t.1 t.2 = Some targetPoint →
  (cell_count maze ≤ fuel)%nat →
  ∃ σ' path,
    getPath fuel count σ maze startPoint targetPoint = Some (S (S count), σ', path)
    ∧ NoDup path
    ∧ (∀ l, l ∈ path → l ∈ concat maze)
    ∧ (path ≠ [] → list.head path = Some targetPoint ∧ list.last path = Some startPoint).
Proof.
  intros Hwf Hsp Htp Hfuel.
  destruct (getPath_cells _ _ _ _ s t _ _ fuel Hwf Hsp Htp Hfuel)
    as (σ' & path & Hrun & Hnd & Hin & Hends & _).
  by exists σ', path.
Qed.

(** X19. A blocked target other than the start is never reached: the
    result is empty. *)
Theorem getPath_blocked_target unitSize count σ maze s t startPoint targetPoint fuel :
  wf unitSize count σ maze = true →
  getMazeUnit maze s.1 s.2 = Some startPoint →
  getMazeUnit maze t.1 t.2 = Some targetPoint →
  (cell_count maze ≤ fuel)%nat →
  MazeUnit.isBlock (σ targetPoint) = true →
  startPoint ≠ targetPoint →
  ∃ σ', getPath fuel count σ maze startPoint targetPoint = Some (S (S count), σ', []).
Proof.
  intros Hwf Hsp Htp Hfuel Hblock Hne.
  destruct (getPath_run _ _ _ _ Hwf s t _ _ fuel Hsp Htp Hfuel)
    as (σ' & r & Hrun & Hfr & Hout & Hin & Hs & Ht & Habs & Hls & Hlt).
  exists σ'. destruct Hout as [[-> _]|(k & Hb & _)]; [done|]. exfalso.
  inversion Hb as [|? c l Hn Hb']; simplify_eq.
  apply elem_of_neighbors in Hn as (_ & _ & Hfree). simpl in Hfree. congruence.
Qed.

(** X20. A result that is not empty has at least as many cells as the
    Manhattan distance of start and target plus one, and at most as many
    as the grid has. *)
Theorem getPath_length_bounds unitSize count σ maze s t startPoint targetPoint fuel :
  wf unitSize count σ maze = true →
  getMazeUnit maze s.1 s.2 = Some startPoint →
  getMazeUnit maze t.1 t.2 = Some targetPoint →
  (cell_count maze ≤ fuel)%nat →
  ∃ σ' path,
    getPath fuel count σ maze startPoint targetPoint = Some (S (S count), σ', path)
    ∧ (path ≠ [] →
       Z.abs (s.1 - t.1) + Z.abs (s.2 - t.2) + 1 ≤ Z.of_nat (length path)
       ∧ (length path ≤ cell_count maze)%nat).
Proof.
  intros Hwf Hsp Htp Hfuel.
  destruct (getPath_final _ _ _ _ Hwf s t _ _ fuel Hsp Htp Hfuel)
    as (σ' & r & Hrun & Hfr & Hout & Hnd & Hin & Hs & Ht & Hls & Hlt & _).
  exists σ', (loc_at maze <$> r). split; [done|]. intros Hne.
  rewrite length_fmap. split.
  - destruct Hout as [[-> _]|(k & _ & Hlen & Hw & _)]; [done|].
    apply walk_manh_le in Hw. unfold Abs.manh in Hw. lia.
  - rewrite <- (wf_size _ _ _ _ Hwf). by apply size_bound.
Qed.

(** X21. What the two [MyWeakMap] instances of a call leave on the
    cells: on the start the gScore 0 and the fScore
    [cost(startPoint, targetPoint)], and on a target that was reached
    the cost of the returned path, as gScore and as fScore. *)
Theorem getPath_scores unitSize count σ maze s t startPoint targetPoint fuel :
  wf unitSize count σ maze = true →
  getMazeUnit maze s.1 s.2 = Some startPoint →
  getMazeUnit maze t.1 t.2 = Some targetPoint →
  (cell_count maze ≤ fuel)%nat →
  ∃ σ' path,
    getPath fuel count σ maze startPoint targetPoint = Some (S (S count), σ', path)
    ∧ MazeUnit.props (σ' startPoint) !! wm_key count = Some (Fin 0)
    ∧ MazeUnit.props (σ' startPoint) !! wm_key (S count)
      = Some (Fin (cost σ startPoint targetPoint))
    ∧ (path ≠ [] →
       MazeUnit.props (σ' targetPoint) !! wm_key count
         = Some (Fin (path_cost unitSize path))
       ∧ MazeUnit.props (σ' targetPoint) !! wm_key (S count)
         = Some (Fin (path_cost unitSize path))).
Proof.
  intros Hwf Hsp Htp Hfuel.
  destruct (getPath_final _ _ _ _ Hwf s t _ _ fuel Hsp Htp Hfuel)
    as (σ' & r & Hrun & Hfr & Hout & Hnd & Hin & Hs & Ht & Hls & Hlt & Hg & Hf & Htg).
  pose proof (wf_grid_ok _ _ _ _ Hwf) as Hok.
  exists σ', (loc_at maze <$> r). split_and!; [done|done| |].
  - rewrite Hf, <- Hls, <- Hlt, (cost_sim _ maze σ s t Hok Hs Ht).
    rewrite cost_manh by (pose proof (ok_unit _ _ _ Hok); lia). done.
  - intros Hne. unfold path_cost. rewrite length_fmap. apply Htg. by intros ->.
Qed.

(** ** The flag of the start cell *)

Section start_flag.
Import Abs.
Context (G1 G2 : Grid) (s t : Z * Z).
Context (Hcols : cols G1 = cols G2) (Hrows : rows G1 = rows G2).
Context (Hunit : unitSize G1 = unitSize G2).
Context (Hflags : ∀ p, ingrid G1 p → p ≠ s → blocked G1 p = blocked G2 p).








End start_flag.


(** ** [loop] *)

(** On a rectangular grid with a column and a row, the target of [loop]
    is the cell at the clamped indices. *)
Lemma loop_targetPoint_Some maze rows i j :
  Forall (λ row, length row = rows) maze → maze ≠ [] → rows ≠ 0%nat →
  ∃ l, loop_targetPoint maze i j = Some l ∧ l ∈ concat maze
       ∧ getMazeUnit maze (Z.max 0 (Z.min i (Z.of_nat (length maze) - 1)))
                          (Z.max 0 (Z.min j (Z.of_nat rows - 1))) = Some l.
Proof.
  intros Hrect Hne Hrows. unfold loop_targetPoint.
  destruct maze as [|row0 m] eqn:Em; [done|]. rewrite <- Em in *.
  assert (maze !! 0%nat = Some row0) as Hrow0 by (by rewrite Em). rewrite Hrow0. simpl.
  assert (length row0 = rows) as ->.
  { by apply (proj1 (Forall_lookup _ _) Hrect 0%nat). }
  assert (0 < Z.of_nat (length maze)) as Hpos by (rewrite Em; simpl; lia).
  set (i' := if bool_decide (_ < 0) then 0 else _).
  set (j' := if bool_decide (_ < 0) then 0 else _).
  assert (i' = Z.max 0 (Z.min i (Z.of_nat (length maze) - 1))) as ->.
  { unfold i'. repeat case_bool_decide; lia. }
  assert (j' = Z.max 0 (Z.min j (Z.of_nat rows - 1))) as ->.
  { unfold j'. repeat case_bool_decide; lia. }
  destruct (getMazeUnit_rect maze rows
              (Z.max 0 (Z.min i (Z.of_nat (length maze) - 1)))
              (Z.max 0 (Z.min j (Z.of_nat rows - 1))) Hrect) as (l & Hl & Hin); [lia..|].
  by exists l.
Qed.

(** X23. On a rectangular grid [loop] finds its target unless the grid
    has no column or no row (the frame then ends in a [TypeError]):
    wherever the pointer is, the target is the cell of the maze at the
    indices clamped to the grid. *)
Theorem loop_targetPoint_clamped maze rows i j :
  Forall (λ row, length row = rows) maze →
  (loop_targetPoint maze i j = None ↔ maze = [] ∨ rows = 0%nat)
  ∧ (maze ≠ [] → rows ≠ 0%nat →
     ∃ l, loop_targetPoint maze i j = Some l ∧ l ∈ concat maze
          ∧ getMazeUnit maze (Z.max 0 (Z.min i (Z.of_nat (length maze) - 1)))
                             (Z.max 0 (Z.min j (Z.of_nat rows - 1))) = Some l).
Proof.
  intros Hrect. split; [|by apply loop_targetPoint_Some]. split.
  - intros Hnone. destruct (decide (maze = [])) as [|Hne]; [by left|].
    destruct (decide (rows = 0%nat)) as [|Hrows]; [by right|].
    destruct (loop_targetPoint_Some maze rows i j Hrect Hne Hrows) as (l & Hl & _).
    congruence.
  - intros [->| ->]; [done|]. unfold loop_targetPoint.
    destruct (maze !! 0%nat) as [row0|] eqn:Hrow0; [|done]. simpl.
    pose proof (proj1 (Forall_lookup _ _) Hrect 0%nat _ Hrow0) as Hlen. simpl in Hlen.
    rewrite Hlen.
    match goal with |- getMazeUnit maze ?a ?b = None =>
      destruct (getMazeUnit maze a b) as [l|] eqn:Hl; [|done] end.
    apply getMazeUnit_Some in Hl as (_ & _ & row & Hrow & Hl).
    pose proof (proj1 (Forall_lookup _ _) Hrect _ _ Hrow) as Hlen'. simpl in Hlen'.
    apply lookup_lt_Some in Hl. lia.
Qed.




(** ** The further properties at concrete grids *)

Lemma MySet_size_values_witness :
  size (MySet_run grid_free.1 [0; 1; 0]%nat [op_add 4%nat; op_delete 0%nat; op_add 4%nat])
  = Z.of_nat (length (MySet_values
      (MySet_run grid_free.1 [0; 1; 0]%nat [op_add 4%nat; op_delete 0%nat; op_add 4%nat]))).
Proof. apply MySet_size_values, generateMaze_plain_ids. Defined.

Lemma MySet_values_ids_witness :
  NoDup (getId grid_free.1 <$> MySet_values (MySet_run grid_free.1 [0; 1; 0]%nat [op_add 4%nat]))
  ∧ ∀ item, MySet_has grid_free.1 (MySet_run grid_free.1 [0; 1; 0]%nat [op_add 4%nat]) item = true
      ↔ ∃ v, v ∈ MySet_values (MySet_run grid_free.1 [0; 1; 0]%nat [op_add 4%nat])
             ∧ getId grid_free.1 v = getId grid_free.1 item
             ∧ MySet_get grid_free.1 (MySet_run grid_free.1 [0; 1; 0]%nat [op_add 4%nat]) item
               = Some v.
Proof. apply MySet_values_ids, generateMaze_plain_ids. Defined.

Lemma MySet_has_add_delete_witness :
  MySet_has grid_free.1 (MySet_add grid_free.1 (MySet_new grid_free.1 [0%nat]) 1%nat) 1%nat
  = bool_decide (getId grid_free.1 1%nat = getId grid_free.1 1%nat)
    || MySet_has grid_free.1 (MySet_new grid_free.1 [0%nat]) 1%nat
  ∧ MySet_has grid_free.1 (MySet_delete grid_free.1 (MySet_new grid_free.1 [0%nat]) 1%nat) 1%nat
    = bool_decide (getId grid_free.1 1%nat ≠ getId grid_free.1 1%nat)
      && MySet_has grid_free.1 (MySet_new grid_free.1 [0%nat]) 1%nat.
Proof. apply MySet_has_add_delete, generateMaze_plain_ids. Defined.

Lemma MySet_delete_absent_witness :
  MySet_delete grid_free.1 (MySet_new grid_free.1 [0%nat]) 1%nat = MySet_new grid_free.1 [0%nat]
  ∧ MySet_delete grid_free.1 (MySet_add grid_free.1 (MySet_new grid_free.1 [0%nat]) 1%nat) 1%nat
    = MySet_new grid_free.1 [0%nat].
Proof.
  apply MySet_delete_absent.
  - apply generateMaze_plain_ids.
  - vm_compute. reflexivity.
Defined.


Lemma select_defined_witness :
  ∃ current,
    select {| wm_id := wm_key 1 |} grid_free.1
      (MySet_values (MySet_run grid_free.1 [3; 6]%nat [op_delete 3%nat])) = Some current
    ∧ current ∈ MySet_values (MySet_run grid_free.1 [3; 6]%nat [op_delete 3%nat]).
Proof.
  apply (select_defined {| wm_id := wm_key 1 |} grid_free.1 [3; 6]%nat [op_delete 3%nat]).
  - apply generateMaze_plain_ids.
  - vm_compute. discriminate.
Defined.

Lemma select_first_min_witness :
  ∃ k zc, [2; 8]%nat !! k = Some 8%nat
    ∧ score {| wm_id := wm_key 1 |} grid_gap_searched 8%nat = Some zc
    ∧ (∀ i u z, [2; 8]%nat !! i = Some u →
         score {| wm_id := wm_key 1 |} grid_gap_searched u = Some z → zc ≤ z)
    ∧ (∀ i u z, (i < k)%nat → [2; 8]%nat !! i = Some u →
         score {| wm_id := wm_key 1 |} grid_gap_searched u = Some z → zc < z).
Proof.
  apply (select_first_min {| wm_id := wm_key 1 |} grid_gap_searched [2; 8]%nat 8%nat).
  - intros u Hu. apply list_elem_of_In in Hu. simpl in Hu.
    destruct Hu as [<-|[<-|[]]]; vm_compute; eauto.
  - vm_compute. reflexivity.
Defined.

Lemma buildPath_links_witness :
  list.head [1; 0]%nat = Some 1%nat
  ∧ (∀ k a b, [1; 0]%nat !! k = Some a → [1; 0]%nat !! S k = Some b →
       links_one !! MazeUnit.id (grid_free.1 a) = Some b)
  ∧ (∃ z, list.last [1; 0]%nat = Some z ∧ links_one !! MazeUnit.id (grid_free.1 z) = None)
  ∧ ∀ fuel', (length [1; 0]%nat ≤ fuel')%nat →
      buildPath fuel' grid_free.1 links_one 1%nat = Some [1; 0]%nat.
Proof.
  apply (buildPath_links 5 grid_free.1 links_one 1%nat [1; 0]%nat).
  - apply generateMaze_plain_ids.
  - vm_compute. reflexivity.
Defined.

Lemma buildPath_endless_witness :
  buildPath 1000 grid_free.1 links_circle 0%nat = None.
Proof.
  apply (buildPath_endless grid_free.1 links_circle (λ u, u = 0%nat) 0%nat).
  - apply generateMaze_plain_ids.
  - reflexivity.
  - intros u ->. exists 0%nat. split; [vm_compute; reflexivity|reflexivity].
Defined.

Lemma cost_on_grid_witness :
  cost grid_free.1 0%nat 7%nat = 10 * (Z.abs (0 - 2) + Z.abs (0 - 1))
  ∧ Native.cost grid_free.1 0%nat 7%nat = cost grid_free.1 0%nat 7%nat
  ∧ (adjacent (0, 0) (2, 1) → cost grid_free.1 0%nat 7%nat = 10).
Proof.
  apply (cost_on_grid 10 0 grid_free.1 grid_free.2 (0, 0) (2, 1) 0%nat 7%nat).
  - vm_compute. reflexivity.
  - reflexivity.
  - reflexivity.
Defined.

Lemma getId_injective_witness :
  (getId grid_free.1 1%nat = getId grid_free.1 3%nat → 1%nat = 3%nat)
  ∧ (Native.getId grid_free.1 1%nat = Native.getId grid_free.1 3%nat → 1%nat = 3%nat).
Proof.
  apply (getId_injective 10 0 grid_free.1 grid_free.2 1%nat 3%nat).
  - vm_compute. reflexivity.
  - apply list_elem_of_In. simpl. tauto.
  - apply list_elem_of_In. simpl. tauto.
Defined.

Lemma generateMaze_grid_witness :
  length grid_wall.2 = Z.to_nat (30 `div` 10)
  ∧ Forall (λ row, length row = Z.to_nat (10 `div` 10)) grid_wall.2
  ∧ (30 < 10 → grid_wall.2 = [])
  ∧ (∀ a b l, getMazeUnit grid_wall.2 a b = Some l →
       grid_wall.1 l = MazeUnit.mk (a * 10) (b * 10) 10 10 a b
                         (mkId a b) (bool_decide (a = 1)) ∅)
  ∧ wf 10 0 grid_wall.1 grid_wall.2 = true.
Proof.
  apply (generateMaze_grid 30 10 10 (λ a _, bool_decide (a = 1))). lia.
Defined.

Lemma getStartPoint_square_witness :
  ∃ l, getStartPoint grid_free.2 (λ n, n - 1) (λ _, 0) = Normal (Some l)
       ∧ l ∈ concat grid_free.2.
Proof.
  apply (getStartPoint_square grid_free.2 (λ n, n - 1) (λ _, 0)).
  - discriminate.
  - repeat constructor.
  - intros n Hn. lia.
  - intros n Hn. lia.
Defined.

Lemma getStartPoint_oblong_witness :
  getStartPoint grid_wall.2 (λ _, 0) (λ n, n - 1) = Normal None.
Proof.
  destruct (getStartPoint_oblong grid_wall.2 1) as [_ H].
  - discriminate.
  - repeat constructor.
  - apply H. simpl. lia.
Defined.

Lemma getPath_simple_witness :
  ∃ σ' path,
    getPath 9 0 grid_gap.1 grid_gap.2 0%nat 8%nat = Some (2%nat, σ', path)
    ∧ NoDup path
    ∧ (∀ l, l ∈ path → l ∈ concat grid_gap.2)
    ∧ (path ≠ [] → list.head path = Some 8%nat ∧ list.last path = Some 0%nat).
Proof.
  apply (getPath_simple 10 0 grid_gap.1 grid_gap.2 (0, 0) (2, 2) 0%nat 8%nat 9%nat).
  - vm_compute. reflexivity.
  - reflexivity.
  - reflexivity.
  - vm_compute. lia.
Defined.

Lemma getPath_blocked_target_witness :
  ∃ σ', getPath 9 0 grid_gap.1 grid_gap.2 0%nat 7%nat = Some (2%nat, σ', []).
Proof.
  apply (getPath_blocked_target 10 0 grid_gap.1 grid_gap.2 (0, 0) (2, 1) 0%nat 7%nat 9%nat).
  - vm_compute. reflexivity.
  - reflexivity.
  - reflexivity.
  - vm_compute. lia.
  - reflexivity.
  - discriminate.
Defined.

Lemma getPath_length_bounds_witness :
  ∃ σ' path,
    getPath 9 0 grid_gap.1 grid_gap.2 0%nat 8%nat = Some (2%nat, σ', path)
    ∧ (path ≠ [] →
       Z.abs (0 - 2) + Z.abs (0 - 2) + 1 ≤ Z.of_nat (length path)
       ∧ (length path ≤ cell_count grid_gap.2)%nat).
Proof.
  apply (getPath_length_bounds 10 0 grid_gap.1 grid_gap.2 (0, 0) (2, 2) 0%nat 8%nat 9%nat).
  - vm_compute. reflexivity.
  - reflexivity.
  - reflexivity.
  - vm_compute. lia.
Defined.

Lemma getPath_scores_witness :
  ∃ σ' path,
    getPath 9 0 grid_gap.1 grid_gap.2 0%nat 8%nat = Some (2%nat, σ', path)
    ∧ MazeUnit.props (σ' 0%nat) !! wm_key 0 = Some (Fin 0)
    ∧ MazeUnit.props (σ' 0%nat) !! wm_key 1
      = Some (Fin (cost grid_gap.1 0%nat 8%nat))
    ∧ (path ≠ [] →
       MazeUnit.props (σ' 8%nat) !! wm_key 0 = Some (Fin (path_cost 10 path))
       ∧ MazeUnit.props (σ' 8%nat) !! wm_key 1 = Some (Fin (path_cost 10 path))).
Proof.
  apply (getPath_scores 10 0 grid_gap.1 grid_gap.2 (0, 0) (2, 2) 0%nat 8%nat 9%nat).
  - vm_compute. reflexivity.
  - reflexivity.
  - reflexivity.
  - vm_compute. lia.
Defined.


Lemma loop_targetPoint_clamped_witness :
  (loop_targetPoint grid_free.2 7 (-2) = None ↔ grid_free.2 = [] ∨ 3%nat = 0%nat)
  ∧ (grid_free.2 ≠ [] → 3%nat ≠ 0%nat →
     ∃ l, loop_targetPoint grid_free.2 7 (-2) = Some l ∧ l ∈ concat grid_free.2
          ∧ getMazeUnit grid_free.2 (Z.max 0 (Z.min 7 (Z.of_nat (length grid_free.2) - 1)))
                                    (Z.max 0 (Z.min (-2) (Z.of_nat 3 - 1))) = Some l).
Proof.
  apply (loop_targetPoint_clamped grid_free.2 3 7 (-2)). repeat constructor.
Defined.


(** One frame on the grid with the gap, the pointer beyond the last
    column and row: the start in blue, then the target and the three
    cells between them in green. *)
Example loop_frame :
  (λ r, match r with Normal (_, _, calls) => calls | TypeError => [] end)
    <$> loop 9 0 grid_gap.1 grid_gap.2 0%nat 5 2
  = Some [(0%nat, "#0000ff"); (8%nat, "#00ff00"); (5%nat, "#00ff00");
          (4%nat, "#00ff00"); (3%nat, "#00ff00")].
Proof. vm_compute. reflexivity. Qed.
